(** * chaind: the standard scheduler service and the chain ID request

    A shallow embedding of [services/scheduler/standard/service.go], of
    its [parameters.go], and of the [chainID] request of the getlogs
    provider.

    The scheduler is concurrent: every scheduled job owns one goroutine (its
    runner) and the public operations are called from arbitrary goroutines.
    The embedding is an interleaving semantics.  Every statement of the
    source that touches shared memory (the [jobs] map, a field of a [job],
    one of its channels) is one step of the goroutine that executes it; the
    [jobsMutex] critical sections, which touch nothing but the map, are one
    step each; [finaliseJob], which only its record's runner calls, is one
    step that needs the record's [stateLock] to be free.  An [Unlock] is
    merged with the statement before it.  A [select] is one step, which
    takes any of the cases that are ready when the goroutine executes it.

    The job function and [runtimeFunc] are opaque.  The call of the job
    function is a program point of the runner, [InJob]; the results of the
    successive calls of [runtimeFunc] are given when the job is scheduled.
    Of the time, a runner knows whether the time of its timer has come,
    and of its context whether it is done; both are set by steps of the
    environment.  The metrics are counted per runner, whatever the class
    of its job; of the log, the calls of [log.Error] are counted.
    [CancelJobs] is a sequence of calls of [CancelJobIfExists]. *)

From stdpp Require Import base option list gmap strings numbers.

Module Scheduler.

(** ** Errors of the [scheduler] package that the service returns *)

Inductive error :=
  | ErrNoJobName
  | ErrNoJobFunc
  | ErrNoRuntimeFunc
  | ErrJobAlreadyExists
  | ErrNoSuchJob
  | ErrJobRunning
  | ErrJobFinalised.

(** What one statement does: it completes, it cannot proceed yet (a lock
    is held, a channel is full, no case of a [select] is ready), or it
    panics (send on, or close of, a closed channel). *)
Inductive outcome (A : Type) :=
  | Next (a : A)
  | Blocked
  | Panic.
Arguments Next {A} a.
Arguments Blocked {A}.
Arguments Panic {A}.

(** ** Channels: [make(chan struct{}, 1)] *)

Record chan := Chan { buffered : nat; closed : bool }.

Definition capacity : nat := 1.

Definition make_chan : chan := Chan 0 false.

(** [ch <- struct{}{}] *)
Definition send (c : chan) : outcome chan :=
  if closed c then Panic
  else if bool_decide (buffered c < capacity) then Next (Chan (S (buffered c)) false)
  else Blocked.

(** A receive can proceed when a value is buffered or the channel is closed. *)
Definition ready (c : chan) : bool :=
  bool_decide (0 < buffered c) || closed c.

(** [<-ch], taken when [ready]. *)
Definition recv (c : chan) : chan := Chan (pred (buffered c)) (closed c).

(** [close(ch)] *)
Definition close (c : chan) : outcome chan :=
  if closed c then Panic else Next (Chan (buffered c) true).

(** ** The job record

    [stateLock] holds the index of the caller that has locked it. *)

Record job := Job {
  stateLock : option nat;
  active : bool;
  finalised : bool;
  periodic : bool;
  cancelCh : chan;
  runCh : chan
}.

Definition new_job (p : bool) : job := Job None false false p make_chan make_chan.

Definition with_lock (l : option nat) (j : job) : job :=
  Job l (active j) (finalised j) (periodic j) (cancelCh j) (runCh j).
Definition with_active (b : bool) (j : job) : job :=
  Job (stateLock j) b (finalised j) (periodic j) (cancelCh j) (runCh j).
Definition with_finalised (b : bool) (j : job) : job :=
  Job (stateLock j) (active j) b (periodic j) (cancelCh j) (runCh j).
Definition with_cancelCh (c : chan) (j : job) : job :=
  Job (stateLock j) (active j) (finalised j) (periodic j) c (runCh j).
Definition with_runCh (c : chan) (j : job) : job :=
  Job (stateLock j) (active j) (finalised j) (periodic j) (cancelCh j) c.

(** finaliseJob tidies up a job that is no longer in use. *)
Definition finaliseJob (j : job) : outcome job :=
  match stateLock j with
  | Some _ => Blocked
  | None =>
      match close (cancelCh j) with
      | Next cc =>
          match close (runCh j) with
          | Next rc => Next (Job None (active j) true (periodic j) cc rc)
          | _ => Panic
          end
      | _ => Panic
      end
  end.

(** ** The runner goroutines *)

(** The four cases of the [select]. *)
Inductive branch := BrParent | BrCancel | BrRun | BrTimer.

(** Why a runner is on the path it is on. *)
Inductive cause :=
  | ParentDone
  | CancelSignal
  | RunSignal
  | TimerFired
  | NoMoreInstances
  | RuntimeError
  | AlreadyRunning.

(** Program points of a runner: the statement it executes next. *)
Inductive rpc :=
  | AtRuntime                 (* runtimeFunc(ctx, runtimeData) *)
  | AtSelect                  (* select { ... } *)
  | AtDelete (c : cause)      (* s.jobsMutex.Lock(); delete(s.jobs, name); s.jobsMutex.Unlock() *)
  | AtFinalise (c : cause)    (* finaliseJob(job) *)
  | AtActiveLoad              (* if job.active.Load() *)
  | AtActiveStore             (* job.active.Store(true) *)
  | InJob (c : cause)         (* jobFunc(ctx, data) is executing *)
  | AtActiveReset (c : cause) (* job.active.Store(false) *)
  | Exited (c : cause).       (* the goroutine has returned *)

(** What [runtimeFunc] returns: a time, [scheduler.ErrNoMoreInstances], or
    another error. *)
Inductive rt_result := RtTime | RtNoMore | RtError.

(** The runner's own variables: the captured [name], its program point,
    whether its [ctx] is done, whether the time of its timer has come, the
    results of the successive calls of [runtimeFunc], and the calls it made
    to the metrics ([jobStartedOnTimer], [jobStartedOnSignal],
    [jobCancelled]) and to [log.Error].  Each call of the job function
    follows a call of [jobStartedOnTimer] or of [jobStartedOnSignal], so
    the two count the executions of the job. *)
Record runner := Runner {
  name : string;
  pc : rpc;
  ctxDone : bool;
  timeReached : bool;
  runtimeFunc : nat → rt_result;
  rtCalls : nat;
  startedOnTimer : nat;
  startedOnSignal : nat;
  cancelled : nat;
  errorsLogged : nat
}.

Definition new_runner (nm : string) (start : rpc) (rf : nat → rt_result) : runner :=
  Runner nm start false false rf 0 0 0 0 0.

Definition goto (q : rpc) (r : runner) : runner :=
  Runner (name r) q (ctxDone r) (timeReached r) (runtimeFunc r) (rtCalls r)
         (startedOnTimer r) (startedOnSignal r) (cancelled r) (errorsLogged r).
Definition with_ctxDone (r : runner) : runner :=
  Runner (name r) (pc r) true (timeReached r) (runtimeFunc r) (rtCalls r)
         (startedOnTimer r) (startedOnSignal r) (cancelled r) (errorsLogged r).
Definition with_time (b : bool) (r : runner) : runner :=
  Runner (name r) (pc r) (ctxDone r) b (runtimeFunc r) (rtCalls r)
         (startedOnTimer r) (startedOnSignal r) (cancelled r) (errorsLogged r).
Definition called_runtime (r : runner) : runner :=
  Runner (name r) (pc r) (ctxDone r) (timeReached r) (runtimeFunc r) (S (rtCalls r))
         (startedOnTimer r) (startedOnSignal r) (cancelled r) (errorsLogged r).
Definition jobStartedOnTimer (r : runner) : runner :=
  Runner (name r) (pc r) (ctxDone r) (timeReached r) (runtimeFunc r) (rtCalls r)
         (S (startedOnTimer r)) (startedOnSignal r) (cancelled r) (errorsLogged r).
Definition jobStartedOnSignal (r : runner) : runner :=
  Runner (name r) (pc r) (ctxDone r) (timeReached r) (runtimeFunc r) (rtCalls r)
         (startedOnTimer r) (S (startedOnSignal r)) (cancelled r) (errorsLogged r).
Definition jobCancelled (r : runner) : runner :=
  Runner (name r) (pc r) (ctxDone r) (timeReached r) (runtimeFunc r) (rtCalls r)
         (startedOnTimer r) (startedOnSignal r) (S (cancelled r)) (errorsLogged r).
Definition log_error (r : runner) : runner :=
  Runner (name r) (pc r) (ctxDone r) (timeReached r) (runtimeFunc r) (rtCalls r)
         (startedOnTimer r) (startedOnSignal r) (cancelled r) (S (errorsLogged r)).

(** The [select] of both runners: which case is taken, when it is ready. *)
Definition select (b : branch) (j : job) (r : runner) : outcome (job * runner) :=
  match b with
  | BrParent =>
      if ctxDone r then Next (j, goto (AtDelete ParentDone) r) else Blocked
  | BrCancel =>
      if ready (cancelCh j)
      then Next (with_cancelCh (recv (cancelCh j)) j, goto (AtFinalise CancelSignal) r)
      else Blocked
  | BrRun =>
      if ready (runCh j)
      then Next (with_runCh (recv (runCh j)) j, jobStartedOnSignal (goto (InJob RunSignal) r))
      else Blocked
  | BrTimer =>
      if timeReached r then Next (j, goto AtActiveLoad r) else Blocked
  end.

(** The goroutine of [ScheduleJob]. *)
Definition oneoff_step (b : branch) (jobs : gmap string nat) (j : job) (r : runner)
  : outcome (gmap string nat * job * runner) :=
  match pc r with
  | AtSelect =>
      match select b j r with
      | Next (j', r') => Next (jobs, j', r')
      | Blocked => Blocked
      | Panic => Panic
      end
  | AtDelete c =>
      Next (delete (name r) jobs, j,
            goto (match c with ParentDone => AtFinalise ParentDone | _ => AtActiveStore end) r)
  | AtFinalise c =>
      match finaliseJob j with
      | Next j' =>
          Next (jobs, j',
                match c with
                | RunSignal => goto (AtActiveReset RunSignal) r
                | TimerFired => goto (Exited TimerFired) r
                | _ => jobCancelled (goto (Exited c) r)
                end)
      | Blocked => Blocked
      | Panic => Panic
      end
  | AtActiveLoad =>
      if active j then Next (jobs, j, goto (Exited AlreadyRunning) r)
      else Next (jobs, j, goto (AtDelete TimerFired) r)
  | AtActiveStore =>
      Next (jobs, with_active true j, jobStartedOnTimer (goto (InJob TimerFired) r))
  | InJob c =>
      Next (jobs, j,
            goto (match c with RunSignal => AtFinalise RunSignal | _ => AtActiveReset c end) r)
  | AtActiveReset c =>
      Next (jobs, with_active false j,
            goto (match c with RunSignal => Exited RunSignal | _ => AtFinalise c end) r)
  | AtRuntime | Exited _ => Blocked
  end.

(** The goroutine of [SchedulePeriodicJob]. *)
Definition periodic_step (b : branch) (jobs : gmap string nat) (j : job) (r : runner)
  : outcome (gmap string nat * job * runner) :=
  match pc r with
  | AtRuntime =>
      match runtimeFunc r (rtCalls r) with
      | RtNoMore => Next (jobs, j, called_runtime (goto (AtDelete NoMoreInstances) r))
      | RtError => Next (jobs, j, log_error (called_runtime (goto (AtDelete RuntimeError) r)))
      | RtTime => Next (jobs, j, with_time false (called_runtime (goto AtSelect r)))
      end
  | AtSelect =>
      match select b j r with
      | Next (j', r') => Next (jobs, j', r')
      | Blocked => Blocked
      | Panic => Panic
      end
  | AtDelete c => Next (delete (name r) jobs, j, goto (AtFinalise c) r)
  | AtFinalise c =>
      match finaliseJob j with
      | Next j' => Next (jobs, j', jobCancelled (goto (Exited c) r))
      | Blocked => Blocked
      | Panic => Panic
      end
  | AtActiveLoad =>
      if active j then Next (jobs, j, goto AtRuntime r)
      else Next (jobs, j, goto AtActiveStore r)
  | AtActiveStore =>
      Next (jobs, with_active true j, jobStartedOnTimer (goto (InJob TimerFired) r))
  | InJob c => Next (jobs, j, goto (AtActiveReset c) r)
  | AtActiveReset c => Next (jobs, with_active false j, goto AtRuntime r)
  | Exited _ => Blocked
  end.

Definition runner_step (b : branch) (jobs : gmap string nat) (j : job) (r : runner)
  : outcome (gmap string nat * job * runner) :=
  if periodic j then periodic_step b jobs j r else oneoff_step b jobs j r.

(** ** The callers of [RunJob], [RunJobIfExists], [CancelJob] and
       [CancelJobIfExists] *)

Inductive op := OpRunJob | OpRunJobIfExists | OpCancelJob | OpCancelJobIfExists.

Definition is_run (o : op) : bool :=
  match o with OpRunJob | OpRunJobIfExists => true | _ => false end.

(** Program points of a caller that found its job in the map: the
    statement of [runJob], or of the second half of [CancelJob], that it
    executes next. *)
Inductive cpc :=
  | RunAtLock          (* job.stateLock.Lock() *)
  | RunAtActive        (* if job.active.Load() *)
  | RunAtFinalised     (* if job.finalised.Load() *)
  | RunAtStore         (* job.active.Store(true) *)
  | RunAtSend          (* job.runCh <- struct{}{}; job.stateLock.Unlock() *)
  | CancelAtLock       (* job.stateLock.Lock() *)
  | CancelAtFinalised  (* if job.finalised.Load() ... job.finalised.Store(true) *)
  | CancelAtSend       (* job.cancelCh <- struct{}{}; job.stateLock.Unlock() *)
  | Returned (e : option error).

Record caller := Caller { cop : op; cpc_of : cpc }.

(** The first statement after the map's critical section. *)
Definition entry (o : op) : cpc := if is_run o then RunAtLock else CancelAtLock.

(** runJob runs the given job.  [i] identifies the caller. *)
Definition runJob (i : nat) (j : job) (q : cpc) : outcome (job * cpc) :=
  match q with
  | RunAtLock =>
      match stateLock j with
      | None => Next (with_lock (Some i) j, RunAtActive)
      | Some _ => Blocked
      end
  | RunAtActive =>
      if active j then Next (with_lock None j, Returned (Some ErrJobRunning))
      else Next (j, RunAtFinalised)
  | RunAtFinalised =>
      if finalised j then Next (with_lock None j, Returned (Some ErrJobFinalised))
      else Next (j, RunAtStore)
  | RunAtStore => Next (with_active true j, RunAtSend)
  | RunAtSend =>
      match send (runCh j) with
      | Next c => Next (with_lock None (with_runCh c j), Returned None)
      | Blocked => Blocked
      | Panic => Panic
      end
  | _ => Blocked
  end.

(** The statements of [CancelJob] that follow the map's critical section. *)
Definition cancelJob (i : nat) (j : job) (q : cpc) : outcome (job * cpc) :=
  match q with
  | CancelAtLock =>
      match stateLock j with
      | None => Next (with_lock (Some i) j, CancelAtFinalised)
      | Some _ => Blocked
      end
  | CancelAtFinalised =>
      if finalised j then Next (with_lock None j, Returned None)
      else Next (with_finalised true j, CancelAtSend)
  | CancelAtSend =>
      match send (cancelCh j) with
      | Next c => Next (with_lock None (with_cancelCh c j), Returned None)
      | Blocked => Blocked
      | Panic => Panic
      end
  | _ => Blocked
  end.

(** The next statement of a caller. *)
Definition caller_step (i : nat) (j : job) (q : cpc) : outcome (job * cpc) :=
  match q with
  | RunAtLock | RunAtActive | RunAtFinalised | RunAtStore | RunAtSend => runJob i j q
  | CancelAtLock | CancelAtFinalised | CancelAtSend => cancelJob i j q
  | Returned _ => Blocked
  end.

(** ** The service and its goroutines *)

(** A job record, its runner, and the callers that got hold of the record. *)
Record cell := Cell { rec : job; task : runner; callers : list caller }.

(** [jobs] is the map of the [Service]; its values are pointers into
    [heap].  [scheduled] counts the calls of [jobScheduled]. *)
Record world := World {
  jobs : gmap string nat;
  heap : list cell;
  scheduled : nat;
  panicked : bool
}.

(** New creates a new scheduling service. *)
Definition New : world := World ∅ [] 0 false.

(** A callable argument is present ([Some]) or nil ([None]). *)
Definition JobFunc := unit.
Definition RuntimeFunc := nat → rt_result.

(** ScheduleJob schedules a one-off job for a given time.  The goroutine
    of the job is its runner, at its [select]. *)
Definition ScheduleJob (nm : string) (jobFunc : option JobFunc) (w : world)
  : world * option error :=
  if bool_decide (nm = EmptyString) then (w, Some ErrNoJobName)
  else match jobFunc with
  | None => (w, Some ErrNoJobFunc)
  | Some _ =>
      match jobs w !! nm with
      | Some _ => (w, Some ErrJobAlreadyExists)
      | None =>
          (World (<[nm := length (heap w)]> (jobs w))
                 (heap w ++ [Cell (new_job false) (new_runner nm AtSelect (λ _, RtTime)) []])
                 (S (scheduled w)) (panicked w),
           None)
      end
  end.

(** SchedulePeriodicJob schedules a job to run in a loop.  The goroutine
    of the job is its runner, at the head of the loop. *)
Definition SchedulePeriodicJob (nm : string) (runtimeF : option RuntimeFunc)
    (jobFunc : option JobFunc) (w : world) : world * option error :=
  if bool_decide (nm = EmptyString) then (w, Some ErrNoJobName)
  else match runtimeF with
  | None => (w, Some ErrNoRuntimeFunc)
  | Some rf =>
      match jobFunc with
      | None => (w, Some ErrNoJobFunc)
      | Some _ =>
          match jobs w !! nm with
          | Some _ => (w, Some ErrJobAlreadyExists)
          | None =>
              (World (<[nm := length (heap w)]> (jobs w))
                     (heap w ++ [Cell (new_job true) (new_runner nm AtRuntime rf) []])
                     (S (scheduled w)) (panicked w),
               None)
          end
      end
  end.

(** JobExists returns true if a job exists. *)
Definition JobExists (nm : string) (w : world) : bool :=
  bool_decide (is_Some (jobs w !! nm)).

(** ListJobs returns the names of all jobs. *)
Definition ListJobs (w : world) : list string := (map_to_list (jobs w)).*1.

(** What the map's critical section of a run or cancel operation gives:
    the operation returns at once, or goes on with the record it found. *)
Inductive entered :=
  | Done (e : option error)
  | Found (p : nat) (i : nat).

(** The critical section on [jobsMutex] at the head of [RunJob],
    [RunJobIfExists] and [CancelJob].  A caller that finds the record
    becomes caller [i] of it. *)
Definition enter (o : op) (nm : string) (w : world) : option (world * entered) :=
  match jobs w !! nm with
  | None =>
      Some (w, Done (match o with
                     | OpRunJob | OpCancelJob => Some ErrNoSuchJob
                     | _ => None
                     end))
  | Some p =>
      c ← heap w !! p;
      Some (World (if is_run o && periodic (rec c) then jobs w else delete nm (jobs w))
                  (<[p := Cell (rec c) (task c) (callers c ++ [Caller o (entry o)])]> (heap w))
                  (scheduled w) (panicked w),
            Found p (length (callers c)))
  end.

(** RunJob runs a named job immediately: its critical section on the map;
    [runJob] follows when the job is found. *)
Definition RunJob (nm : string) (w : world) : option (world * entered) :=
  enter OpRunJob nm w.

(** RunJobIfExists runs a job if it exists. *)
Definition RunJobIfExists (nm : string) (w : world) : option (world * entered) :=
  enter OpRunJobIfExists nm w.

(** CancelJob removes a named job: its critical section on the map; the
    statements of [cancelJob] follow when the job is found. *)
Definition CancelJob (nm : string) (w : world) : option (world * entered) :=
  enter OpCancelJob nm w.

(** CancelJobIfExists cancels a job that may or may not exist. *)
Definition CancelJobIfExists (nm : string) (w : world) : option (world * entered) :=
  enter OpCancelJobIfExists nm w.

(** ** Interleavings *)

Inductive label :=
  | LScheduleJob (nm : string) (jobFunc : option JobFunc)
  | LSchedulePeriodicJob (nm : string) (runtimeF : option RuntimeFunc) (jobFunc : option JobFunc)
  | LEnter (o : op) (nm : string)   (* a caller executes the map's critical section *)
  | LCaller (p i : nat)             (* caller [i] of record [p] executes its next statement *)
  | LRunner (p : nat) (b : branch)  (* the runner of [p] executes its next statement *)
  | LTime (p : nat)                 (* the time of the timer of [p] comes *)
  | LParent (p : nat).              (* the context of [p] is cancelled *)

Definition set_panicked (w : world) : world :=
  World (jobs w) (heap w) (scheduled w) true.

Definition exec_runner (p : nat) (b : branch) (w : world) : option world :=
  c ← heap w !! p;
  match runner_step b (jobs w) (rec c) (task c) with
  | Next (js, j, r) =>
      Some (World js (<[p := Cell j r (callers c)]> (heap w)) (scheduled w) (panicked w))
  | Blocked => None
  | Panic => Some (set_panicked w)
  end.

Definition exec_caller (p i : nat) (w : world) : option world :=
  c ← heap w !! p;
  k ← callers c !! i;
  match caller_step i (rec c) (cpc_of k) with
  | Next (j, q) =>
      Some (World (jobs w)
                  (<[p := Cell j (task c) (<[i := Caller (cop k) q]> (callers c))]> (heap w))
                  (scheduled w) (panicked w))
  | Blocked => None
  | Panic => Some (set_panicked w)
  end.

Definition exec_env (p : nat) (f : runner → runner) (w : world) : option world :=
  c ← heap w !! p;
  Some (World (jobs w) (<[p := Cell (rec c) (f (task c)) (callers c)]> (heap w))
              (scheduled w) (panicked w)).

(** One step of the system; [None] when the step cannot be taken.  Nothing
    runs after a panic. *)
Definition exec (l : label) (w : world) : option world :=
  if panicked w then None
  else match l with
  | LScheduleJob nm f => Some (ScheduleJob nm f w).1
  | LSchedulePeriodicJob nm rf f => Some (SchedulePeriodicJob nm rf f w).1
  | LEnter o nm => fst <$> enter o nm w
  | LCaller p i => exec_caller p i w
  | LRunner p b => exec_runner p b w
  | LTime p => exec_env p (with_time true) w
  | LParent p => exec_env p with_ctxDone w
  end.

Fixpoint run (ls : list label) (w : world) : option world :=
  match ls with
  | [] => Some w
  | l :: ls' => w' ← exec l w; run ls' w'
  end.

(** The states of the service: what some interleaving reaches from [New]. *)
Definition reachable (w : world) : Prop := ∃ ls, run ls New = Some w.

(** ** Invariants of a record, its runner and its callers *)

(** The caller is inside the critical section on [stateLock]. *)
Definition holds (q : cpc) : bool :=
  match q with
  | RunAtActive | RunAtFinalised | RunAtStore | RunAtSend
  | CancelAtFinalised | CancelAtSend => true
  | _ => false
  end.

(** The caller has passed the check of [finalised] and is about to send. *)
Definition sends (q : cpc) : bool :=
  match q with
  | RunAtStore | RunAtSend | CancelAtSend => true
  | _ => false
  end.

(** The statements of [runJob] are executed by run operations, those of
    [CancelJob] by cancel operations. *)
Definition op_of_pc (o : op) (q : cpc) : bool :=
  match q with
  | RunAtLock | RunAtActive | RunAtFinalised | RunAtStore | RunAtSend => is_run o
  | CancelAtLock | CancelAtFinalised | CancelAtSend => negb (is_run o)
  | Returned _ => true
  end.

(** The runner has executed [finaliseJob]. *)
Definition finalised_pc (per : bool) (q : rpc) : bool :=
  match q with
  | Exited AlreadyRunning => per
  | Exited _ => true
  | AtActiveReset RunSignal => negb per
  | _ => false
  end.

(** The calls of [jobStartedOnTimer], [jobStartedOnSignal] and
    [jobCancelled] that a one-off runner has made when it is at a program
    point; [None] at the points it never is at. *)
Definition oneoff_counts (q : rpc) : option (nat * nat * nat) :=
  match q with
  | AtSelect | AtActiveLoad | AtActiveStore
  | AtDelete ParentDone | AtDelete TimerFired
  | AtFinalise ParentDone | AtFinalise CancelSignal
  | Exited AlreadyRunning => Some (0, 0, 0)
  | InJob TimerFired | AtActiveReset TimerFired | AtFinalise TimerFired
  | Exited TimerFired => Some (1, 0, 0)
  | InJob RunSignal | AtFinalise RunSignal | AtActiveReset RunSignal
  | Exited RunSignal => Some (0, 1, 0)
  | Exited ParentDone | Exited CancelSignal => Some (0, 0, 1)
  | _ => None
  end.

(** The runner took the timer case of its [select]. *)
Definition on_timer_path (q : rpc) : bool :=
  match q with
  | AtActiveLoad | AtActiveStore | AtDelete TimerFired | InJob TimerFired
  | AtActiveReset TimerFired | AtFinalise TimerFired | Exited TimerFired
  | Exited AlreadyRunning => true
  | _ => false
  end.

(** The runner took the timer case and found [active] unset. *)
Definition timer_executes (q : rpc) : bool :=
  match q with
  | AtActiveStore | AtDelete TimerFired | InJob TimerFired
  | AtActiveReset TimerFired | AtFinalise TimerFired | Exited TimerFired => true
  | _ => false
  end.

(** The runner took the run case of its [select]. *)
Definition on_run_path (q : rpc) : bool :=
  match q with
  | InJob RunSignal | AtFinalise RunSignal | AtActiveReset RunSignal
  | Exited RunSignal => true
  | _ => false
  end.

(** The runner has not yet passed the load of [active] of the timer case. *)
Definition waiting (q : rpc) : bool :=
  match q with AtSelect | AtActiveLoad => true | _ => false end.

(** Where the runner of a one-off job that is still in the map can be. *)
Definition pristine_pc (q : rpc) : bool :=
  match q with
  | AtSelect | AtActiveLoad | AtDelete ParentDone | AtDelete TimerFired => true
  | _ => false
  end.

(** A run operation has stored [active], at least. *)
Definition signalled (k : caller) : bool :=
  match cpc_of k with RunAtSend | Returned None => is_run (cop k) | _ => false end.

(** A run or cancel operation has returned without an error. *)
Definition succeeded (run : bool) (k : caller) : bool :=
  match cpc_of k with Returned None => bool_decide (is_run (cop k) = run) | _ => false end.

Record oneoff_ok (c : cell) : Prop := OneoffOk {
  oo_callers : length (callers c) ≤ 1;
  oo_counts :
    oneoff_counts (pc (task c)) =
      Some (startedOnTimer (task c), startedOnSignal (task c), cancelled (task c));
  oo_time : on_timer_path (pc (task c)) → timeReached (task c);
  oo_armed :
    (0 < buffered (runCh (rec c)) ∨ ∃ i k, callers c !! i = Some k ∧ signalled k) →
    waiting (pc (task c)) → active (rec c);
  oo_run :
    (0 < buffered (runCh (rec c)) ∨ on_run_path (pc (task c))) →
    ∃ o, is_run o ∧ callers c = [Caller o (Returned None)];
  oo_cancel : 0 < buffered (cancelCh (rec c)) → callers c ≠ [];
  oo_injob : ∀ cz, pc (task c) = InJob cz → active (rec c)
}.

Record cell_ok (c : cell) : Prop := CellOk {
  ok_op : ∀ i k, callers c !! i = Some k → op_of_pc (cop k) (cpc_of k);
  ok_lock : ∀ i k, callers c !! i = Some k → holds (cpc_of k) → stateLock (rec c) = Some i;
  ok_closed_same : closed (runCh (rec c)) = closed (cancelCh (rec c));
  ok_closed_pc : closed (cancelCh (rec c)) = finalised_pc (periodic (rec c)) (pc (task c));
  ok_closed_fin : closed (cancelCh (rec c)) → finalised (rec c);
  ok_send : ∀ i k, callers c !! i = Some k → sends (cpc_of k) → closed (cancelCh (rec c)) = false;
  ok_cancel_buf : 0 < buffered (cancelCh (rec c)) → finalised (rec c);
  ok_cancelling :
    ∀ i k, callers c !! i = Some k → cpc_of k = CancelAtSend →
           finalised (rec c) ∧ buffered (cancelCh (rec c)) = 0;
  ok_oneoff : periodic (rec c) = false → oneoff_ok c
}.

(** Every entry of the map points to a record of that name; a one-off
    record that is in the map has not been touched by any caller, and its
    runner has not begun to execute the job. *)
Definition registry_ok (w : world) : Prop :=
  ∀ nm p, jobs w !! nm = Some p →
    ∃ c, heap w !! p = Some c ∧ name (task c) = nm ∧
         (periodic (rec c) = false →
          callers c = [] ∧ pristine_pc (pc (task c)) ∧ active (rec c) = false).

Record inv (w : world) : Prop := Inv {
  inv_panic : panicked w = false;
  inv_cells : Forall cell_ok (heap w);
  inv_registry : registry_ok w
}.

(** What one step of the system does to one cell. *)
Inductive cell_move (w : world) (p : nat) (c c' : cell) : Prop :=
  | move_none : c' = c → cell_move w p c c'
  | move_runner b js' :
      runner_step b (jobs w) (rec c) (task c) = Next (js', rec c', task c') →
      callers c' = callers c →
      cell_move w p c c'
  | move_caller i k j' q :
      callers c !! i = Some k →
      caller_step i (rec c) (cpc_of k) = Next (j', q) →
      c' = Cell j' (task c) (<[i := Caller (cop k) q]> (callers c)) →
      cell_move w p c c'
  | move_env f :
      f = with_time true ∨ f = with_ctxDone →
      c' = Cell (rec c) (f (task c)) (callers c) →
      cell_move w p c c'
  | move_enter o nm :
      jobs w !! nm = Some p →
      c' = Cell (rec c) (task c) (callers c ++ [Caller o (entry o)]) →
      cell_move w p c c'.

(** The runner of a record executing [n] statements on its own. *)
Fixpoint runner_alone (n : nat) (b : branch) (js : gmap string nat) (j : job) (r : runner)
  : outcome (gmap string nat * job * runner) :=
  match n with
  | 0 => Next (js, j, r)
  | S n' =>
      match runner_step b js j r with
      | Next (js', j', r') => runner_alone n' b js' j' r'
      | Blocked => Blocked
      | Panic => Panic
      end
  end.

(** A caller executing its statements on its own, until it returns, at
    most [n] of them. *)
Fixpoint caller_alone (n i : nat) (j : job) (q : cpc) : outcome (job * cpc) :=
  match n with
  | 0 => Next (j, q)
  | S n' =>
      match q with
      | Returned _ => Next (j, q)
      | _ =>
          match caller_step i j q with
          | Next (j', q') => caller_alone n' i j' q'
          | Blocked => Blocked
          | Panic => Panic
          end
      end
  end.

(** The time of the timer of [p] comes and its runner executes a statement,
    [n] times: the runner driven by its timer alone. *)
Fixpoint timer_labels (p n : nat) : list label :=
  match n with
  | 0 => []
  | S n' => LTime p :: LRunner p BrTimer :: timer_labels p n'
  end.

(** The same on the record and its runner alone. *)
Fixpoint ticks (n : nat) (js : gmap string nat) (j : job) (r : runner)
  : outcome (gmap string nat * job * runner) :=
  match n with
  | 0 => Next (js, j, r)
  | S n' =>
      match runner_step BrTimer js j (with_time true r) with
      | Next (js', j', r') => ticks n' js' j' r'
      | Blocked => Blocked
      | Panic => Panic
      end
  end.

(** ** Some interleavings and the states they reach *)

(** The cell of record [p]. *)
Definition cell_at (w : world) (p : nat) : cell :=
  default (Cell (new_job false) (new_runner "" AtSelect (λ _, RtTime)) []) (heap w !! p).

(** Job "A" is scheduled and [RunJob("A")] returns nil, the runner not
    having run yet and the time not having come. *)
Definition run_now_trace : list label :=
  [LScheduleJob "A" (Some ()); LEnter OpRunJob "A";
   LCaller 0 0; LCaller 0 0; LCaller 0 0; LCaller 0 0; LCaller 0 0].

Definition run_now_world : world := default New (run run_now_trace New).

(** Then the time comes and the [select] takes the timer case. *)
Definition skipped_world : world :=
  default New (run [LTime 0; LRunner 0 BrTimer; LRunner 0 BrTimer] run_now_world).

(** Or the context is cancelled and the [select] takes that case. *)
Definition parent_done_world : world :=
  default New (run [LParent 0; LRunner 0 BrParent; LRunner 0 BrParent; LRunner 0 BrParent]
                   run_now_world).

(** Job "A" is scheduled and [CancelJob("A")] returns nil, the runner not
    having run yet. *)
Definition cancel_trace : list label :=
  [LScheduleJob "A" (Some ()); LEnter OpCancelJob "A";
   LCaller 0 0; LCaller 0 0; LCaller 0 0].

Definition cancelled_world : world := default New (run cancel_trace New).

(** [CancelJob("A")] has stored [finalised] and is about to send. *)
Definition cancelling_world : world :=
  default New (run [LScheduleJob "A" (Some ()); LEnter OpCancelJob "A";
                    LCaller 0 0; LCaller 0 0] New).

(** The time comes and the runner takes the timer case, up to the call of
    the job function. *)
Definition timer_trace : list label :=
  [LTime 0; LRunner 0 BrTimer; LRunner 0 BrTimer; LRunner 0 BrTimer; LRunner 0 BrTimer].

Definition cancelled_running_world : world := default New (run timer_trace cancelled_world).

Definition running_world : world :=
  default New (run (LScheduleJob "A" (Some ()) :: timer_trace) New).

Definition scheduled_world : world := (ScheduleJob "A" (Some ()) New).1.

(** A [runtimeFunc] that gives two times and then [ErrNoMoreInstances]. *)
Definition rf_twice : RuntimeFunc := λ i, if bool_decide (i < 2) then RtTime else RtNoMore.

Definition periodic_world : world :=
  (SchedulePeriodicJob "B" (Some rf_twice) (Some ()) New).1.

(** ** Definitions for the proofs *)

(** The cell that [ScheduleJob] ([per = false]) and [SchedulePeriodicJob]
    ([per = true]) create. *)
Definition new_cell (per : bool) (nm : string) (rf : RuntimeFunc) : cell :=
  Cell (new_job per) (new_runner nm (if per then AtRuntime else AtSelect) rf) [].

(** A cancel operation has stored [finalised]. *)
Definition cancel_stored (k : caller) : bool :=
  match cpc_of k with
  | CancelAtSend | Returned None => negb (is_run (cop k))
  | _ => false
  end.

(** The runner took the cancel case or the case of the parent context:
    it leaves without calling the job function. *)
Definition quiet_pc (q : rpc) : bool :=
  match q with
  | AtFinalise CancelSignal | Exited CancelSignal
  | AtDelete ParentDone | AtFinalise ParentDone | Exited ParentDone => true
  | _ => false
  end.

(** ** Operations executed on their own *)

(** Caller [i] of record [p] executing its statements on its own, until
    it returns or cannot proceed, at most [n] of them. *)
Fixpoint complete (n p i : nat) (w : world) : world :=
  match n with
  | 0 => w
  | S n' =>
      match exec (LCaller p i) w with
      | Some w' => complete n' p i w'
      | None => w
      end
  end.

(** What the operation returns: [RunJobIfExists] and [CancelJobIfExists]
    drop the error. *)
Definition result_of (o : op) (e : option error) : option error :=
  match o with
  | OpRunJob | OpCancelJob => e
  | _ => None
  end.

(** An operation executed on its own, from its critical section on the
    map to its return: the state it leaves and what it returns; [None]
    when it does not return. *)
Definition call (o : op) (nm : string) (w : world) : option (world * option error) :=
  '(w1, r) ← enter o nm w;
  match r with
  | Done e => Some (w1, e)
  | Found p i =>
      let w2 := complete 5 p i w1 in
      c ← heap w2 !! p;
      k ← callers c !! i;
      match cpc_of k with
      | Returned e => Some (w2, result_of o e)
      | _ => None
      end
  end.

(** strings.HasPrefix(s, prefix) *)
Definition HasPrefix (s prefix : string) : bool := String.prefix prefix s.

(** The loop of [CancelJobs] over the names it has collected: each call of
    [CancelJobIfExists] executed on its own. *)
Fixpoint cancel_each (names : list string) (w : world) : option world :=
  match names with
  | [] => Some w
  | nm :: names' => '(w', _) ← call OpCancelJobIfExists nm w; cancel_each names' w'
  end.

(** The names that the first loop of [CancelJobs] collects, in the order
    in which the map gives them here; Go leaves the order open. *)
Definition matching (prefix : string) (w : world) : list string :=
  filter (λ nm, HasPrefix nm prefix) (ListJobs w).

(** CancelJobs cancels all jobs with the given prefix. *)
Definition CancelJobs (prefix : string) (w : world) : option world :=
  cancel_each (matching prefix w) w.

(** The record after a cancel operation [o] has stored [finalised] and
    sent its signal. *)
Definition cancelled_cell (o : op) (c : cell) : cell :=
  Cell (Job None (active (rec c)) true (periodic (rec c)) (Chan 1 false) (runCh (rec c)))
       (task c) (callers c ++ [Caller o (Returned None)]).

(** ** More invariants and states *)

(** The runner of a periodic job has got a time from [runtimeFunc] and has
    not yet called the job function for it. *)
Definition pending (q : rpc) : nat :=
  match q with AtSelect | AtActiveLoad | AtActiveStore => 1 | _ => 0 end.

(** The runner has neither reached [finaliseJob] nor returned. *)
Definition live_pc (q : rpc) : bool :=
  match q with AtFinalise _ | Exited _ => false | _ => true end.

(** A record that no cancel operation has got hold of and that its runner
    is not about to finalise. *)
Record live (c : cell) : Prop := Live {
  live_finalised : finalised (rec c) = false;
  live_runner : live_pc (pc (task c));
  live_callers : ∀ i k, callers c !! i = Some k → is_run (cop k)
}.

Definition registry_live (w : world) : Prop :=
  ∀ nm p c, jobs w !! nm = Some p → heap w !! p = Some c → live c.

(** A run operation waits, inside its critical section, to send on a run
    channel that is full, while the runner of the record waits for the
    lock in [finaliseJob]. *)
Definition run_blocked (i : nat) (c : cell) : Prop :=
  periodic (rec c) = true ∧ stateLock (rec c) = Some i ∧
  (∃ o, callers c !! i = Some (Caller o RunAtSend)) ∧
  runCh (rec c) = Chan 1 false ∧ ∃ cz, pc (task c) = AtFinalise cz.

(** A [runtimeFunc] that gives one time and then [ErrNoMoreInstances]. *)
Definition rf_once : RuntimeFunc := λ i, if bool_decide (i < 1) then RtTime else RtNoMore.

(** The periodic job "B" takes the timer case and loads [active];
    [RunJob("B")] returns nil; the runner executes the job, resets
    [active] and goes round the loop; a second [RunJob("B")] finds
    [active] unset and reaches its send; [runtimeFunc] returns
    [ErrNoMoreInstances] and the runner reaches [finaliseJob]. *)
Definition deadlock_trace : list label :=
  [LSchedulePeriodicJob "B" (Some rf_once) (Some ());
   LRunner 0 BrTimer; LTime 0; LRunner 0 BrTimer; LRunner 0 BrTimer;
   LEnter OpRunJob "B"; LCaller 0 0; LCaller 0 0; LCaller 0 0; LCaller 0 0; LCaller 0 0;
   LRunner 0 BrTimer; LRunner 0 BrTimer; LRunner 0 BrTimer;
   LEnter OpRunJob "B"; LCaller 0 1; LCaller 0 1; LCaller 0 1; LCaller 0 1;
   LRunner 0 BrTimer; LRunner 0 BrTimer].

Definition deadlock_world : world := default New (run deadlock_trace New).

(** The one-off job "A" takes the timer case and loads [active];
    [CancelJob("A")] removes the name, and [ScheduleJob] registers a new
    job "A"; the runner of the first job is about to delete the name. *)
Definition stale_trace : list label :=
  [LScheduleJob "A" (Some ()); LTime 0; LRunner 0 BrTimer; LRunner 0 BrTimer;
   LEnter OpCancelJob "A"; LScheduleJob "A" (Some ())].

Definition stale_world : world := default New (run stale_trace New).

(** Jobs "ab" (one-off), "ac" (periodic) and "b" (one-off). *)
Definition three_jobs_world : world :=
  default New (run [LScheduleJob "ab" (Some ());
                    LSchedulePeriodicJob "ac" (Some rf_twice) (Some ());
                    LScheduleJob "b" (Some ())] New).

(** The periodic job "B" after its first execution by the timer case. *)
Definition iterated_world : world := default New (run (timer_labels 0 6) periodic_world).

End Scheduler.

Module GetLogs.

Local Open Scope Z_scope.

(** A character of a string as a byte. *)
Definition byte_of (a : Ascii.ascii) : Z := Z.of_N (Ascii.N_of_ascii a).

(** The bytes of a Go string. *)
Definition bytes (s : string) : list Z := byte_of <$> String.list_ascii_of_string s.

(** strings.TrimPrefix(s, prefix) *)
Fixpoint cut_prefix (prefix s : string) : option string :=
  match prefix with
  | EmptyString => Some s
  | String a prefix' =>
      match s with
      | String b s' => if Ascii.eqb a b then cut_prefix prefix' s' else None
      | EmptyString => None
      end
  end.

Definition TrimPrefix (s prefix : string) : string := default s (cut_prefix prefix s).

(** strconv.ParseUint(s, 16, 64) of the Go standard library: the errors
    are the two of [strconv.NumError]. *)
Inductive num_error := ErrSyntax | ErrRange.

Definition maxUint64 : Z := 2 ^ 64 - 1.

(** [maxUint64/16 + 1], the smallest number such that [cutoff*16 > maxUint64] *)
Definition cutoff : Z := maxUint64 / 16 + 1.

(** [c | ('x' - 'X')] *)
Definition lower (c : Z) : Z := Z.lor c 32.

(** The value of the byte as a digit, before the comparison with the base. *)
Definition digit (c : Z) : option Z :=
  if bool_decide (48 ≤ c ∧ c ≤ 57) then Some (c - 48)
  else if bool_decide (97 ≤ lower c ∧ lower c ≤ 122) then Some (lower c - 97 + 10)
  else None.

(** The loop over the bytes; [n] is a [uint64]. *)
Fixpoint parse_loop (cs : list Z) (n : Z) : Z * option num_error :=
  match cs with
  | [] => (n, None)
  | c :: cs' =>
      match digit c with
      | None => (0, Some ErrSyntax)
      | Some d =>
          if bool_decide (16 ≤ d) then (0, Some ErrSyntax)
          else if bool_decide (cutoff ≤ n) then (maxUint64, Some ErrRange)
          else
            let n16 := (n * 16) `mod` 2 ^ 64 in
            let n1 := (n16 + d) `mod` 2 ^ 64 in
            if bool_decide (n1 < n16 ∨ maxUint64 < n1) then (maxUint64, Some ErrRange)
            else parse_loop cs' n1
      end
  end.

Definition ParseUint16 (s : string) : Z * option num_error :=
  if bool_decide (s = EmptyString) then (0, Some ErrSyntax) else parse_loop (bytes s) 0.

(** What [s.post] gives: an error, a nil reader, or a body. *)
Inductive posted := PostFailed | PostNil | PostBody (body : string).

Inductive chain_error :=
  | FailedRequest     (* "failed to request chain ID" *)
  | NoResponse        (* "no response for chain ID" *)
  | FailedDecode      (* "failed to parse newFilter response" *)
  | FailedParse (e : num_error).  (* "failed to parse result" *)

(** The hexadecimal numbers as the specification has them: the value of a
    digit, of a string of digits, and the strings that are a base-16
    number of 64 bits. *)
Definition hex_digit (c : Z) : option Z :=
  if bool_decide (48 ≤ c ∧ c ≤ 57) then Some (c - 48)
  else if bool_decide (97 ≤ c ∧ c ≤ 102) then Some (c - 87)
  else if bool_decide (65 ≤ c ∧ c ≤ 70) then Some (c - 55)
  else None.

Fixpoint hex_value (cs : list Z) (acc : Z) : option Z :=
  match cs with
  | [] => Some acc
  | c :: cs' => d ← hex_digit c; hex_value cs' (acc * 16 + d)
  end.

Definition hex_uint64 (s : string) : option Z :=
  if bool_decide (s = EmptyString) then None
  else v ← hex_value (bytes s) 0; if bool_decide (v < 2 ^ 64) then Some v else None.

Section ChainID.

(** [json.NewDecoder(respBodyReader).Decode(&response)]: the [Result]
    field of the decoded response, or an error. *)
Variable decode : string → option string.

(** chainID fetches the current block number from an Ethereum 1 client.
    [url.Parse("")] does not fail. *)
Definition chainID (resp : posted) : Z * option chain_error :=
  match resp with
  | PostFailed => (0, Some FailedRequest)
  | PostNil => (0, Some NoResponse)
  | PostBody body =>
      match decode body with
      | None => (0, Some FailedDecode)
      | Some result =>
          match ParseUint16 (TrimPrefix result "0x") with
          | (n, None) => (n, None)
          | (_, Some e) => (0, Some (FailedParse e))
          end
      end
  end.

End ChainID.

End GetLogs.

(** * The parameters of the service and [New]

    [services/scheduler/standard/parameters.go] and the function [New] of
    [service.go]. *)

Module Params.

Import Scheduler.

(** zerolog.Level is an int8. *)
Definition Level := Z.

(** A Go error, by its message. *)
Definition error := string.

Section Service.

(** The implementations of [metrics.Service] that a caller can give. *)
Variable Monitor : Type.

(** The values of [metrics.Service] that are not nil:
    [&nullmetrics.Service{}] or a monitor of the caller; nil is [None]. *)
Inductive service :=
  | NullMetrics
  | Given (m : Monitor).

Record parameters := MkParameters {
  logLevel : Level;
  monitor : option service
}.

(** [Parameter] is the interface for service parameters.  [apply] is not
    exported, so the values of the interface are those of the two
    constructors below and nil, which is [None]. *)
Inductive Param :=
  | WithLogLevel (l : Level)             (* WithLogLevel sets the log level for the module. *)
  | WithMonitor (m : option service).    (* WithMonitor sets the monitor for this module. *)

Definition apply (f : Param) (p : parameters) : parameters :=
  match f with
  | WithLogLevel l => MkParameters l (monitor p)
  | WithMonitor m => MkParameters (logLevel p) m
  end.

(** The loop of [parseAndCheckParameters]; [p.apply] on a nil [p] panics.
    The test [params != nil] is true inside the loop. *)
Fixpoint apply_all (params : list (option Param)) (p : parameters) : outcome parameters :=
  match params with
  | [] => Next p
  | None :: _ => Panic
  | Some f :: params' => apply_all params' (apply f p)
  end.

(** parseAndCheckParameters parses and checks parameters to ensure that
    mandatory parameters are present and correct.  [global] is
    [zerolog.GlobalLevel()]. *)
Definition parseAndCheckParameters (global : Level) (params : list (option Param))
  : outcome (parameters * option error) :=
  match apply_all params (MkParameters global None) with
  | Next p =>
      Next (match monitor p with
            | None => MkParameters (logLevel p) (Some NullMetrics)
            | Some _ => p
            end, None)
  | Blocked => Blocked
  | Panic => Panic
  end.

(** [registerMetrics(ctx, parameters.monitor)], which is not part of the
    files at hand: the error it returns, if any. *)
Variable registerMetrics : option service → option error.

(** New creates a new scheduling service.  [log] is the level of the
    module-wide logger before the call, [logger] the level of the logger
    that [zerologger.With()...Logger()] gives; the result is the level of
    the module-wide logger after the call, the service and the error. *)
Definition New (global log logger : Level) (params : list (option Param))
  : outcome (Level * option world * option error) :=
  match parseAndCheckParameters global params with
  | Next (ps, Some err) => Next (log, None, Some ("problem with parameters: " +:+ err))
  | Next (ps, None) =>
      let log' := if bool_decide (logLevel ps ≠ logger) then logLevel ps else logger in
      match registerMetrics (monitor ps) with
      | Some _ => Next (log', None, Some "failed to register metrics")
      | None => Next (log', Some Scheduler.New, None)
      end
  | Blocked => Blocked
  | Panic => Panic
  end.

(** The level that a parameter sets, and the monitor. *)
Definition level_of (f : Param) : option Level :=
  match f with WithLogLevel l => Some l | _ => None end.

Definition monitor_of (f : Param) : option (option service) :=
  match f with WithMonitor m => Some m | _ => None end.

End Service.

Arguments NullMetrics {Monitor}.
Arguments Given {Monitor} m.
Arguments MkParameters {Monitor} logLevel monitor.
Arguments logLevel {Monitor} p.
Arguments monitor {Monitor} p.
Arguments WithLogLevel {Monitor} l.
Arguments WithMonitor {Monitor} m.
Arguments apply {Monitor} f p.
Arguments apply_all {Monitor} params p.
Arguments parseAndCheckParameters {Monitor} global params.
Arguments New {Monitor} registerMetrics global log logger params.
Arguments level_of {Monitor} f.
Arguments monitor_of {Monitor} f.

End Params.

(** * Proofs *)

Import Scheduler.

Ltac crush_step :=
  repeat (case_match; simplify_eq/=); simplify_eq/=.

Ltac one_caller :=
  repeat match goal with
  | H : _ ∨ _ |- _ => destruct H
  | H : ∃ _, _ |- _ => destruct H
  | H : _ ∧ _ |- _ => destruct H
  | H : [_] !! ?i = Some _ |- _ => destruct i; simplify_eq/=
  end.

(** ** Every statement keeps the invariant of its cell *)

Section Steps.

Lemma sends_holds q : sends q → holds q.
Proof. by destruct q. Qed.

Lemma runner_step_frame b js j r js' j' r' :
  runner_step b js j r = Next (js', j', r') →
  periodic j' = periodic j ∧ name r' = name r ∧
  (js' = js ∨ js' = delete (name r) js).
Proof.
  destruct j, r. unfold runner_step, periodic_step, oneoff_step, select, finaliseJob, close.
  intros H. crush_step; auto.
Qed.

Lemma runner_step_ok b js j r cs js' j' r' :
  cell_ok (Cell j r cs) →
  runner_step b js j r = Next (js', j', r') →
  cell_ok (Cell j' r' cs).
Proof.
  intros [Hop Hlock Hsame Hpc Hfin Hsend Hcb Hcg Hoo].
  destruct j as [lk act fin per cc rc], r as [nm q cd tr rf rn sT sS cn el].
  destruct cc as [cb ccl], rc as [rb rcl]. simpl in *.
  unfold runner_step, periodic_step, oneoff_step, select, finaliseJob, close, ready.
  intros H.
  destruct per.
  - crush_step; constructor; simpl; try done; intros.
    all: try (by eauto).
    all: try (by match goal with c : cause |- _ => destruct c end).
    all: try (by exfalso; eapply (Some_ne_None), eq_sym, Hlock; eauto using sends_holds).
    all: try (apply Hcb; lia).
    all: try (by edestruct Hcg as [? ?]; [done..|]; split; [|lia]).
  - specialize (Hoo eq_refl). destruct Hoo as [Hlen Hcnt Htime Harm Hrun Hcan Hin]. simpl in *.
    crush_step; constructor; simpl; try done; intros.
    all: try (by eauto).
    all: try (by exfalso; eapply (Some_ne_None), eq_sym, Hlock; eauto using sends_holds).
    all: try (apply Hcb; lia).
    all: try (by edestruct Hcg as [? ?]; [done..|]; split; [|lia]).
    all: try (constructor; simpl; try done; intros).
    all: try (apply Hcan; lia).
    all: try (apply Hrun; left; by case_bool_decide).
    all: try (apply Harm; [left; by case_bool_decide | done]).
Qed.

Lemma runner_step_no_panic b js j r cs :
  cell_ok (Cell j r cs) → runner_step b js j r ≠ Panic.
Proof.
  intros [Hop Hlock Hsame Hpc Hfin Hsend Hcb Hcg Hoo].
  destruct j as [lk act fin per cc rc], r as [nm q cd tr rf rn sT sS cn el].
  destruct cc as [cb ccl], rc as [rb rcl]. simpl in *.
  unfold runner_step, periodic_step, oneoff_step, select, finaliseJob, close, ready.
  intros H. crush_step.
Qed.

Lemma singleton_lookup {A} (l : list A) i x :
  length l ≤ 1 → l !! i = Some x → l = [x] ∧ i = 0.
Proof.
  destruct l as [|y [|z l]]; simpl; intros Hl Hi; try lia; try done.
  destruct i; simplify_eq/=; done.
Qed.

Lemma caller_step_frame i j q j' q' :
  caller_step i j q = Next (j', q') → periodic j' = periodic j.
Proof.
  destruct j. unfold caller_step, runJob, cancelJob, send. intros H. crush_step; done.
Qed.

Lemma caller_step_ok i j r cs k j' q :
  cell_ok (Cell j r cs) →
  cs !! i = Some k →
  caller_step i j (cpc_of k) = Next (j', q) →
  cell_ok (Cell j' r (<[i := Caller (cop k) q]> cs)).
Proof.
  intros [Hop Hlock Hsame Hpc Hfin Hsend Hcb Hcg Hoo] Hk.
  pose proof (Hop _ _ Hk) as Hopk.
  pose proof (Hlock _ _ Hk) as Hlockk.
  pose proof (Hsend _ _ Hk) as Hsendk.
  destruct k as [o qk].
  destruct j as [lk act fin per cc rc], r as [nm qr cd tr rf rn sT sS cn el].
  destruct cc as [cb ccl], rc as [rb rcl]. simpl in *.
  unfold caller_step, runJob, cancelJob, send. intros H.
  constructor; simpl.
  - intros i' k' [(-> & <- & _)|[Hne Hk']]%list_lookup_insert_Some; [|by eauto].
    crush_step; done.
  - intros i' k' [(-> & <- & _)|[Hne Hk']]%list_lookup_insert_Some Hh.
    + crush_step; try done; auto.
    + specialize (Hlock _ _ Hk' Hh). crush_step; try done.
      all: try (by specialize (Hlockk I); simplify_eq).
  - crush_step; auto.
  - crush_step; auto.
  - crush_step; auto.
  - intros i' k' [(-> & <- & _)|[Hne Hk']]%list_lookup_insert_Some Hh.
    + crush_step; try done; auto.
      all: by destruct (finalised_pc per qr); [destruct Hfin|].
    + specialize (Hsend _ _ Hk' Hh). crush_step; done.
  - pose proof (Hcg _ _ Hk) as Hcgk. simpl in *. crush_step; auto.
    all: try (intros; apply Hcb; lia).
    all: try (by destruct Hcgk).
  - intros i' k' [(-> & <- & _)|[Hne Hk']]%list_lookup_insert_Some Hh; simpl in *.
    + crush_step; try done. split; [done|]. destruct cb; [done|]. exfalso. apply Hcb. lia.
    + destruct (Hcg _ _ Hk' Hh) as [Hf ->].
      assert (lk = Some i') as -> by (apply (Hlock _ _ Hk'); by rewrite Hh).
      crush_step; try done.
      all: by specialize (Hlockk I); simplify_eq.
  - intros Hper. rewrite (caller_step_frame _ _ _ _ _ H) in Hper. simpl in Hper. subst per.
    specialize (Hoo eq_refl).
    destruct Hoo as [Hlen Hcnt Htime Harm Hrun Hcan Hin]. simpl in *.
    destruct (singleton_lookup _ _ _ Hlen Hk) as [-> ->]. simpl in *.
    constructor; simpl.
    all: intros; crush_step; try done; auto.
    all: one_caller.
    all: try done.
    all: try (apply Harm; [|done]; first [left; lia | by right; eexists 0, _]).
    all: try (by destruct Hrun as (? & ? & ?); [first [left; lia | by right]|]; simplify_eq).
    all: try (by eexists).
    all: try (by unfold signalled in *; destruct o).
    all: try (by eauto).
Qed.

Lemma caller_step_no_panic i j r cs k :
  cell_ok (Cell j r cs) → cs !! i = Some k → caller_step i j (cpc_of k) ≠ Panic.
Proof.
  intros [Hop Hlock Hsame Hpc Hfin Hsend Hcb Hcg Hoo] Hk.
  pose proof (Hsend _ _ Hk) as Hsendk.
  destruct k as [o qk], j as [lk act fin per [cb ccl] [rb rcl]]. simpl in *.
  unfold caller_step, runJob, cancelJob, send. intros H. crush_step; by specialize (Hsendk I).
Qed.

Lemma env_step_ok f j r cs :
  f = with_time true ∨ f = with_ctxDone →
  cell_ok (Cell j r cs) → cell_ok (Cell j (f r) cs).
Proof.
  intros Hf [Hop Hlock Hsame Hpc Hfin Hsend Hcb Hcg Hoo].
  destruct r. constructor; simpl in *; destruct Hf as [-> | ->]; simpl; try done.
  all: intros Hper; destruct (Hoo Hper); constructor; simpl in *; done.
Qed.

Lemma enter_cell_ok o j r cs :
  cell_ok (Cell j r cs) →
  (periodic j = false → cs = []) →
  cell_ok (Cell j r (cs ++ [Caller o (entry o)])).
Proof.
  intros [Hop Hlock Hsame Hpc Hfin Hsend Hcb Hcg Hoo] Hnone.
  constructor; simpl in *; try done.
  - intros i k [[_ Hk]|[_ <-]]%lookup_snoc_Some; [by eauto|]. by destruct o.
  - intros i k [[_ Hk]|[_ <-]]%lookup_snoc_Some; [by eauto|]. by destruct o.
  - intros i k [[_ Hk]|[_ <-]]%lookup_snoc_Some; [by eauto|]. by destruct o.
  - intros i k [[_ Hk]|[_ <-]]%lookup_snoc_Some; [by eauto|]. by destruct o.
  - intros Hper. specialize (Hoo Hper). rewrite (Hnone Hper) in Hoo |- *.
    destruct Hoo as [Hlen Hcnt Htime Harm Hrun Hcan Hin]. simpl in *.
    constructor; simpl; try done; auto.
    + intros [Hb|(i & k & Hk & Hs)]; [by auto|]. destruct i; simplify_eq/=. by destruct o.
    + intros H. by destruct (Hrun H) as (? & ? & ?).
Qed.

Lemma new_cell_ok (per : bool) nm q rf :
  q = (if per then AtRuntime else AtSelect) →
  cell_ok (Cell (new_job per) (new_runner nm q rf) []).
Proof.
  intros ->. constructor; simpl; try done; try lia.
  - by destruct per.
  - intros ->. constructor; simpl; try done; try lia.
    all: intros [?|H]; [lia|]; try done; by destruct H as (? & ? & ? & _).
Qed.

End Steps.

(** ** The invariant holds in every reachable state *)

Section Invariant.

Lemma inv_New : inv New.
Proof. constructor; simpl; [done|constructor|]. intros nm p H. done. Qed.

Lemma inv_schedule w nm (per : bool) q rf :
  inv w → jobs w !! nm = None →
  q = (if per then AtRuntime else AtSelect) →
  inv (World (<[nm := length (heap w)]> (jobs w))
             (heap w ++ [Cell (new_job per) (new_runner nm q rf) []])
             (S (scheduled w)) (panicked w)).
Proof.
  intros [Hp Hc Hr] Hnm Hq. constructor; simpl; [done| |].
  - apply Forall_app. split; [done|]. constructor; [|constructor]. by apply new_cell_ok.
  - intros nm' p. simpl. destruct (decide (nm = nm')) as [<-|Hne].
    + rewrite lookup_insert_eq. intros [= <-].
      eexists. split; [by rewrite lookup_app_r, Nat.sub_diag|]. simpl. split; [done|].
      intros ->. by subst q.
    + rewrite lookup_insert_ne by done. intros H.
      destruct (Hr _ _ H) as (c & Hc' & Hrest). exists c. split; [|done].
      by apply lookup_app_l_Some.
Qed.

Lemma runner_step_pristine b js j r js' j' r' :
  cell_ok (Cell j r []) →
  periodic j = false → pristine_pc (pc r) → active j = false →
  runner_step b js j r = Next (js', j', r') →
  js' = delete (name r) js ∨ (js' = js ∧ pristine_pc (pc r') ∧ active j' = false).
Proof.
  intros [Hop Hlock Hsame Hpc Hfin Hsend Hcb Hcg Hoo] Hper Hq Hact.
  specialize (Hoo Hper). destruct Hoo as [Hlen Hcnt Htime Harm Hrun Hcan Hin].
  destruct j as [lk act fin per [cb ccl] [rb rcl]], r as [nm q cd tr rf rn sT sS cn el].
  simpl in *. subst per act.
  unfold runner_step, oneoff_step, select, ready. simpl. intros H.
  crush_step; auto; try done.
  - case_bool_decide; [|done]. by destruct Hcan.
  - case_bool_decide; [|done]. destruct Hrun as (? & ? & ?); [by left|done].
Qed.

Lemma registry_ok_update w p c c' js' :
  registry_ok w →
  heap w !! p = Some c →
  name (task c') = name (task c) →
  periodic (rec c') = periodic (rec c) →
  js' = jobs w ∨ js' = delete (name (task c)) (jobs w) →
  (periodic (rec c) = false → callers c = [] → pristine_pc (pc (task c)) → active (rec c) = false →
   js' = delete (name (task c)) (jobs w) ∨
   callers c' = [] ∧ pristine_pc (pc (task c')) ∧ active (rec c') = false) →
  registry_ok (World js' (<[p := c']> (heap w)) (scheduled w) (panicked w)).
Proof.
  intros Hr Hc Hname Hper Hjs Hkeep nm p' Hnm. simpl in *.
  assert (jobs w !! nm = Some p') as Hold.
  { destruct Hjs as [->| ->]; [done|]. by apply lookup_delete_Some in Hnm as [_ ?]. }
  destruct (Hr _ _ Hold) as (c0 & Hc0 & Hn0 & Hp0).
  destruct (decide (p' = p)) as [->|Hne].
  - rewrite Hc in Hc0. simplify_eq. exists c'. split.
    { apply list_lookup_insert_eq. by eapply lookup_lt_Some. }
    split; [done|]. rewrite Hper. intros Hone. destruct (Hp0 Hone) as (? & ? & ?).
    destruct Hkeep as [->|?]; [done..| |done].
    by rewrite lookup_delete_eq in Hnm.
  - exists c0. split; [|done]. by rewrite list_lookup_insert_ne.
Qed.

Lemma inv_step l w w' : inv w → exec l w = Some w' → inv w'.
Proof.
  intros Hinv. pose proof Hinv as [Hp Hc Hr]. unfold exec. rewrite Hp.
  destruct l as [nm f|nm rf f|o nm|p i|p b|p|p]; intros H.
  - simplify_eq. unfold ScheduleJob. crush_step; try done. by apply (inv_schedule _ _ false).
  - simplify_eq. unfold SchedulePeriodicJob. crush_step; try done. by apply (inv_schedule _ _ true).
  - unfold enter in H. destruct (jobs w !! nm) as [p|] eqn:Hnm; simplify_eq/=; [|done].
    destruct (Hr _ _ Hnm) as (c & Hcp & Hname & Hone). rewrite Hcp in H. simplify_eq/=.
    pose proof (Forall_lookup_1 _ _ _ _ Hc Hcp) as Hok. destruct c as [j r cs]. simpl in *.
    constructor; simpl; [done| |].
    + apply Forall_insert; [done|]. apply enter_cell_ok; [done|]. intros ?. by apply Hone.
    + eapply (registry_ok_update w); [done|done|done|done|..]; simpl.
      * destruct (is_run o && periodic j); auto.
      * intros Hper. rewrite Hper, andb_false_r. by left.
  - unfold exec_caller in H. destruct (heap w !! p) as [[j r cs]|] eqn:Hcp; simplify_eq/=.
    destruct (cs !! i) as [k|] eqn:Hk; simplify_eq/=.
    pose proof (Forall_lookup_1 _ _ _ _ Hc Hcp) as Hok.
    destruct (caller_step i j (cpc_of k)) as [[j' q]| |] eqn:Hs; simplify_eq/=.
    + constructor; simpl; [done| |].
      * apply Forall_insert; [done|]. by eapply caller_step_ok.
      * eapply (registry_ok_update w); [done|done|done| | |]; simpl.
        { by eapply caller_step_frame. }
        { by left. }
        intros _ ->. done.
    + by destruct (caller_step_no_panic _ _ _ _ _ Hok Hk).
  - unfold exec_runner in H. destruct (heap w !! p) as [[j r cs]|] eqn:Hcp; simplify_eq/=.
    pose proof (Forall_lookup_1 _ _ _ _ Hc Hcp) as Hok.
    destruct (runner_step b (jobs w) j r) as [[[js' j'] r']| |] eqn:Hs; simplify_eq/=.
    + destruct (runner_step_frame _ _ _ _ _ _ _ Hs) as (Hper & Hname & Hjs).
      constructor; simpl; [done| |].
      * apply Forall_insert; [done|]. by eapply runner_step_ok.
      * eapply (registry_ok_update w); [done|done|done|done|done| ]; simpl.
        intros Hone -> Hq Hact.
        destruct (runner_step_pristine _ _ _ _ _ _ _ Hok Hone Hq Hact Hs) as [Hd|(_ & ? & ?)]; auto.
    + by destruct (runner_step_no_panic b (jobs w) _ _ _ Hok).
  - unfold exec_env in H. destruct (heap w !! p) as [[j r cs]|] eqn:Hcp; simplify_eq/=.
    pose proof (Forall_lookup_1 _ _ _ _ Hc Hcp) as Hok.
    constructor; simpl; [done| |].
    + apply Forall_insert; [done|]. apply env_step_ok; auto.
    + eapply (registry_ok_update w); [done|done| | | |]; simpl; [by destruct r|by destruct r|by left|].
      intros. right. by destruct r.
  - unfold exec_env in H. destruct (heap w !! p) as [[j r cs]|] eqn:Hcp; simplify_eq/=.
    pose proof (Forall_lookup_1 _ _ _ _ Hc Hcp) as Hok.
    constructor; simpl; [done| |].
    + apply Forall_insert; [done|]. apply env_step_ok; auto.
    + eapply (registry_ok_update w); [done|done| | | |]; simpl; [by destruct r|by destruct r|by left|].
      intros. right. by destruct r.
Qed.

Lemma inv_run ls w w' : inv w → run ls w = Some w' → inv w'.
Proof.
  revert w. induction ls as [|l ls IH]; intros w Hinv H; simplify_eq/=; [done|].
  destruct (exec l w) as [w1|] eqn:Hl; simplify_eq/=.
  eapply IH; [|done]. by eapply inv_step.
Qed.

Lemma reachable_inv w : reachable w → inv w.
Proof. intros [ls H]. eapply inv_run; [apply inv_New|done]. Qed.

Lemma reachable_run ls w w' : reachable w → run ls w = Some w' → reachable w'.
Proof.
  intros [ls0 H0] H. exists (ls0 ++ ls). revert H0 H. generalize New.
  induction ls0 as [|l ls0 IH]; intros w0 H0 H; simplify_eq/=; [done|].
  destruct (exec l w0) as [w1|]; simplify_eq/=. by eapply IH.
Qed.

End Invariant.

(** ** One cell along an interleaving *)

Section Moves.

Lemma exec_cell l w w' p c :
  inv w → exec l w = Some w' → heap w !! p = Some c →
  ∃ c', heap w' !! p = Some c' ∧ cell_move w p c c'.
Proof.
  intros Hinv. pose proof Hinv as [Hp Hc Hr]. unfold exec. rewrite Hp.
  destruct l as [nm f|nm rf f|o nm|p' i|p' b|p'|p']; intros H Hcp.
  - simplify_eq. exists c. split; [|by constructor].
    unfold ScheduleJob. crush_step; try done. by apply lookup_app_l_Some.
  - simplify_eq. exists c. split; [|by constructor].
    unfold SchedulePeriodicJob. crush_step; try done. by apply lookup_app_l_Some.
  - unfold enter in H. destruct (jobs w !! nm) as [p'|] eqn:Hnm; simplify_eq/=.
    2:{ exists c. split; [done|by constructor]. }
    destruct (heap w !! p') as [c0|] eqn:Hc0; simplify_eq/=.
    destruct (decide (p = p')) as [->|Hne].
    + simplify_eq. eexists. split.
      { apply list_lookup_insert_eq. by eapply lookup_lt_Some. }
      by eapply move_enter.
    + exists c. split; [by rewrite list_lookup_insert_ne|by constructor].
  - unfold exec_caller in H. destruct (heap w !! p') as [[j r cs]|] eqn:Hc0; simplify_eq/=.
    destruct (cs !! i) as [k|] eqn:Hk; simplify_eq/=.
    pose proof (Forall_lookup_1 _ _ _ _ Hc Hc0) as Hok.
    destruct (caller_step i j (cpc_of k)) as [[j' q]| |] eqn:Hs; simplify_eq/=.
    2:{ by destruct (caller_step_no_panic _ _ _ _ _ Hok Hk). }
    destruct (decide (p = p')) as [->|Hne].
    + simplify_eq. eexists. split.
      { apply list_lookup_insert_eq. by eapply lookup_lt_Some. }
      by eapply move_caller.
    + exists c. split; [by rewrite list_lookup_insert_ne|by constructor].
  - unfold exec_runner in H. destruct (heap w !! p') as [[j r cs]|] eqn:Hc0; simplify_eq/=.
    pose proof (Forall_lookup_1 _ _ _ _ Hc Hc0) as Hok.
    destruct (runner_step b (jobs w) j r) as [[[js' j'] r']| |] eqn:Hs; simplify_eq/=.
    2:{ by destruct (runner_step_no_panic b (jobs w) _ _ _ Hok). }
    destruct (decide (p = p')) as [->|Hne].
    + simplify_eq. eexists. split.
      { apply list_lookup_insert_eq. by eapply lookup_lt_Some. }
      eapply (move_runner _ _ _ _ b js'); simpl; [exact Hs|done].
    + exists c. split; [by rewrite list_lookup_insert_ne|by constructor].
  - unfold exec_env in H. destruct (heap w !! p') as [[j r cs]|] eqn:Hc0; simplify_eq/=.
    destruct (decide (p = p')) as [->|Hne].
    + simplify_eq. eexists. split.
      { apply list_lookup_insert_eq. by eapply lookup_lt_Some. }
      eapply (move_env _ _ _ _ (with_time true)); [by left|done].
    + exists c. split; [by rewrite list_lookup_insert_ne|by constructor].
  - unfold exec_env in H. destruct (heap w !! p') as [[j r cs]|] eqn:Hc0; simplify_eq/=.
    destruct (decide (p = p')) as [->|Hne].
    + simplify_eq. eexists. split.
      { apply list_lookup_insert_eq. by eapply lookup_lt_Some. }
      eapply (move_env _ _ _ _ with_ctxDone); [by right|done].
    + exists c. split; [by rewrite list_lookup_insert_ne|by constructor].
Qed.

(** A property of one cell that every move of the cell keeps is kept along
    every interleaving. *)
Lemma run_cell_invariant (P : cell → Prop) p :
  (∀ w c c', inv w → heap w !! p = Some c → cell_ok c → cell_move w p c c' → P c → P c') →
  ∀ ls w w' c, inv w → run ls w = Some w' → heap w !! p = Some c → P c →
  ∃ c', heap w' !! p = Some c' ∧ P c'.
Proof.
  intros Hstep ls. induction ls as [|l ls IH]; intros w w' c Hinv H Hc HP; simplify_eq/=.
  { eauto. }
  destruct (exec l w) as [w1|] eqn:Hl; simplify_eq/=.
  destruct (exec_cell _ _ _ _ _ Hinv Hl Hc) as (c1 & Hc1 & Hm).
  eapply (IH w1); [by eapply inv_step|done|done|].
  eapply Hstep; [done..| |done|done].
  destruct Hinv as [_ Hcs _]. by eapply Forall_lookup_1.
Qed.

Lemma cell_move_frame w p c c' :
  cell_move w p c c' →
  periodic (rec c') = periodic (rec c) ∧ name (task c') = name (task c).
Proof.
  intros [->|b js' Hs Hcs|i k j' q Hk Hs ->|f [-> | ->] ->|o nm Hnm ->]; simpl; try done.
  - by destruct (runner_step_frame _ _ _ _ _ _ _ Hs) as (? & ? & _).
  - split; [|done]. by eapply caller_step_frame.
Qed.

Lemma returned_stays w p c c' i k e :
  cell_move w p c c' →
  callers c !! i = Some k → cpc_of k = Returned e →
  callers c' !! i = Some k.
Proof.
  intros [->|b js' Hs Hcs|i' k' j' q Hk' Hs ->|f _ ->|o nm Hnm ->] Hk He; simpl; try done.
  - by rewrite Hcs.
  - destruct (decide (i' = i)) as [->|Hne].
    + simplify_eq. rewrite He in Hs. done.
    + by rewrite list_lookup_insert_ne.
  - by apply lookup_app_l_Some.
Qed.

Lemma succeeded_signalled k : succeeded true k → signalled k.
Proof.
  unfold succeeded, signalled. destruct (cpc_of k) as [| | | | | | | |[e|]]; try done.
  intros H. apply bool_decide_unpack in H. by rewrite H.
Qed.

Lemma succeeded_returned b k : succeeded b k → cpc_of k = Returned None.
Proof. unfold succeeded. by destruct (cpc_of k) as [| | | | | | | |[e|]]. Qed.

(** The timer case cannot execute a one-off job once a run operation has
    returned without error while the runner was not on the timer path. *)
Lemma armed_move w p c c' :
  cell_ok c → cell_move w p c c' →
  periodic (rec c) = false →
  (∃ i k, callers c !! i = Some k ∧ succeeded true k) →
  timer_executes (pc (task c)) = false →
  timer_executes (pc (task c')) = false.
Proof.
  intros Hok Hm Hper (i & k & Hk & Hsk) Ht.
  destruct Hm as [->|b js' Hs Hcs|i' k' j' q Hk' Hs ->|f [-> | ->] ->|o nm Hnm ->];
    simpl; try done; try (by destruct (task c)).
  destruct (ok_oneoff _ Hok Hper) as [_ Hcnt _ Harm _ _ _].
  assert (waiting (pc (task c)) → active (rec c)) as Hact.
  { apply Harm. right. exists i, k. eauto using succeeded_signalled. }
  clear Harm Hok Hk Hsk.
  destruct c as [j r cs], c' as [j' r' cs']. simpl in *.
  destruct j as [lk act fin per cc rc], r as [nm q cd tr rf rn sT sS cn el]. simpl in *.
  subst per. unfold runner_step, oneoff_step, select, finaliseJob in Hs. simpl in Hs.
  crush_step; try done; by specialize (Hact I).
Qed.

Lemma run_armed ls w w' p c i k :
  inv w → run ls w = Some w' → heap w !! p = Some c →
  periodic (rec c) = false →
  callers c !! i = Some k → succeeded true k →
  timer_executes (pc (task c)) = false →
  ∃ c', heap w' !! p = Some c' ∧ startedOnTimer (task c') = 0.
Proof.
  intros Hinv Hrun Hc Hper Hk Hsk Ht.
  destruct (run_cell_invariant
    (λ c, periodic (rec c) = false ∧ callers c !! i = Some k ∧
          timer_executes (pc (task c)) = false) p) with (ls := ls) (w := w) (w' := w') (c := c)
    as (c' & Hc' & Hper' & Hk' & Ht'); try done.
  - intros w0 c0 c1 Hinv0 Hc0 Hok Hm (Hp0 & Hk0 & Ht0). split_and!.
    + destruct (cell_move_frame _ _ _ _ Hm) as [-> _]. done.
    + eapply returned_stays; eauto using succeeded_returned.
    + eapply armed_move; eauto.
  - exists c'. split; [done|].
    pose proof (inv_run _ _ _ Hinv Hrun) as [_ Hcs _].
    pose proof (Forall_lookup_1 _ _ _ _ Hcs Hc') as Hok.
    destruct (ok_oneoff _ Hok Hper') as [_ Hcnt _ _ _ _ _].
    destruct (pc (task c')) as [| |[]|[]| | |[]|[]|[]]; simplify_eq/=; done.
Qed.

Lemma run_returned ls w w' p c i k e :
  inv w → run ls w = Some w' → heap w !! p = Some c →
  callers c !! i = Some k → cpc_of k = Returned e →
  ∃ c', heap w' !! p = Some c' ∧ callers c' !! i = Some k ∧
        periodic (rec c') = periodic (rec c).
Proof.
  intros Hinv Hrun Hc Hk He.
  destruct (run_cell_invariant
    (λ c0, callers c0 !! i = Some k ∧ periodic (rec c0) = periodic (rec c)) p)
    with (ls := ls) (w := w) (w' := w') (c := c) as (c' & Hc' & Hk' & Hp'); try done.
  - intros w0 c0 c1 _ _ _ Hm [Hk0 Hp0]. split.
    + by eapply returned_stays.
    + destruct (cell_move_frame _ _ _ _ Hm) as [-> _]. done.
  - eauto.
Qed.

Lemma run_exited ls w w' p c cz :
  inv w → run ls w = Some w' → heap w !! p = Some c →
  pc (task c) = Exited cz →
  ∃ c', heap w' !! p = Some c' ∧ pc (task c') = Exited cz ∧
        startedOnTimer (task c') = startedOnTimer (task c) ∧
        startedOnSignal (task c') = startedOnSignal (task c) ∧
        cancelled (task c') = cancelled (task c) ∧
        periodic (rec c') = periodic (rec c).
Proof.
  intros Hinv Hrun Hc Hpc.
  apply (run_cell_invariant
    (λ c0, pc (task c0) = Exited cz ∧
           startedOnTimer (task c0) = startedOnTimer (task c) ∧
           startedOnSignal (task c0) = startedOnSignal (task c) ∧
           cancelled (task c0) = cancelled (task c) ∧
           periodic (rec c0) = periodic (rec c)) p) with (ls := ls) (w := w) (c := c);
    try done.
  intros w0 c0 c1 _ _ _ Hm (Hq & H1 & H2 & H3 & H4).
  destruct (cell_move_frame _ _ _ _ Hm) as [Hfr _]. rewrite Hfr. clear Hfr.
  destruct Hm as [->|b js' Hs Hcs|i' k' j' q Hk' Hs ->|f [-> | ->] ->|o nm Hnm ->];
    simpl; try done; try (by destruct (task c0)).
  unfold runner_step, periodic_step, oneoff_step in Hs. rewrite Hq in Hs.
  by destruct (periodic (rec c0)).
Qed.

Lemma cancel_observed_move w p c c' :
  cell_ok c → cell_move w p c c' →
  periodic (rec c) = false →
  pc (task c) = AtFinalise CancelSignal ∨ pc (task c) = Exited CancelSignal →
  pc (task c') = AtFinalise CancelSignal ∨ pc (task c') = Exited CancelSignal.
Proof.
  intros Hok Hm Hper Hq.
  destruct Hm as [->|b js' Hs Hcs|i' k' j' q Hk' Hs ->|f [-> | ->] ->|o nm Hnm ->];
    simpl; try done; try (by destruct (task c)).
  destruct c as [j r cs], c' as [j' r' cs']. simpl in *.
  destruct j as [lk act fin per cc rc], r as [nm q cd tr rf rn sT sS cn el]. simpl in *.
  subst per. unfold runner_step, oneoff_step, select, finaliseJob in Hs. simpl in Hs.
  destruct Hq as [-> | ->]; crush_step; auto.
Qed.

Lemma oneoff_counts_cases q sT sS cn :
  oneoff_counts q = Some (sT, sS, cn) →
  sT + sS + cn ≤ 1 ∧
  (on_run_path q → sS = 1 ∧ sT = 0) ∧
  (on_run_path q = false → sS = 0) ∧
  (timer_executes q = false → sT = 0) ∧
  (q = AtFinalise CancelSignal ∨ q = Exited CancelSignal → sT = 0 ∧ sS = 0).
Proof.
  destruct q as [| |[]|[]| | |[]|[]|[]]; intros; simplify_eq/=; split_and!; try done; try lia.
  all: by intros [|].
Qed.

Lemma timer_executes_on_timer_path q : timer_executes q → on_timer_path q.
Proof. by destruct q as [| |[]|[]| | |[]|[]|[]]. Qed.

Lemma run_cancel_observed ls w w' p c :
  inv w → run ls w = Some w' → heap w !! p = Some c →
  periodic (rec c) = false →
  pc (task c) = AtFinalise CancelSignal ∨ pc (task c) = Exited CancelSignal →
  ∃ c', heap w' !! p = Some c' ∧
        startedOnTimer (task c') = 0 ∧ startedOnSignal (task c') = 0.
Proof.
  intros Hinv Hrun Hc Hper Hq.
  destruct (run_cell_invariant
    (λ c0, periodic (rec c0) = false ∧
           (pc (task c0) = AtFinalise CancelSignal ∨ pc (task c0) = Exited CancelSignal)) p)
    with (ls := ls) (w := w) (w' := w') (c := c) as (c' & Hc' & Hper' & Hq'); try done.
  - intros w0 c0 c1 _ _ Hok Hm [Hp0 Hq0]. split.
    + destruct (cell_move_frame _ _ _ _ Hm) as [-> _]. done.
    + by eapply cancel_observed_move.
  - exists c'. split; [done|].
    pose proof (inv_run _ _ _ Hinv Hrun) as [_ Hcs _].
    pose proof (Forall_lookup_1 _ _ _ _ Hcs Hc') as Hok.
    destruct (ok_oneoff _ Hok Hper') as [_ Hcnt _ _ _ _ _].
    by apply oneoff_counts_cases in Hcnt as (_ & _ & _ & _ & ?); auto.
Qed.

(** The record of a one-off job whose runner is past the program points of
    [pristine_pc], or that a caller has got hold of, is not in the map. *)
Lemma unregistered w p c :
  inv w → heap w !! p = Some c → periodic (rec c) = false →
  callers c ≠ [] ∨ pristine_pc (pc (task c)) = false ∨ active (rec c) = true →
  ∀ nm, jobs w !! nm ≠ Some p.
Proof.
  intros [_ _ Hr] Hc Hper H nm Hnm.
  destruct (Hr _ _ Hnm) as (c0 & Hc0 & _ & Hp). simplify_eq.
  destruct (Hp Hper) as (Hcs & Hq & Hact).
  destruct H as [?|[?|?]]; [done| |congruence].
  by destruct (pristine_pc (pc (task c))).
Qed.

(** ** Invariants of the cells of the reachable states *)

Lemma exec_heap_length l w w' :
  exec l w = Some w' →
  length (heap w') = length (heap w) ∨
  ∃ per nm rf, heap w' = heap w ++ [new_cell per nm rf].
Proof.
  unfold exec. destruct (panicked w); [done|].
  destruct l as [nm f|nm rf f|o nm|p i|p b|p|p]; intros H; simplify_eq/=.
  - unfold ScheduleJob. repeat case_match; simpl; auto. right.
    by exists false, nm, (λ _, RtTime).
  - unfold SchedulePeriodicJob. repeat case_match; simpl; auto. right.
    by eexists true, nm, _.
  - left. unfold enter in H. destruct (jobs w !! nm); simplify_eq/=; [|done].
    destruct (heap w !! _); simplify_eq/=. by rewrite length_insert.
  - left. unfold exec_caller in H. destruct (heap w !! p) as [c|]; simplify_eq/=.
    destruct (callers c !! i) as [k|]; simplify_eq/=.
    destruct (caller_step i (rec c) (cpc_of k)) as [[??]| |]; simplify_eq/=; [|done].
    by rewrite length_insert.
  - left. unfold exec_runner in H. destruct (heap w !! p) as [c|]; simplify_eq/=.
    destruct (runner_step b (jobs w) (rec c) (task c)) as [[[??]?]| |]; simplify_eq/=; [|done].
    by rewrite length_insert.
  - left. unfold exec_env in H. destruct (heap w !! p); simplify_eq/=. by rewrite length_insert.
  - left. unfold exec_env in H. destruct (heap w !! p); simplify_eq/=. by rewrite length_insert.
Qed.

(** Where a cell of the state after a step comes from. *)
Lemma exec_cell_back l w w' p c' :
  inv w → exec l w = Some w' → heap w' !! p = Some c' →
  (∃ c, heap w !! p = Some c ∧ cell_move w p c c') ∨
  (heap w !! p = None ∧ ∃ per nm rf, c' = new_cell per nm rf).
Proof.
  intros Hinv Hl Hc'. destruct (heap w !! p) as [c|] eqn:Hc.
  - left. exists c. split; [done|].
    destruct (exec_cell _ _ _ _ _ Hinv Hl Hc) as (c1 & Hc1 & Hm). by simplify_eq.
  - right. split; [done|]. apply lookup_ge_None in Hc.
    destruct (exec_heap_length _ _ _ Hl) as [Hlen|(per & nm & rf & Hh)].
    + apply lookup_lt_Some in Hc'. lia.
    + rewrite Hh in Hc'. apply lookup_app_Some in Hc' as [Hc'|[_ Hc']].
      { apply lookup_lt_Some in Hc'. lia. }
      apply list_lookup_singleton_Some in Hc' as [_ <-]. eauto.
Qed.

Lemma run_snoc ls l w w' :
  run (ls ++ [l]) w = Some w' ↔ ∃ w0, run ls w = Some w0 ∧ exec l w0 = Some w'.
Proof.
  revert w. induction ls as [|l0 ls IH]; intros w; simpl.
  - destruct (exec l w) as [w1|] eqn:E; simpl; split.
    + intros ?. exists w. by simplify_eq.
    + intros (w0 & ? & ?). simplify_eq. congruence.
    + done.
    + intros (w0 & ? & ?). by simplify_eq.
  - destruct (exec l0 w) as [w1|]; simpl; [apply IH|].
    split; [done|]. by intros (w0 & ? & ?).
Qed.

(** A property of cells that new cells have and that every move of a cell
    keeps holds of every cell of every reachable state. *)
Lemma reachable_cell_invariant (P : cell → Prop) :
  (∀ per nm rf, P (new_cell per nm rf)) →
  (∀ w p c c', reachable w → heap w !! p = Some c → cell_ok c → cell_move w p c c' → P c → P c') →
  ∀ w p c, reachable w → heap w !! p = Some c → P c.
Proof.
  intros Hnew Hstep w p c [ls Hrun]. revert w p c Hrun.
  induction ls as [|l ls IH] using rev_ind; intros w p c Hrun Hc.
  { simpl in Hrun. by simplify_eq. }
  apply run_snoc in Hrun as (w0 & Hrun & Hl).
  assert (reachable w0) as Hr0 by (by exists ls).
  pose proof (reachable_inv _ Hr0) as Hinv.
  destruct (exec_cell_back _ _ _ _ _ Hinv Hl Hc) as [(c0 & Hc0 & Hm)|(_ & per & nm & rf & ->)];
    [|by apply Hnew].
  eapply Hstep; [done..| |done|by eauto].
  destruct Hinv as [_ Hcs _]. by eapply Forall_lookup_1.
Qed.

(** [finalised] is set only by [finaliseJob] and by a cancel operation. *)
Lemma finalised_by w p c :
  reachable w → heap w !! p = Some c → finalised (rec c) →
  finalised_pc (periodic (rec c)) (pc (task c)) ∨
  ∃ i k, callers c !! i = Some k ∧ cancel_stored k.
Proof.
  intros Hr Hc.
  apply (reachable_cell_invariant
    (λ c, finalised (rec c) →
          finalised_pc (periodic (rec c)) (pc (task c)) ∨
          ∃ i k, callers c !! i = Some k ∧ cancel_stored k))
    with (w := w) (p := p); [done| |done..].
  clear. intros w p c c' _ _ Hok Hm HP.
  destruct Hm as [->|b js' Hs Hcs|i0 k0 j' q Hk0 Hs ->|f [-> | ->] ->|o nm Hnm ->]; simpl; auto.
  - rewrite Hcs. pose proof (ok_oneoff _ Hok) as Hoo.
    destruct c as [j r cs], c' as [j' r' cs']. simpl in *.
    destruct j as [lk act fin per [cb ccl] [rb rcl]], r as [nm q cd tr rf rn sT sS cn el].
    simpl in *.
    unfold runner_step, periodic_step, oneoff_step, select, finaliseJob, close in Hs.
    destruct per.
    + crush_step; auto.
    + destruct (Hoo eq_refl) as [_ Hcnt _ _ _ _ _]. simpl in *. crush_step; auto.
  - pose proof (ok_op _ Hok _ _ Hk0) as Hop0.
    destruct c as [j r cs]. simpl in *.
    destruct j as [lk act fin per cc rc], k0 as [o0 q0]. simpl in *.
    assert (fin → finalised_pc per (pc r) ∨
            ∃ i k, <[i0:=Caller o0 q]> cs !! i = Some k ∧ cancel_stored k) as Hkeep.
    { intros Hf. destruct (HP Hf) as [?|(i & k & Hk & Hck)]; [by left|]. right.
      destruct (decide (i = i0)) as [->|Hne].
      - simplify_eq. exists i0. eexists. split; [apply list_lookup_insert_eq; by eapply lookup_lt_Some|].
        unfold cancel_stored in *. simpl in *.
        unfold caller_step, runJob, cancelJob, send in Hs. crush_step; done.
      - exists i, k. by rewrite list_lookup_insert_ne. }
    unfold caller_step, runJob, cancelJob, send in Hs. crush_step; auto.
    intros _. right. exists i0. eexists.
    split; [apply list_lookup_insert_eq; by eapply lookup_lt_Some|].
    unfold cancel_stored. simpl. by destruct o0.
  - intros Hf. destruct (HP Hf) as [?|(i & k & Hk & Hck)]; [by left|]. right.
    exists i, k. split; [|done]. by apply lookup_app_l_Some.
Qed.

(** The only caller of a one-off record. *)
Lemma oneoff_only_caller c i k i' k' :
  cell_ok c → periodic (rec c) = false →
  callers c !! i = Some k → callers c !! i' = Some k' → i' = i ∧ k' = k.
Proof.
  intros Hok Hper Hk Hk'. destruct (ok_oneoff _ Hok Hper) as [Hlen _ _ _ _ _ _].
  apply lookup_lt_Some in Hk as Hi. apply lookup_lt_Some in Hk' as Hi'.
  assert (i = 0) as -> by lia. assert (i' = 0) as -> by lia. split; congruence.
Qed.

(** The signal of a run operation that has returned nil stays in the run
    channel until the [select] takes the run case. *)
Lemma run_signal_pending w p c i k :
  reachable w → heap w !! p = Some c → periodic (rec c) = false →
  callers c !! i = Some k → succeeded true k →
  on_run_path (pc (task c)) = false → buffered (runCh (rec c)) = 1.
Proof.
  intros Hr Hc Hper Hk Hsk. revert Hper i k Hk Hsk.
  apply (reachable_cell_invariant
    (λ c, periodic (rec c) = false → ∀ i k, callers c !! i = Some k → succeeded true k →
          on_run_path (pc (task c)) = false → buffered (runCh (rec c)) = 1))
    with (w := w) (p := p); [by intros [] ? ? ? [|?] ?| |done..].
  clear. intros w p c c' _ _ Hok Hm HP Hper' i k Hk Hsk Hq.
  assert (periodic (rec c) = false) as Hper.
  { destruct (cell_move_frame _ _ _ _ Hm) as [<- _]. done. }
  specialize (HP Hper).
  destruct Hm as [->|b js' Hs Hcs|i0 k0 j' q Hk0 Hs ->|f [-> | ->] ->|o nm Hnm ->]; simpl in *.
  - eauto.
  - rewrite Hcs in Hk.
    assert (on_run_path (pc (task c)) = false ∧ buffered (runCh (rec c')) = buffered (runCh (rec c)))
      as [Hq0 ->]; [|by eauto].
    clear HP Hk Hok.
    destruct c as [j r cs], c' as [j' r' cs']. simpl in *.
    destruct j as [lk act fin per cc [rb rcl]], r as [nm q cd tr rf rn sT sS cn el]. simpl in *.
    subst per. unfold runner_step, oneoff_step, select, finaliseJob, close in Hs. simpl in Hs.
    destruct q as [| |[]|[]| | |[]|[]|[]]; simpl in Hs; crush_step; done.
  - destruct (decide (i = i0)) as [->|Hne].
    + rewrite list_lookup_insert_eq in Hk by (by eapply lookup_lt_Some). simplify_eq.
      destruct (ok_oneoff _ Hok Hper) as [_ _ _ _ Hrun _ _].
      pose proof (ok_op _ Hok _ _ Hk0) as Hop.
      unfold succeeded in Hsk. simpl in Hsk.
      destruct q as [| | | | | | | |[e|]]; try done. apply bool_decide_unpack in Hsk.
      destruct c as [j r cs]. simpl in *.
      destruct j as [lk act fin per cc [rb rcl]], k0 as [o0 q0]. simpl in *. subst per.
      unfold caller_step, runJob, cancelJob, send in Hs.
      destruct q0; simpl in *; try done; crush_step; try done.
      all: try by rewrite Hsk in Hop.
      destruct rb; [done|]. destruct Hrun as (o & _ & ->); [left; lia|]. by destruct i0.
    + rewrite list_lookup_insert_ne in Hk by done.
      destruct (oneoff_only_caller _ _ _ _ _ Hok Hper Hk Hk0) as [-> _]. done.
  - eauto.
  - eauto.
  - apply lookup_app_Some in Hk as [Hk|[_ Hk]]; [by eauto|].
    apply list_lookup_singleton_Some in Hk as [_ <-].
    unfold succeeded, entry in Hsk. simpl in Hsk. by destruct (is_run o).
Qed.

(** The signal of a cancel operation that has returned nil while the
    runner waits at its [select] is in the cancel channel. *)
Lemma cancel_signal_pending w p c i k :
  reachable w → heap w !! p = Some c → periodic (rec c) = false →
  callers c !! i = Some k → succeeded false k →
  pc (task c) = AtSelect → buffered (cancelCh (rec c)) = 1.
Proof.
  intros Hr Hc Hper Hk Hsk. revert Hper i k Hk Hsk.
  apply (reachable_cell_invariant
    (λ c, periodic (rec c) = false → ∀ i k, callers c !! i = Some k → succeeded false k →
          pc (task c) = AtSelect → buffered (cancelCh (rec c)) = 1))
    with (w := w) (p := p); [by intros [] ? ? ? [|?] ?| |done..].
  clear. intros w p c c' Hr Hc Hok Hm HP Hper' i k Hk Hsk Hq.
  assert (periodic (rec c) = false) as Hper.
  { destruct (cell_move_frame _ _ _ _ Hm) as [<- _]. done. }
  specialize (HP Hper).
  pose proof (finalised_by _ _ _ Hr Hc) as Hfb.
  destruct Hm as [->|b js' Hs Hcs|i0 k0 j' q Hk0 Hs ->|f [-> | ->] ->|o nm Hnm ->]; simpl in *.
  - eauto.
  - exfalso. clear HP Hk Hok Hfb.
    destruct c as [j r cs], c' as [j' r' cs']. simpl in *.
    destruct j as [lk act fin per cc [rb rcl]], r as [nm q cd tr rf rn sT sS cn el]. simpl in *.
    subst per. unfold runner_step, oneoff_step, select, finaliseJob, close in Hs. simpl in Hs.
    destruct q as [| |[]|[]| | |[]|[]|[]]; simpl in Hs; crush_step; done.
  - destruct (decide (i = i0)) as [->|Hne].
    + rewrite list_lookup_insert_eq in Hk by (by eapply lookup_lt_Some). simplify_eq.
      pose proof (ok_op _ Hok _ _ Hk0) as Hop.
      pose proof (ok_cancelling _ Hok _ _ Hk0) as Hcg.
      unfold succeeded in Hsk. simpl in Hsk.
      destruct q as [| | | | | | | |[e|]]; try done. apply bool_decide_unpack in Hsk.
      assert (finalised (rec c) → cpc_of k0 = CancelAtFinalised → False) as Hnf.
      { intros Hf Hq0. destruct (Hfb Hf) as [Hfp|(i1 & k1 & Hk1 & Hst)].
        - by rewrite Hper, Hq in Hfp.
        - destruct (oneoff_only_caller _ _ _ _ _ Hok Hper Hk0 Hk1) as [_ ->].
          unfold cancel_stored in Hst. by rewrite Hq0 in Hst. }
      destruct c as [j r cs]. simpl in *.
      destruct j as [lk act fin per [cb ccl] rc], k0 as [o0 q0]. simpl in *. subst per.
      unfold caller_step, runJob, cancelJob, send in Hs.
      destruct q0; simpl in *; try done; crush_step; try done.
      all: try by rewrite Hsk in Hop.
      * by destruct Hnf.
      * destruct (Hcg eq_refl) as [_ ->]. done.
    + rewrite list_lookup_insert_ne in Hk by done.
      destruct (oneoff_only_caller _ _ _ _ _ Hok Hper Hk Hk0) as [-> _]. done.
  - destruct (task c); simpl in *; eauto.
  - destruct (task c); simpl in *; eauto.
  - apply lookup_app_Some in Hk as [Hk|[_ Hk]]; [by eauto|].
    apply list_lookup_singleton_Some in Hk as [_ <-].
    unfold succeeded, entry in Hsk. simpl in Hsk. by destruct (is_run o).
Qed.

Lemma quiet_move w p c c' :
  cell_move w p c c' → periodic (rec c) = false →
  quiet_pc (pc (task c)) → quiet_pc (pc (task c')).
Proof.
  intros Hm Hper Hq.
  destruct Hm as [->|b js' Hs Hcs|i' k' j' q Hk' Hs ->|f [-> | ->] ->|o nm Hnm ->];
    simpl; try done; try (by destruct (task c)).
  destruct c as [j r cs], c' as [j' r' cs']. simpl in *.
  destruct j as [lk act fin per cc rc], r as [nm q cd tr rf rn sT sS cn el]. simpl in *.
  subst per. unfold runner_step, oneoff_step, select, finaliseJob in Hs. simpl in Hs.
  destruct q as [| |[]|[]| | |[]|[]|[]]; simpl in *; try done; crush_step; done.
Qed.

(** A runner that took the cancel case or the case of the parent context
    does not call the job function in any continuation. *)
Lemma run_quiet ls w w' p c :
  inv w → run ls w = Some w' → heap w !! p = Some c →
  periodic (rec c) = false → quiet_pc (pc (task c)) →
  ∃ c', heap w' !! p = Some c' ∧
        startedOnTimer (task c') = 0 ∧ startedOnSignal (task c') = 0.
Proof.
  intros Hinv Hrun Hc Hper Hq.
  destruct (run_cell_invariant
    (λ c0, periodic (rec c0) = false ∧ quiet_pc (pc (task c0))) p)
    with (ls := ls) (w := w) (w' := w') (c := c) as (c' & Hc' & Hper' & Hq'); try done.
  - intros w0 c0 c1 _ _ Hok Hm [Hp0 Hq0]. split.
    + destruct (cell_move_frame _ _ _ _ Hm) as [-> _]. done.
    + by eapply quiet_move.
  - exists c'. split; [done|].
    pose proof (inv_run _ _ _ Hinv Hrun) as [_ Hcs _].
    pose proof (Forall_lookup_1 _ _ _ _ Hcs Hc') as Hok.
    destruct (ok_oneoff _ Hok Hper') as [_ Hcnt _ _ _ _ _].
    destruct (pc (task c')) as [| |[]|[]| | |[]|[]|[]]; simplify_eq/=; done.
Qed.

Lemma on_run_path_move w p c c' :
  cell_move w p c c' → periodic (rec c) = false →
  on_run_path (pc (task c)) → on_run_path (pc (task c')).
Proof.
  intros Hm Hper Hq.
  destruct Hm as [->|b js' Hs Hcs|i' k' j' q Hk' Hs ->|f [-> | ->] ->|o nm Hnm ->];
    simpl; try done; try (by destruct (task c)).
  destruct c as [j r cs], c' as [j' r' cs']. simpl in *.
  destruct j as [lk act fin per cc rc], r as [nm q cd tr rf rn sT sS cn el]. simpl in *.
  subst per. unfold runner_step, oneoff_step, select, finaliseJob in Hs. simpl in Hs.
  destruct q as [| |[]|[]| | |[]|[]|[]]; simpl in *; try done; crush_step; done.
Qed.

(** Once the [select] has taken the run case the job function has been
    started once, by that case, in every continuation. *)
Lemma run_on_run_path ls w w' p c :
  inv w → run ls w = Some w' → heap w !! p = Some c →
  periodic (rec c) = false → on_run_path (pc (task c)) →
  ∃ c', heap w' !! p = Some c' ∧ on_run_path (pc (task c')) ∧
        startedOnSignal (task c') = 1 ∧ startedOnTimer (task c') = 0.
Proof.
  intros Hinv Hrun Hc Hper Hq.
  destruct (run_cell_invariant
    (λ c0, periodic (rec c0) = false ∧ on_run_path (pc (task c0))) p)
    with (ls := ls) (w := w) (w' := w') (c := c) as (c' & Hc' & Hper' & Hq'); try done.
  - intros w0 c0 c1 _ _ Hok Hm [Hp0 Hq0]. split.
    + destruct (cell_move_frame _ _ _ _ Hm) as [-> _]. done.
    + by eapply on_run_path_move.
  - exists c'. split; [done|]. split; [done|].
    pose proof (inv_run _ _ _ Hinv Hrun) as [_ Hcs _].
    pose proof (Forall_lookup_1 _ _ _ _ Hcs Hc') as Hok.
    destruct (ok_oneoff _ Hok Hper') as [_ Hcnt _ _ _ _ _].
    by apply oneoff_counts_cases in Hcnt as (_ & H & _); auto.
Qed.

(** The step of a runner at its [select]. *)
Lemma exec_select w p c b :
  panicked w = false → heap w !! p = Some c → periodic (rec c) = false →
  pc (task c) = AtSelect →
  exec (LRunner p b) w =
    match select b (rec c) (task c) with
    | Next (j', r') =>
        Some (World (jobs w) (<[p := Cell j' r' (callers c)]> (heap w)) (scheduled w) false)
    | Blocked => None
    | Panic => Some (set_panicked w)
    end.
Proof.
  intros Hp Hc Hper Hq. unfold exec, exec_runner. rewrite Hp, Hc. simpl.
  unfold runner_step, oneoff_step. rewrite Hper, Hq.
  by destruct (select b (rec c) (task c)) as [[j' r']| |].
Qed.

(** After a run operation has returned nil, a runner that waits at its
    [select] finds the run case ready, the cancel case not. *)
Lemma select_after_run w p c i k :
  reachable w → heap w !! p = Some c → periodic (rec c) = false →
  callers c !! i = Some k → succeeded true k → pc (task c) = AtSelect →
  runCh (rec c) = Chan 1 false ∧ cancelCh (rec c) = make_chan ∧ active (rec c) = true ∧
  startedOnTimer (task c) = 0 ∧ startedOnSignal (task c) = 0.
Proof.
  intros Hr Hc Hper Hk Hsk Hq.
  pose proof (reachable_inv _ Hr) as [_ Hcs _].
  pose proof (Forall_lookup_1 _ _ _ _ Hcs Hc) as Hok.
  pose proof (run_signal_pending _ _ _ _ _ Hr Hc Hper Hk Hsk) as Hb.
  rewrite Hq in Hb. specialize (Hb eq_refl).
  pose proof (ok_closed_pc _ Hok) as Hcl. rewrite Hper, Hq in Hcl. simpl in Hcl.
  pose proof (ok_closed_same _ Hok) as Hsame. rewrite Hcl in Hsame.
  destruct (ok_oneoff _ Hok Hper) as [_ Hcnt _ Harm _ _ _]. rewrite Hq in Hcnt, Harm.
  assert (finalised (rec c) = false) as Hfin.
  { destruct (finalised (rec c)) eqn:E; [|done].
    destruct (finalised_by _ _ _ Hr Hc) as [Hfp|(i1 & k1 & Hk1 & Hst)]; [by rewrite E| |].
    - by rewrite Hper, Hq in Hfp.
    - destruct (oneoff_only_caller _ _ _ _ _ Hok Hper Hk Hk1) as [_ ->].
      unfold cancel_stored in Hst. unfold succeeded in Hsk.
      destruct (cpc_of k) as [| | | | | | | |[e|]]; try done.
      apply bool_decide_unpack in Hsk. by rewrite Hsk in Hst. }
  assert (buffered (cancelCh (rec c)) = 0) as Hcb.
  { destruct (buffered (cancelCh (rec c))) eqn:E; [done|].
    pose proof (ok_cancel_buf _ Hok) as H. rewrite E, Hfin in H. destruct H. lia. }
  assert (active (rec c)) as Hact.
  { apply Harm; [|done]. right. exists i, k. eauto using succeeded_signalled. }
  simpl in Hcnt. simplify_eq.
  destruct (rec c) as [lk act fin per [cb ccl] [rb rcl]]. simpl in *. subst.
  destruct act; done.
Qed.

End Moves.

(** ** The claims about the scheduler *)

Section Claims.

(** Claim C1, as amended.  For the record of a one-off job in any state
    the service can reach: the runner calls the job function, or counts a
    cancellation, at most once in all; when its [select] has taken the run
    case the job function has been started exactly once and not by the
    timer case, and that stays so in every continuation; when a run signal
    is in the channel, or a run operation has got hold of the record, the
    record is no longer in the map (removal precedes the signal); once the
    runner has finalised the record, the cause is exactly one of the timer
    case that executed, the run case, the cancel case and the end of the
    parent, and exactly the matching metric has been counted; when
    [RunJob] has returned nil before the time of the job has come, the
    timer case does not execute the job in any continuation; and when
    [RunJob] has returned nil and the runner waits at its [select], the run
    case is ready, whether the parent context is done or not, taking it
    calls the job function, once in every continuation, and the only other
    cases that can be taken are the timer case when the time has come and
    the case of the parent when the context is done. *)
Theorem run_now_oneoff w p c :
  reachable w → heap w !! p = Some c → periodic (rec c) = false →
  startedOnTimer (task c) + startedOnSignal (task c) + cancelled (task c) ≤ 1 ∧
  (on_run_path (pc (task c)) →
     startedOnSignal (task c) = 1 ∧ startedOnTimer (task c) = 0) ∧
  ((0 < buffered (runCh (rec c)) ∨ ∃ i k, callers c !! i = Some k ∧ is_run (cop k)) →
     ∀ nm, jobs w !! nm ≠ Some p) ∧
  (closed (cancelCh (rec c)) →
     ∃ cz, cz ∈ [TimerFired; RunSignal; CancelSignal; ParentDone] ∧
           (pc (task c) = Exited cz ∨
            cz = RunSignal ∧ pc (task c) = AtActiveReset RunSignal) ∧
           (startedOnTimer (task c), startedOnSignal (task c), cancelled (task c)) =
             match cz with
             | TimerFired => (1, 0, 0)
             | RunSignal => (0, 1, 0)
             | _ => (0, 0, 1)
             end) ∧
  (∀ i k ls w',
     callers c !! i = Some k → succeeded true k → timeReached (task c) = false →
     run ls w = Some w' →
     ∃ c', heap w' !! p = Some c' ∧ startedOnTimer (task c') = 0) ∧
  (∀ i k,
     callers c !! i = Some k → succeeded true k → pc (task c) = AtSelect →
     (∃ w1 c1,
        exec (LRunner p BrRun) w = Some w1 ∧ heap w1 !! p = Some c1 ∧
        pc (task c1) = InJob RunSignal ∧ active (rec c1) = true ∧
        startedOnSignal (task c1) = 1 ∧ startedOnTimer (task c1) = 0 ∧
        ∀ ls w', run ls w1 = Some w' →
          ∃ c', heap w' !! p = Some c' ∧
                startedOnSignal (task c') = 1 ∧ startedOnTimer (task c') = 0) ∧
     (∀ b w1, exec (LRunner p b) w = Some w1 →
        b = BrRun ∨ b = BrTimer ∧ timeReached (task c) = true ∨
        b = BrParent ∧ ctxDone (task c) = true)) ∧
  (on_run_path (pc (task c)) →
     ∀ ls w', run ls w = Some w' →
       ∃ c', heap w' !! p = Some c' ∧ on_run_path (pc (task c')) ∧
             startedOnSignal (task c') = 1 ∧ startedOnTimer (task c') = 0).
Proof.
  intros Hreach Hc Hper. pose proof (reachable_inv _ Hreach) as Hinv.
  pose proof Hinv as [Hpn Hcs Hr].
  pose proof (Forall_lookup_1 _ _ _ _ Hcs Hc) as Hok.
  destruct (ok_oneoff _ Hok Hper) as [Hlen Hcnt Htime Harm Hrun Hcan Hin].
  pose proof (oneoff_counts_cases _ _ _ _ Hcnt) as (Hle & Hrp & _ & Hte & _).
  split_and!; [done|done| | | | |].
  - intros H. apply (unregistered w p c); [done..|]. left.
    destruct H as [Hb|(i & k & Hk & _)].
    + destruct Hrun as (o & _ & ->); [by left|done].
    + intros E. by rewrite E in Hk.
  - rewrite (ok_closed_pc _ Hok), Hper. intros Hf.
    destruct (pc (task c)) as [| |[]|[]| | |[]|[]|[]]; simplify_eq/=; try done.
    + exists RunSignal. split_and!; [repeat constructor|by right|congruence].
    + exists ParentDone. split_and!; [repeat constructor|by left|congruence].
    + exists CancelSignal. split_and!; [repeat constructor|by left|congruence].
    + exists RunSignal. split_and!; [repeat constructor|by left|congruence].
    + exists TimerFired. split_and!; [repeat constructor|by left|congruence].
  - intros i k ls w' Hk Hsk Ht Hrun'.
    eapply run_armed; try done.
    destruct (timer_executes (pc (task c))) eqn:E; [|done].
    assert (timeReached (task c)) as Hti
      by (apply Htime, timer_executes_on_timer_path; by rewrite E).
    by rewrite Ht in Hti.
  - intros i k Hk Hsk Hq.
    destruct (select_after_run _ _ _ _ _ Hreach Hc Hper Hk Hsk Hq)
      as (Hrc & Hcc & Hact & HsT & HsS).
    split.
    + pose proof (exec_select w p c BrRun Hpn Hc Hper Hq) as Hex.
      unfold select, ready in Hex. rewrite Hrc in Hex. simpl in Hex.
      eexists _, _. split; [exact Hex|].
      assert (heap (World (jobs w)
                (<[p := Cell (with_runCh (recv (Chan 1 false)) (rec c))
                             (jobStartedOnSignal (goto (InJob RunSignal) (task c)))
                             (callers c)]> (heap w)) (scheduled w) false) !! p = Some
                (Cell (with_runCh (recv (Chan 1 false)) (rec c))
                      (jobStartedOnSignal (goto (InJob RunSignal) (task c)))
                      (callers c))) as Hc1.
      { apply list_lookup_insert_eq. by eapply lookup_lt_Some. }
      split; [exact Hc1|]. simpl. rewrite HsS, HsT. split_and!; try done.
      intros ls w' Hrun'.
      assert (exec (LRunner p BrRun) w = Some
                (World (jobs w)
                   (<[p := Cell (with_runCh (recv (Chan 1 false)) (rec c))
                                (jobStartedOnSignal (goto (InJob RunSignal) (task c)))
                                (callers c)]> (heap w)) (scheduled w) false)) as Hex' by exact Hex.
      destruct (run_on_run_path ls _ w' p _ (inv_step _ _ _ Hinv Hex') Hrun' Hc1)
        as (c' & Hc' & _ & ? & ?); [done..|]. by exists c'.
    + intros b w1 Hex. rewrite (exec_select w p c b Hpn Hc Hper Hq) in Hex.
      unfold select, ready in Hex. rewrite Hcc in Hex. simpl in Hex.
      destruct b; simpl in Hex; auto.
      * destruct (ctxDone (task c)); [auto|done].
      * done.
      * destruct (timeReached (task c)); [auto|done].
  - intros Hq ls w' Hrun'. by eapply run_on_run_path.
Qed.

(** The theorem of C1 at the state in which job "A" has been scheduled and
    [RunJob("A")] has returned nil: the timer case never executes the job,
    and the run case of the [select] is ready and calls the job function. *)
Lemma run_now_oneoff_witness :
  reachable run_now_world ∧
  heap run_now_world !! 0 = Some (cell_at run_now_world 0) ∧
  periodic (rec (cell_at run_now_world 0)) = false ∧
  callers (cell_at run_now_world 0) !! 0 = Some (Caller OpRunJob (Returned None)) ∧
  pc (task (cell_at run_now_world 0)) = AtSelect ∧
  (∀ ls w', run ls run_now_world = Some w' →
            ∃ c', heap w' !! 0 = Some c' ∧ startedOnTimer (task c') = 0) ∧
  (∃ w1 c1, exec (LRunner 0 BrRun) run_now_world = Some w1 ∧ heap w1 !! 0 = Some c1 ∧
            pc (task c1) = InJob RunSignal ∧ startedOnSignal (task c1) = 1) ∧
  (∀ b w1, exec (LRunner 0 b) run_now_world = Some w1 → b = BrRun).
Proof.
  assert (reachable run_now_world) as Hr by (exists run_now_trace; vm_compute; reflexivity).
  assert (heap run_now_world !! 0 = Some (cell_at run_now_world 0)) as Hc
    by (vm_compute; reflexivity).
  split; [exact Hr|]. split; [exact Hc|]. split; [vm_compute; reflexivity|].
  split; [vm_compute; reflexivity|]. split; [vm_compute; reflexivity|].
  destruct (run_now_oneoff run_now_world 0 _ Hr Hc eq_refl) as (_ & _ & _ & _ & H5 & H6 & _).
  destruct (H6 0 _ eq_refl I eq_refl) as (Hrun & Honly).
  split; [|split].
  - intros ls w' Hrun'. exact (H5 0 _ ls w' eq_refl I eq_refl Hrun').
  - destruct Hrun as (w1 & c1 & Hex & Hc1 & Hq1 & _ & Hs1 & _).
    exists w1, c1. repeat split; assumption.
  - intros b w1 Hex. destruct (Honly b w1 Hex) as [Hb|[[_ Ht]|[_ Hd]]];
      [exact Hb|discriminate Ht|discriminate Hd].
Defined.

(** Claim C1 as stated fails.  [RunJob("A")] returns nil before the time of
    the job has come and the job function is never called: either the
    time comes before the runner reaches its [select] and the timer case is
    taken, which finds [active] set and leaves the goroutine without
    calling the job function and without finalising the record (a fifth
    terminal cause); or the parent context is cancelled and that case is
    taken. *)
Lemma run_now_not_exactly_once :
  run run_now_trace New = Some run_now_world ∧
  callers (cell_at run_now_world 0) !! 0 = Some (Caller OpRunJob (Returned None)) ∧
  timeReached (task (cell_at run_now_world 0)) = false ∧
  run [LTime 0; LRunner 0 BrTimer; LRunner 0 BrTimer] run_now_world = Some skipped_world ∧
  (∀ ls w', run ls skipped_world = Some w' →
     ∃ c', heap w' !! 0 = Some c' ∧ pc (task c') = Exited AlreadyRunning ∧
           startedOnTimer (task c') = 0 ∧ startedOnSignal (task c') = 0 ∧
           closed (cancelCh (rec c')) = false) ∧
  run [LParent 0; LRunner 0 BrParent; LRunner 0 BrParent; LRunner 0 BrParent] run_now_world
    = Some parent_done_world ∧
  (∀ ls w', run ls parent_done_world = Some w' →
     ∃ c', heap w' !! 0 = Some c' ∧ pc (task c') = Exited ParentDone ∧
           startedOnTimer (task c') = 0 ∧ startedOnSignal (task c') = 0).
Proof.
  assert (reachable run_now_world) as Hr by (exists run_now_trace; vm_compute; reflexivity).
  assert (run [LTime 0; LRunner 0 BrTimer; LRunner 0 BrTimer] run_now_world
          = Some skipped_world) as H2 by (vm_compute; reflexivity).
  assert (run [LParent 0; LRunner 0 BrParent; LRunner 0 BrParent; LRunner 0 BrParent]
              run_now_world = Some parent_done_world) as H3 by (vm_compute; reflexivity).
  split; [vm_compute; reflexivity|]. split; [vm_compute; reflexivity|].
  split; [vm_compute; reflexivity|].
  split; [exact H2|]. split; [|split; [exact H3|]].
  - intros ls w' Hrun.
    pose proof (reachable_run _ _ _ Hr H2) as Hr2.
    destruct (run_exited ls skipped_world w' 0 (cell_at skipped_world 0) AlreadyRunning)
      as (c' & Hc' & Hpc & H1 & H4 & _ & Hper);
      [apply reachable_inv; assumption|exact Hrun|vm_compute; reflexivity|vm_compute; reflexivity|].
    exists c'. split; [exact Hc'|]. split; [exact Hpc|].
    split; [rewrite H1; vm_compute; reflexivity|].
    split; [rewrite H4; vm_compute; reflexivity|].
    pose proof (reachable_inv _ (reachable_run _ _ _ Hr2 Hrun)) as [_ Hcs _].
    pose proof (Forall_lookup_1 _ _ _ _ Hcs Hc') as Hok.
    rewrite (ok_closed_pc _ Hok), Hpc, Hper. vm_compute; reflexivity.
  - intros ls w' Hrun.
    pose proof (reachable_run _ _ _ Hr H3) as Hr3.
    destruct (run_exited ls parent_done_world w' 0 (cell_at parent_done_world 0) ParentDone)
      as (c' & Hc' & Hpc & H1 & H4 & _);
      [apply reachable_inv; assumption|exact Hrun|vm_compute; reflexivity|vm_compute; reflexivity|].
    exists c'. split; [exact Hc'|]. split; [exact Hpc|].
    split; [rewrite H1; vm_compute; reflexivity|rewrite H4; vm_compute; reflexivity].
Qed.

Lemma cancelled_quiet c i k :
  cell_ok c → periodic (rec c) = false →
  callers c !! i = Some k → succeeded false k →
  startedOnSignal (task c) = 0 ∧ buffered (runCh (rec c)) = 0 ∧
  (timeReached (task c) = false → startedOnTimer (task c) = 0).
Proof.
  intros Hok Hper Hk Hsk.
  destruct (ok_oneoff _ Hok Hper) as [Hlen Hcnt Htime Harm Hrun Hcan Hin].
  pose proof (oneoff_counts_cases _ _ _ _ Hcnt) as (_ & _ & Hnr & Hte & _).
  assert (¬ (0 < buffered (runCh (rec c)) ∨ on_run_path (pc (task c)))) as Hno.
  { intros H. destruct (Hrun H) as (o & Ho & Hcs). rewrite Hcs in Hk.
    destruct i; simplify_eq/=. unfold succeeded in Hsk. simpl in Hsk.
    apply bool_decide_unpack in Hsk. rewrite Hsk in Ho. done. }
  split_and!.
  - apply Hnr. destruct (on_run_path (pc (task c))); [|done]. destruct Hno. by right.
  - destruct (buffered (runCh (rec c))); [done|]. destruct Hno. left. lia.
  - intros Ht. apply Hte. destruct (timer_executes (pc (task c))) eqn:E; [|done].
    assert (timeReached (task c)) as Hti
      by (apply Htime, timer_executes_on_timer_path; by rewrite E).
    by rewrite Ht in Hti.
Qed.

Lemma enter_untouched o nm w w1 e p c :
  enter o nm w = Some (w1, e) → heap w !! p = Some c →
  (∀ nm', jobs w !! nm' ≠ Some p) →
  heap w1 !! p = Some c.
Proof.
  unfold enter. intros H Hc Hno. destruct (jobs w !! nm) as [p'|] eqn:Hnm; simplify_eq/=; [|done].
  destruct (heap w !! p') as [c0|]; simplify_eq/=.
  rewrite list_lookup_insert_ne; [done|]. intros ->. by destruct (Hno nm).
Qed.

(** After a cancel operation has returned nil, a runner that waits at its
    [select] finds the cancel case ready, the run case not. *)
Lemma select_after_cancel w p c i k :
  reachable w → heap w !! p = Some c → periodic (rec c) = false →
  callers c !! i = Some k → succeeded false k → pc (task c) = AtSelect →
  cancelCh (rec c) = Chan 1 false ∧ runCh (rec c) = make_chan.
Proof.
  intros Hr Hc Hper Hk Hsk Hq.
  pose proof (reachable_inv _ Hr) as [_ Hcs _].
  pose proof (Forall_lookup_1 _ _ _ _ Hcs Hc) as Hok.
  pose proof (cancel_signal_pending _ _ _ _ _ Hr Hc Hper Hk Hsk Hq) as Hb.
  pose proof (ok_closed_pc _ Hok) as Hcl. rewrite Hper, Hq in Hcl. simpl in Hcl.
  pose proof (ok_closed_same _ Hok) as Hsame. rewrite Hcl in Hsame.
  destruct (cancelled_quiet _ _ _ Hok Hper Hk Hsk) as (_ & Hrb & _).
  destruct (rec c) as [lk act fin per [cb ccl] [rb rcl]]. simpl in *. by subst.
Qed.

(** Claim C3, as amended.  For the record of a one-off job in any state
    the service can reach: once the runner has taken the cancel case of its
    [select], the job function is not called in any continuation; once a
    cancel operation has returned nil, the run case never executes the job
    in any continuation, and neither does the timer case as long as the
    time has not come; while the job function executes the record is
    not in the map, so that no run or cancel operation that starts then
    touches the record, and [CancelJob] of its name returns [ErrNoSuchJob]
    unless the name has been scheduled again; and when a cancel operation
    has returned nil and the runner waits at its [select], the cancel case
    is ready, the run case is not, and the only other cases that can be
    taken are the case of the parent when the context is done and the timer
    case when the time has come: whichever case but the timer case the
    [select] takes, so whenever it is executed before the time has come,
    the job function is not called in any continuation. *)
Theorem cancel_oneoff w p c :
  reachable w → heap w !! p = Some c → periodic (rec c) = false →
  (pc (task c) = AtFinalise CancelSignal ∨ pc (task c) = Exited CancelSignal →
     ∀ ls w', run ls w = Some w' →
       ∃ c', heap w' !! p = Some c' ∧
             startedOnTimer (task c') = 0 ∧ startedOnSignal (task c') = 0) ∧
  (∀ i k, callers c !! i = Some k → succeeded false k →
     ∀ ls w', run ls w = Some w' →
       ∃ c', heap w' !! p = Some c' ∧ startedOnSignal (task c') = 0 ∧
             (timeReached (task c') = false → startedOnTimer (task c') = 0)) ∧
  (∀ cz, pc (task c) = InJob cz →
     (∀ nm, jobs w !! nm ≠ Some p) ∧
     (∀ o nm w1 e, enter o nm w = Some (w1, e) → heap w1 !! p = Some c) ∧
     (jobs w !! name (task c) = None →
      CancelJob (name (task c)) w = Some (w, Done (Some ErrNoSuchJob)))) ∧
  (∀ i k,
     callers c !! i = Some k → succeeded false k → pc (task c) = AtSelect →
     (∃ w1 c1,
        exec (LRunner p BrCancel) w = Some w1 ∧ heap w1 !! p = Some c1 ∧
        pc (task c1) = AtFinalise CancelSignal) ∧
     (∀ b w1, exec (LRunner p b) w = Some w1 →
        (b = BrCancel ∨ b = BrParent ∧ ctxDone (task c) = true ∨
         b = BrTimer ∧ timeReached (task c) = true) ∧
        (b ≠ BrTimer →
         ∀ ls w', run ls w1 = Some w' →
           ∃ c', heap w' !! p = Some c' ∧
                 startedOnTimer (task c') = 0 ∧ startedOnSignal (task c') = 0))).
Proof.
  intros Hreach Hc Hper. pose proof (reachable_inv _ Hreach) as Hinv.
  pose proof Hinv as [Hpn _ _]. split_and!.
  - intros Hq ls w' Hrun. by eapply run_cancel_observed.
  - intros i k Hk Hsk ls w' Hrun.
    destruct (run_returned ls w w' p c i k None) as (c' & Hc' & Hk' & Hper');
      [done..|by eapply succeeded_returned|].
    exists c'. split; [done|].
    pose proof (inv_run _ _ _ Hinv Hrun) as [_ Hcs _].
    pose proof (Forall_lookup_1 _ _ _ _ Hcs Hc') as Hok.
    rewrite Hper in Hper'.
    by destruct (cancelled_quiet _ _ _ Hok Hper' Hk' Hsk) as (? & _ & ?).
  - intros cz Hq.
    assert (∀ nm, jobs w !! nm ≠ Some p) as Hno.
    { eapply unregistered; [done..|]. right. left. by rewrite Hq. }
    split_and!; [done| |].
    + intros o nm w1 e He. by eapply enter_untouched.
    + intros Hnm. unfold RunJob, CancelJob, enter. by rewrite Hnm.
  - intros i k Hk Hsk Hq.
    destruct (select_after_cancel _ _ _ _ _ Hreach Hc Hper Hk Hsk Hq) as (Hcc & Hrc).
    assert (∀ b w1, exec (LRunner p b) w = Some w1 →
              (b = BrCancel ∨ b = BrParent ∧ ctxDone (task c) = true ∨
               b = BrTimer ∧ timeReached (task c) = true) ∧
              ∃ c1, heap w1 !! p = Some c1 ∧ periodic (rec c1) = false ∧
                    (b = BrCancel → pc (task c1) = AtFinalise CancelSignal) ∧
                    (b ≠ BrTimer → quiet_pc (pc (task c1)))) as Hsel.
    { intros b w1 Hex. rewrite (exec_select w p c b Hpn Hc Hper Hq) in Hex.
      unfold select, ready in Hex. rewrite Hcc, Hrc in Hex. simpl in Hex.
      assert (∀ j' r', heap (World (jobs w) (<[p := Cell j' r' (callers c)]> (heap w))
                               (scheduled w) false) !! p = Some (Cell j' r' (callers c))) as Hl.
      { intros j' r'. apply list_lookup_insert_eq. by eapply lookup_lt_Some. }
      destruct b; simpl in Hex.
      - destruct (ctxDone (task c)); [|done]. simplify_eq. split; [auto|].
        eexists. split; [apply Hl|]. simpl. by rewrite Hper.
      - simplify_eq. split; [auto|].
        eexists. split; [apply Hl|]. simpl. by rewrite Hper.
      - done.
      - destruct (timeReached (task c)); [|done]. simplify_eq. split; [auto|].
        eexists. split; [apply Hl|]. simpl. by rewrite Hper. }
    split.
    + pose proof (exec_select w p c BrCancel Hpn Hc Hper Hq) as Hex.
      unfold select, ready in Hex. rewrite Hcc in Hex. simpl in Hex.
      destruct (Hsel _ _ Hex) as (_ & c1 & Hc1 & _ & Hq1 & _).
      eexists _, c1. split; [exact Hex|]. split; [exact Hc1|]. by apply Hq1.
    + intros b w1 Hex. destruct (Hsel _ _ Hex) as (Hb & c1 & Hc1 & Hper1 & _ & Hq1).
      split; [done|]. intros Hnt ls w' Hrun.
      eapply run_quiet; [by eapply inv_step|done..|by apply Hq1].
Qed.

(** The theorem of C3 at the state in which job "A" has been scheduled and
    [CancelJob("A")] has returned nil: the cancel case of the [select] is
    ready, it is the only one, and the job function is never called once
    the runner has executed its [select]. *)
Lemma cancel_oneoff_witness :
  reachable cancelled_world ∧
  heap cancelled_world !! 0 = Some (cell_at cancelled_world 0) ∧
  periodic (rec (cell_at cancelled_world 0)) = false ∧
  callers (cell_at cancelled_world 0) !! 0 = Some (Caller OpCancelJob (Returned None)) ∧
  pc (task (cell_at cancelled_world 0)) = AtSelect ∧
  (∀ ls w', run ls cancelled_world = Some w' →
     ∃ c', heap w' !! 0 = Some c' ∧ startedOnSignal (task c') = 0 ∧
           (timeReached (task c') = false → startedOnTimer (task c') = 0)) ∧
  (∃ w1 c1, exec (LRunner 0 BrCancel) cancelled_world = Some w1 ∧ heap w1 !! 0 = Some c1 ∧
            pc (task c1) = AtFinalise CancelSignal) ∧
  (∀ b w1, exec (LRunner 0 b) cancelled_world = Some w1 →
     b = BrCancel ∧
     ∀ ls w', run ls w1 = Some w' →
       ∃ c', heap w' !! 0 = Some c' ∧
             startedOnTimer (task c') = 0 ∧ startedOnSignal (task c') = 0).
Proof.
  assert (reachable cancelled_world) as Hr by (exists cancel_trace; vm_compute; reflexivity).
  assert (heap cancelled_world !! 0 = Some (cell_at cancelled_world 0)) as Hc
    by (vm_compute; reflexivity).
  split; [exact Hr|]. split; [exact Hc|]. split; [vm_compute; reflexivity|].
  split; [vm_compute; reflexivity|]. split; [vm_compute; reflexivity|].
  destruct (cancel_oneoff cancelled_world 0 _ Hr Hc eq_refl) as (_ & H2 & _ & H4).
  destruct (H4 0 _ eq_refl I eq_refl) as (Hcan & Honly).
  split; [exact (H2 0 _ eq_refl I)|]. split; [exact Hcan|].
  intros b w1 Hex. destruct (Honly b w1 Hex) as (Hb & Hq).
  destruct Hb as [Hb|[[_ Hd]|[_ Ht]]]; [|discriminate Hd|discriminate Ht].
  split; [exact Hb|]. apply Hq. rewrite Hb. discriminate.
Defined.

(** Claim C3 as stated fails, in both halves.  [CancelJob("A")] returns nil
    before the runner has started the job function, then the time comes
    and the [select], with the cancel signal and the timer both ready,
    takes the timer case and calls the job function.  And [CancelJob("A")]
    called while the job function executes returns [ErrNoSuchJob], not
    nil: the runner removed the record from the map before it called the
    job function. *)
Lemma cancel_neither_prevents_nor_succeeds :
  (run cancel_trace New = Some cancelled_world ∧
   callers (cell_at cancelled_world 0) !! 0 = Some (Caller OpCancelJob (Returned None)) ∧
   pc (task (cell_at cancelled_world 0)) = AtSelect ∧
   startedOnTimer (task (cell_at cancelled_world 0)) = 0 ∧
   run timer_trace cancelled_world = Some cancelled_running_world ∧
   pc (task (cell_at cancelled_running_world 0)) = InJob TimerFired ∧
   startedOnTimer (task (cell_at cancelled_running_world 0)) = 1) ∧
  (run (LScheduleJob "A" (Some ()) :: timer_trace) New = Some running_world ∧
   pc (task (cell_at running_world 0)) = InJob TimerFired ∧
   CancelJob "A" running_world = Some (running_world, Done (Some ErrNoSuchJob))).
Proof. split; split_and!; vm_compute; reflexivity. Qed.

Lemma active_set_by w p c c' :
  cell_move w p c c' → active (rec c) = false → active (rec c') = true →
  pc (task c) = AtActiveStore ∧ pc (task c') = InJob TimerFired ∨
  ∃ i k, callers c !! i = Some k ∧ cpc_of k = RunAtStore ∧
         callers c' !! i = Some (Caller (cop k) RunAtSend).
Proof.
  intros [->|b js' Hs Hcs|i k j' q Hk Hs ->|f [-> | ->] ->|o nm Hnm ->] Ha Ha';
    simpl in *; try congruence.
  - left. destruct c as [j r cs], c' as [j' r' cs']. simpl in *.
    destruct j as [lk act fin per cc rc], r as [nm q cd tr rf rn sT sS cn el]. simpl in *.
    unfold runner_step, periodic_step, oneoff_step, select, finaliseJob, close in Hs.
    simpl in Hs. crush_step; done.
  - right. exists i, k. destruct (rec c) as [lk act fin per cc rc]. simpl in *.
    unfold caller_step, runJob, cancelJob, send in Hs. crush_step; try done.
    split_and!; try done. apply list_lookup_insert_eq. by eapply lookup_lt_Some.
Qed.

Lemma reset_after_job b js j r cz :
  pc r = InJob cz → stateLock j = None →
  closed (cancelCh j) = false → closed (runCh j) = false →
  ∃ n js' j' r',
    n ≤ 3 ∧ runner_alone n b js j r = Next (js', j', r') ∧ active j' = false.
Proof.
  intros Hq Hl Hc1 Hc2.
  destruct j as [lk act fin per [cb ccl] [rb rcl]], r as [nm q cd tr rf rn sT sS cn el].
  simpl in *. subst.
  destruct per.
  - exists 2. eexists _, _, _. split; [lia|]. by split.
  - destruct cz.
    3:{ exists 3. eexists _, _, _. split; [lia|]. by split. }
    all: exists 2; eexists _, _, _; split; [lia|]; by split.
Qed.

(** Claim C8, as amended.  A new record has [active] unset.  In any state
    the service can reach: the job function of a one-off job executes with
    [active] set; a step sets
    [active] on a record only if it is the store of the timer case, which
    the call of the job function follows, or the store of [runJob], which
    precedes the send of the run signal; and from the call of the job
    function, the runner on its own, when the lock is free, stores false in
    [active] within three statements. *)
Theorem active_flag w p c :
  reachable w → heap w !! p = Some c →
  (∀ per, active (new_job per) = false) ∧
  (periodic (rec c) = false → ∀ cz, pc (task c) = InJob cz → active (rec c) = true) ∧
  (∀ l w' c', exec l w = Some w' → heap w' !! p = Some c' →
     active (rec c) = false → active (rec c') = true →
     pc (task c) = AtActiveStore ∧ pc (task c') = InJob TimerFired ∨
     ∃ i k, callers c !! i = Some k ∧ cpc_of k = RunAtStore ∧
            callers c' !! i = Some (Caller (cop k) RunAtSend)) ∧
  (∀ cz b, pc (task c) = InJob cz → stateLock (rec c) = None →
     ∃ n js' j' r',
       n ≤ 3 ∧ runner_alone n b (jobs w) (rec c) (task c) = Next (js', j', r') ∧
       active j' = false).
Proof.
  intros Hreach Hc. pose proof (reachable_inv _ Hreach) as Hinv.
  pose proof Hinv as [_ Hcs Hr].
  pose proof (Forall_lookup_1 _ _ _ _ Hcs Hc) as Hok.
  split_and!; [done|..].
  - intros Hper cz Hq. destruct (ok_oneoff _ Hok Hper) as [_ _ _ _ _ _ Hin].
    apply Is_true_true. by eapply Hin.
  - intros l w' c' Hl Hc' Ha Ha'.
    destruct (exec_cell _ _ _ _ _ Hinv Hl Hc) as (c1 & Hc1 & Hm). simplify_eq.
    by eapply active_set_by.
  - intros cz b Hq Hl. apply (reset_after_job b (jobs w) _ _ cz); [done..| |].
    + rewrite (ok_closed_pc _ Hok), Hq. by destruct cz.
    + rewrite (ok_closed_same _ Hok), (ok_closed_pc _ Hok), Hq. by destruct cz.
Qed.

(** The theorem of C8 at the state in which the timer case has called the
    job function of job "A". *)
Lemma active_flag_witness :
  reachable running_world ∧
  heap running_world !! 0 = Some (cell_at running_world 0) ∧
  periodic (rec (cell_at running_world 0)) = false ∧
  pc (task (cell_at running_world 0)) = InJob TimerFired ∧
  active (rec (cell_at running_world 0)) = true.
Proof.
  assert (reachable running_world) as Hr
    by (exists (LScheduleJob "A" (Some ()) :: timer_trace); vm_compute; reflexivity).
  assert (heap running_world !! 0 = Some (cell_at running_world 0)) as Hc
    by (vm_compute; reflexivity).
  split; [exact Hr|]. split; [exact Hc|]. split; [vm_compute; reflexivity|].
  split; [vm_compute; reflexivity|].
  destruct (active_flag running_world 0 _ Hr Hc) as (_ & H & _ & _).
  exact (H eq_refl TimerFired eq_refl).
Defined.

(** Claim C8 as stated fails: after [RunJob("A")] has returned nil, [active]
    is set while the runner still waits in its [select] and the job
    function has not been called. *)
Lemma active_before_the_job_begins :
  run run_now_trace New = Some run_now_world ∧
  active (rec (cell_at run_now_world 0)) = true ∧
  pc (task (cell_at run_now_world 0)) = AtSelect ∧
  startedOnTimer (task (cell_at run_now_world 0)) = 0 ∧
  startedOnSignal (task (cell_at run_now_world 0)) = 0.
Proof. split_and!; vm_compute; reflexivity. Qed.

(** Claim C2, as amended.  In any state the service can reach, no
    goroutine has panicked and no step panics: no channel is closed twice
    and nothing is sent on a closed channel.  The two channels of a record
    are closed exactly when its runner has executed [finaliseJob], and then
    [finalised] is set; no caller that is about to send finds the channels
    closed; a signal is in the cancel channel only if [finalised] is set;
    and [finaliseJob], when the runner reaches it with the lock free, finds
    both channels open, closes them and sets [finalised]. *)
Theorem finalisation w :
  reachable w →
  panicked w = false ∧
  (∀ l w', exec l w = Some w' → panicked w' = false) ∧
  (∀ p c, heap w !! p = Some c →
     closed (runCh (rec c)) = closed (cancelCh (rec c)) ∧
     closed (cancelCh (rec c)) = finalised_pc (periodic (rec c)) (pc (task c)) ∧
     (closed (cancelCh (rec c)) → finalised (rec c)) ∧
     (∀ i k, callers c !! i = Some k → sends (cpc_of k) →
             closed (cancelCh (rec c)) = false) ∧
     (0 < buffered (cancelCh (rec c)) → finalised (rec c)) ∧
     (∀ cz, pc (task c) = AtFinalise cz → stateLock (rec c) = None →
        ∃ j', finaliseJob (rec c) = Next j' ∧ finalised j' = true ∧
              closed (cancelCh j') = true ∧ closed (runCh j') = true ∧
              closed (cancelCh (rec c)) = false ∧ closed (runCh (rec c)) = false)).
Proof.
  intros Hreach. pose proof (reachable_inv _ Hreach) as Hinv.
  pose proof Hinv as [Hp Hcs Hr]. split_and!; [done| |].
  - intros l w' Hl. by destruct (inv_step _ _ _ Hinv Hl).
  - intros p c Hc. pose proof (Forall_lookup_1 _ _ _ _ Hcs Hc) as Hok.
    destruct Hok as [Hop Hlock Hsame Hpc Hfin Hsend Hcb Hcg Hoo].
    split_and!; try done.
    intros cz Hq Hl. rewrite Hq in Hpc. simpl in Hpc.
    unfold finaliseJob, close. rewrite Hl, Hsame, Hpc. simpl. eexists. by split_and!.
Qed.

(** The theorem of C2 at the state in which the runner of job "A" has
    finalised the record after the end of the parent. *)
Lemma finalisation_witness :
  reachable parent_done_world ∧ panicked parent_done_world = false ∧
  closed (cancelCh (rec (cell_at parent_done_world 0))) = true.
Proof.
  assert (reachable parent_done_world) as Hr.
  { exists (run_now_trace ++ [LParent 0; LRunner 0 BrParent; LRunner 0 BrParent; LRunner 0 BrParent]).
    vm_compute; reflexivity. }
  split; [exact Hr|].
  destruct (finalisation parent_done_world Hr) as (Hp & _ & H).
  split; [exact Hp|].
  destruct (H 0 (cell_at parent_done_world 0) ltac:(vm_compute; reflexivity)) as (_ & -> & _).
  vm_compute; reflexivity.
Defined.

(** Claim C2 as stated fails.  [finaliseJob] does not check [finalised]:
    applied to a record that it has finalised it closes a closed channel
    and panics.  And [CancelJob] sends on the cancel channel after it has
    set [finalised]. *)
Lemma finalise_unguarded_and_send_after_finalised :
  (∃ j', finaliseJob (new_job false) = Next j' ∧ finalised j' = true ∧
         finaliseJob j' = Panic) ∧
  (run [LScheduleJob "A" (Some ()); LEnter OpCancelJob "A"; LCaller 0 0; LCaller 0 0] New
     = Some cancelling_world ∧
   finalised (rec (cell_at cancelling_world 0)) = true ∧
   buffered (cancelCh (rec (cell_at cancelling_world 0))) = 0 ∧
   exec (LCaller 0 0) cancelling_world = Some cancelled_world ∧
   buffered (cancelCh (rec (cell_at cancelled_world 0))) = 1).
Proof.
  split.
  - eexists. split; [reflexivity|]. by split.
  - split_and!; vm_compute; reflexivity.
Qed.

Lemma run_ticks n : ∀ w p c js' j' r',
  panicked w = false → heap w !! p = Some c →
  ticks n (jobs w) (rec c) (task c) = Next (js', j', r') →
  run (timer_labels p n) w =
    Some (World js' (<[p := Cell j' r' (callers c)]> (heap w)) (scheduled w) false).
Proof.
  induction n as [|n IH]; intros w p c js' j' r' Hp Hc H.
  - simpl in *. simplify_eq. destruct w as [js h sc pn], c as [j r cs]. simpl in *. subst.
    by rewrite list_insert_id.
  - cbn [timer_labels run ticks] in *.
    assert (exec (LTime p) w =
            Some (World (jobs w) (<[p := Cell (rec c) (with_time true (task c)) (callers c)]> (heap w))
                        (scheduled w) false)) as ->.
    { unfold exec, exec_env. by rewrite Hp, Hc. }
    cbn [mbind option_bind]. unfold exec at 1. cbn [panicked]. unfold exec_runner. cbn [heap jobs].
    rewrite list_lookup_insert_eq by (by eapply lookup_lt_Some). cbn [mbind option_bind rec task callers].
    destruct (runner_step BrTimer (jobs w) (rec c) (with_time true (task c)))
      as [[[js1 j1] r1]| |] eqn:Hs; simplify_eq/=.
    rewrite list_insert_insert_eq.
    erewrite (IH (World js1 (<[p:=Cell j1 r1 (callers c)]> (heap w)) (scheduled w) false) p
                 (Cell j1 r1 (callers c))); simpl; [|done| |done].
    + by rewrite list_insert_insert_eq.
    + apply list_lookup_insert_eq. by eapply lookup_lt_Some.
Qed.

Lemma ticks_app n m js j r :
  ticks (n + m) js j r =
    match ticks n js j r with
    | Next (js', j', r') => ticks m js' j' r'
    | Blocked => Blocked
    | Panic => Panic
    end.
Proof.
  revert js j r. induction n as [|n IH]; intros js j r; simpl; [done|].
  destruct (runner_step BrTimer js j (with_time true r)) as [[[js1 j1] r1]| |]; [|done..].
  apply IH.
Qed.

(** One turn of the loop of the periodic runner, taken by the timer. *)
Lemma ticks_iteration js j r :
  periodic j = true → pc r = AtRuntime → active j = false →
  runtimeFunc r (rtCalls r) = RtTime →
  ticks 6 js j r =
    Next (js, j,
          Runner (name r) AtRuntime (ctxDone r) true (runtimeFunc r) (S (rtCalls r))
                 (S (startedOnTimer r)) (startedOnSignal r) (cancelled r) (errorsLogged r)).
Proof.
  destruct j as [lk act fin per cc rc], r as [nm q cd tr rf rn sT sS cn el]. simpl.
  intros -> -> -> Hrf. unfold ticks, runner_step, periodic_step, select. simpl.
  rewrite Hrf. done.
Qed.

Lemma ticks_loop m : ∀ js j r,
  periodic j = true → pc r = AtRuntime → active j = false →
  (∀ i, i < m → runtimeFunc r (rtCalls r + i) = RtTime) →
  ticks (6 * m) js j r =
    Next (js, j,
          Runner (name r) AtRuntime (ctxDone r) (if m is 0 then timeReached r else true)
                 (runtimeFunc r) (rtCalls r + m)
                 (startedOnTimer r + m) (startedOnSignal r) (cancelled r) (errorsLogged r)).
Proof.
  induction m as [|m IH]; intros js j r Hper Hq Hact Hrf.
  - simpl. rewrite !Nat.add_0_r. destruct r; simpl in *. by subst.
  - replace (6 * S m) with (6 + 6 * m) by lia. rewrite ticks_app.
    rewrite ticks_iteration; [|done..|].
    2:{ rewrite <- (Nat.add_0_r (rtCalls r)). apply Hrf. lia. }
    rewrite IH; simpl; [|done..|].
    2:{ intros i Hi. replace (S (rtCalls r + i)) with (rtCalls r + S i) by lia. apply Hrf. lia. }
    do 3 f_equal. f_equal; try lia. all: try (by destruct m).
Qed.

(** The last turn: [runtimeFunc] returns an error. *)
Lemma ticks_stop js j r :
  periodic j = true → pc r = AtRuntime → stateLock j = None →
  closed (cancelCh j) = false → closed (runCh j) = false →
  runtimeFunc r (rtCalls r) ≠ RtTime →
  ∃ cz el,
    (runtimeFunc r (rtCalls r) = RtNoMore ∧ cz = NoMoreInstances ∧ el = errorsLogged r ∨
     runtimeFunc r (rtCalls r) = RtError ∧ cz = RuntimeError ∧ el = S (errorsLogged r)) ∧
    ticks 3 js j r =
      Next (delete (name r) js,
            Job None (active j) true true (Chan (buffered (cancelCh j)) true)
                (Chan (buffered (runCh j)) true),
            Runner (name r) (Exited cz) (ctxDone r) true (runtimeFunc r) (S (rtCalls r))
                   (startedOnTimer r) (startedOnSignal r) (S (cancelled r)) el).
Proof.
  destruct j as [lk act fin per [cb ccl] [rb rcl]], r as [nm q cd tr rf rn sT sS cn el]. simpl.
  intros -> -> -> -> -> Hrf. unfold ticks, runner_step, periodic_step, finaliseJob, close. simpl.
  destruct (rf rn) eqn:E; [done| |].
  - exists NoMoreInstances, el. split; [by left|]. done.
  - exists RuntimeError, (S el). split; [by right|]. done.
Qed.

(** Claim C4.  A periodic job is scheduled under a free name with a
    [runtimeFunc] whose first [m] calls return a time and whose next call,
    the [m+1]-th, returns an error.  Driven by its timer alone, the runner
    calls the job function exactly [m] times; then it removes the record
    from the map, finalises it and returns.  When the error is
    [ErrNoMoreInstances] nothing is logged as an error and no caller gets
    one ([SchedulePeriodicJob] has returned nil); when it is another error
    it is logged once, before the removal. *)
Theorem periodic_until_no_more_instances w nm rf m :
  panicked w = false → nm ≠ EmptyString → jobs w !! nm = None →
  (∀ i, i < m → rf i = RtTime) → rf m ≠ RtTime →
  ∃ w1 w' c' cz el,
    SchedulePeriodicJob nm (Some rf) (Some ()) w = (w1, None) ∧
    run (timer_labels (length (heap w)) (6 * m + 3)) w1 = Some w' ∧
    heap w' !! length (heap w) = Some c' ∧
    (rf m = RtNoMore ∧ cz = NoMoreInstances ∧ el = 0 ∨
     rf m = RtError ∧ cz = RuntimeError ∧ el = 1) ∧
    pc (task c') = Exited cz ∧ errorsLogged (task c') = el ∧
    rtCalls (task c') = S m ∧
    startedOnTimer (task c') = m ∧ startedOnSignal (task c') = 0 ∧
    jobs w' = jobs w ∧ JobExists nm w' = false ∧
    finalised (rec c') = true ∧
    closed (cancelCh (rec c')) = true ∧ closed (runCh (rec c')) = true ∧
    callers c' = [] ∧ panicked w' = false ∧
    (∀ b, exec (LRunner (length (heap w)) b) w' = None).
Proof.
  intros Hp Hnm Hfree Hrf Hstop.
  set (p := length (heap w)).
  set (c := Cell (new_job true) (new_runner nm AtRuntime rf) []).
  set (w1 := World (<[nm := p]> (jobs w)) (heap w ++ [c]) (S (scheduled w)) (panicked w)).
  assert (SchedulePeriodicJob nm (Some rf) (Some ()) w = (w1, None)) as Hs.
  { unfold SchedulePeriodicJob. rewrite bool_decide_eq_false_2 by done. by rewrite Hfree. }
  assert (heap w1 !! p = Some c) as Hc.
  { subst w1 p. simpl. by rewrite lookup_app_r, Nat.sub_diag. }
  destruct (ticks_stop (jobs w1) (rec c)
              (Runner nm AtRuntime false (if m is 0 then false else true) rf (0 + m)
                      (0 + m) 0 0 0))
    as (cz & el & Hcz & Hlast); try done.
  simpl in Hcz, Hlast.
  match type of Hlast with _ = ?rhs =>
    assert (ticks (6 * m + 3) (jobs w1) (rec c) (task c) = rhs) as Hticks
  end.
  { rewrite ticks_app, ticks_loop; [exact Hlast|done..]. }
  pose proof (run_ticks _ w1 p c _ _ _ Hp Hc Hticks) as Hrun.
  eexists w1, _, _, cz, el. split; [exact Hs|]. split; [exact Hrun|]. simpl.
  split. { apply list_lookup_insert_eq. by eapply lookup_lt_Some. }
  split; [done|]. split_and!; try done.
  - by rewrite delete_insert_id.
  - unfold JobExists. simpl. rewrite delete_insert_id by done.
    apply bool_decide_eq_false_2. rewrite Hfree. by intros [? ?].
  - intros b. unfold exec, exec_runner. simpl.
    rewrite list_lookup_insert_eq by (by eapply lookup_lt_Some). done.
Qed.

(** The theorem of C4 for job "B" whose [runtimeFunc] returns two times and
    then [ErrNoMoreInstances]: the job function runs twice. *)
Lemma periodic_until_no_more_instances_witness :
  panicked New = false ∧ "B" ≠ EmptyString ∧ jobs New !! "B" = None ∧
  (∀ i, i < 2 → rf_twice i = RtTime) ∧ rf_twice 2 ≠ RtTime ∧
  ∃ w1 w' c',
    SchedulePeriodicJob "B" (Some rf_twice) (Some ()) New = (w1, None) ∧
    run (timer_labels 0 15) w1 = Some w' ∧ heap w' !! 0 = Some c' ∧
    pc (task c') = Exited NoMoreInstances ∧
    startedOnTimer (task c') = 2 ∧ JobExists "B" w' = false.
Proof.
  assert (∀ i, i < 2 → rf_twice i = RtTime) as Hrf.
  { intros i Hi. unfold rf_twice. by rewrite bool_decide_eq_true_2. }
  split; [reflexivity|]. split; [discriminate|]. split; [reflexivity|].
  split; [exact Hrf|]. split; [discriminate|].
  destruct (periodic_until_no_more_instances New "B" rf_twice 2)
    as (w1 & w' & c' & cz & el & H1 & H2 & H3 & [(_ & -> & _)|(E & _)] & H4 & _ & _ & H5 & _ & _ & H6 & _);
    [reflexivity|discriminate|reflexivity|exact Hrf|discriminate| |discriminate E].
  exists w1, w', c'. repeat split; assumption.
Defined.

(** Claim C5.  [RunJob] returns [ErrNoSuchJob], and changes nothing, when
    the name is not in the map.  When it is, the critical section on the
    map removes a one-off job, keeps a periodic one, and leaves the record
    as it is: the signal comes later.  [runJob], running on its own from a
    free lock, returns [ErrJobRunning] when [active] is set, otherwise
    [ErrJobFinalised] when [finalised] is set, and otherwise sets [active],
    sends on the run channel and returns nil; it returns nil only when
    neither flag was set.  In every reachable state a one-off record that a
    run operation holds is out of the map. *)
Theorem RunJob_result :
  (∀ w nm, jobs w !! nm = None →
     RunJob nm w = Some (w, Done (Some ErrNoSuchJob))) ∧
  (∀ w nm p c, jobs w !! nm = Some p → heap w !! p = Some c →
     ∃ w1, RunJob nm w = Some (w1, Found p (length (callers c))) ∧
           jobs w1 = (if periodic (rec c) then jobs w else delete nm (jobs w)) ∧
           heap w1 !! p =
             Some (Cell (rec c) (task c) (callers c ++ [Caller OpRunJob RunAtLock]))) ∧
  (∀ i j, stateLock j = None →
     caller_alone 5 i j RunAtLock =
       if active j then Next (j, Returned (Some ErrJobRunning))
       else if finalised j then Next (j, Returned (Some ErrJobFinalised))
       else match send (runCh j) with
            | Next c => Next (with_runCh c (with_active true j), Returned None)
            | Blocked => Blocked
            | Panic => Panic
            end) ∧
  (∀ i j j', stateLock j = None →
     caller_alone 5 i j RunAtLock = Next (j', Returned None) →
     active j = false ∧ finalised j = false ∧
     active j' = true ∧ buffered (runCh j') = S (buffered (runCh j))) ∧
  (∀ w p c i k, reachable w → heap w !! p = Some c → callers c !! i = Some k →
     is_run (cop k) → periodic (rec c) = false →
     ∀ nm, jobs w !! nm ≠ Some p).
Proof.
  split_and!.
  - intros w nm Hnm. unfold RunJob, CancelJob, enter. by rewrite Hnm.
  - intros w nm p c Hnm Hc. unfold RunJob, CancelJob, enter. rewrite Hnm, Hc. simpl.
    eexists. split; [done|]. simpl. split; [done|].
    apply list_lookup_insert_eq. by eapply lookup_lt_Some.
  - intros i [lk act fin per cc rc] Hl. simpl in *. subst lk.
    simpl. destruct act, fin; simpl; try done. by destruct (send rc).
  - intros i [lk act fin per cc [rb rcl]] j' Hl. simpl in *. subst lk.
    simpl. intros H. crush_step. unfold send in *. crush_step. done.
  - intros w p c i k Hreach Hc Hk _ Hper.
    eapply unregistered; [by apply reachable_inv|done..|]. left. intros E. by rewrite E in Hk.
Qed.

(** The theorem of C5 for [RunJob("A")] on the scheduled one-off job "A":
    the job is removed from the map and no signal has been sent yet. *)
Lemma RunJob_result_witness :
  jobs scheduled_world !! "A" = Some 0 ∧
  heap scheduled_world !! 0 = Some (cell_at scheduled_world 0) ∧
  ∃ w1, RunJob "A" scheduled_world = Some (w1, Found 0 0) ∧
        jobs w1 = delete "A" (jobs scheduled_world) ∧
        buffered (runCh (rec (cell_at w1 0))) = 0.
Proof.
  assert (jobs scheduled_world !! "A" = Some 0) as Hnm by (vm_compute; reflexivity).
  assert (heap scheduled_world !! 0 = Some (cell_at scheduled_world 0)) as Hc
    by (vm_compute; reflexivity).
  split; [exact Hnm|]. split; [exact Hc|].
  destruct RunJob_result as (_ & H & _).
  destruct (H scheduled_world "A" 0 _ Hnm Hc) as (w1 & H1 & H2 & H3).
  exists w1. split; [exact H1|]. split; [exact H2|].
  unfold cell_at. rewrite H3. vm_compute; reflexivity.
Defined.



(** Claim C7.  The checks of [ScheduleJob] and [SchedulePeriodicJob], in
    the order of the source: [ErrNoJobName] for the empty name; for
    [SchedulePeriodicJob], [ErrNoRuntimeFunc] for a nil [runtimeFunc];
    [ErrNoJobFunc] for a nil [jobFunc]; [ErrJobAlreadyExists] for a name
    that is in the map.  Every call that returns an error leaves the map,
    the records, the runners and the metrics as they were. *)
Theorem schedule_validation w nm (f : option JobFunc) (rf : option RuntimeFunc) :
  (nm = EmptyString → ScheduleJob nm f w = (w, Some ErrNoJobName)) ∧
  (nm ≠ EmptyString → f = None → ScheduleJob nm f w = (w, Some ErrNoJobFunc)) ∧
  (nm ≠ EmptyString → is_Some f → is_Some (jobs w !! nm) →
     ScheduleJob nm f w = (w, Some ErrJobAlreadyExists)) ∧
  (nm = EmptyString → SchedulePeriodicJob nm rf f w = (w, Some ErrNoJobName)) ∧
  (nm ≠ EmptyString → rf = None →
     SchedulePeriodicJob nm rf f w = (w, Some ErrNoRuntimeFunc)) ∧
  (nm ≠ EmptyString → is_Some rf → f = None →
     SchedulePeriodicJob nm rf f w = (w, Some ErrNoJobFunc)) ∧
  (nm ≠ EmptyString → is_Some rf → is_Some f → is_Some (jobs w !! nm) →
     SchedulePeriodicJob nm rf f w = (w, Some ErrJobAlreadyExists)) ∧
  (∀ e, (ScheduleJob nm f w).2 = Some e →
     (ScheduleJob nm f w).1 = w ∧
     (nm = EmptyString ∨ f = None ∨ is_Some (jobs w !! nm))) ∧
  (∀ e, (SchedulePeriodicJob nm rf f w).2 = Some e →
     (SchedulePeriodicJob nm rf f w).1 = w ∧
     (nm = EmptyString ∨ rf = None ∨ f = None ∨ is_Some (jobs w !! nm))).
Proof.
  unfold ScheduleJob, SchedulePeriodicJob. split_and!.
  - intros ->. done.
  - intros Hnm ->. by rewrite bool_decide_eq_false_2.
  - intros Hnm [x ->] [p ->]. by rewrite bool_decide_eq_false_2.
  - intros ->. done.
  - intros Hnm ->. by rewrite bool_decide_eq_false_2.
  - intros Hnm [x ->] ->. by rewrite bool_decide_eq_false_2.
  - intros Hnm [x ->] [y ->] [p ->]. by rewrite bool_decide_eq_false_2.
  - intros e. case_bool_decide; [by auto|]. destruct f; [|by auto].
    destruct (jobs w !! nm) eqn:E; [|done]. intros _. split; [done|]. right. right. by eexists.
  - intros e. case_bool_decide; [by auto|]. destruct rf; [|by auto]. destruct f; [|by auto].
    destruct (jobs w !! nm) eqn:E; [|done]. intros _. split; [done|]. do 3 right. by eexists.
Qed.

(** The theorem of C7 for a second [ScheduleJob] of the name "A". *)
Lemma schedule_validation_witness :
  "A" ≠ EmptyString ∧ is_Some (Some ()) ∧ is_Some (jobs scheduled_world !! "A") ∧
  ScheduleJob "A" (Some ()) scheduled_world = (scheduled_world, Some ErrJobAlreadyExists).
Proof.
  assert (is_Some (jobs scheduled_world !! "A")) as H by (vm_compute; eexists; reflexivity).
  split; [discriminate|]. split; [by eexists|]. split; [exact H|].
  destruct (schedule_validation scheduled_world "A" (Some ()) None) as (_ & _ & H3 & _).
  apply H3; [discriminate|by eexists|exact H].
Defined.

(** Claim C9.  The critical section of [RunJob] and [RunJobIfExists] on
    the name of a periodic job leaves the map as it is, so the job stays
    visible to [JobExists] and [ListJobs]; and no statement that a caller
    executes after that critical section changes the map. *)
Theorem run_keeps_periodic_job :
  (∀ w o nm p c, is_run o → jobs w !! nm = Some p → heap w !! p = Some c →
     periodic (rec c) = true →
     ∃ w1 i, enter o nm w = Some (w1, Found p i) ∧ jobs w1 = jobs w ∧
             JobExists nm w1 = true ∧ nm ∈ ListJobs w1) ∧
  (∀ w p i w', exec (LCaller p i) w = Some w' →
     jobs w' = jobs w ∧ ListJobs w' = ListJobs w ∧ ∀ nm, JobExists nm w' = JobExists nm w).
Proof.
  split.
  - intros w o nm p c Ho Hnm Hc Hper. unfold enter. rewrite Hnm, Hc. simpl.
    rewrite Hper. destruct (is_run o); [|done]. simpl.
    eexists _, _. split; [done|]. simpl. split; [done|]. split.
    + unfold JobExists. simpl. apply bool_decide_eq_true_2. by eexists.
    + unfold ListJobs. simpl. apply list_elem_of_fmap. exists (nm, p). split; [done|].
      by apply elem_of_map_to_list.
  - intros w p i w'. unfold exec, exec_caller, set_panicked.
    destruct (panicked w); [done|]. intros H.
    destruct (heap w !! p) as [c|]; simplify_eq/=.
    destruct (callers c !! i) as [k|]; simplify_eq/=.
    destruct (caller_step i (rec c) (cpc_of k)) as [[j q]| |]; simplify_eq/=; done.
Qed.

(** The theorem of C9 for [RunJob("B")] on the periodic job "B". *)
Lemma run_keeps_periodic_job_witness :
  is_run OpRunJob ∧ jobs periodic_world !! "B" = Some 0 ∧
  heap periodic_world !! 0 = Some (cell_at periodic_world 0) ∧
  periodic (rec (cell_at periodic_world 0)) = true ∧
  ∃ w1 i, enter OpRunJob "B" periodic_world = Some (w1, Found 0 i) ∧
          jobs w1 = jobs periodic_world ∧ JobExists "B" w1 = true ∧ "B" ∈ ListJobs w1.
Proof.
  split; [exact I|]. split; [vm_compute; reflexivity|]. split; [vm_compute; reflexivity|].
  split; [vm_compute; reflexivity|].
  destruct run_keeps_periodic_job as (H & _).
  apply (H periodic_world OpRunJob "B" 0 (cell_at periodic_world 0));
    [exact I|vm_compute; reflexivity..].
Defined.

End Claims.

(** ** The chain ID *)

Import GetLogs.

Section ChainIDProofs.

Local Open Scope Z_scope.

Lemma digit_hex_digit a :
  hex_digit (byte_of a) =
    d ← digit (byte_of a); if bool_decide (16 ≤ d) then None else Some d.
Proof. destruct a as [[] [] [] [] [] [] [] []]; vm_compute; reflexivity. Qed.

Lemma hex_digit_range a d : hex_digit (byte_of a) = Some d → 0 ≤ d < 16.
Proof.
  destruct a as [[] [] [] [] [] [] [] []]; vm_compute; intros [= <-]; split; congruence.
Qed.

Lemma hex_value_ge l : ∀ acc v,
  0 ≤ acc → hex_value (byte_of <$> l) acc = Some v → acc ≤ v.
Proof.
  induction l as [|a l IH]; intros acc v Hacc H; simplify_eq/=; [lia|].
  destruct (hex_digit (byte_of a)) as [d|] eqn:Hd; simplify_eq/=.
  apply hex_digit_range in Hd. apply IH in H; lia.
Qed.

Lemma cutoff_eq : cutoff = 2 ^ 60.
Proof. reflexivity. Qed.

Lemma parse_loop_spec l : ∀ n,
  0 ≤ n < 2 ^ 64 →
  match hex_value (byte_of <$> l) n with
  | Some v =>
      if bool_decide (v < 2 ^ 64) then parse_loop (byte_of <$> l) n = (v, None)
      else ∃ x e, parse_loop (byte_of <$> l) n = (x, Some e)
  | None => ∃ x e, parse_loop (byte_of <$> l) n = (x, Some e)
  end.
Proof.
  induction l as [|a l IH]; intros n Hn; simpl.
  { by rewrite bool_decide_eq_true_2 by lia. }
  pose proof (digit_hex_digit a) as Hhd. rewrite Hhd.
  destruct (digit (byte_of a)) as [d|] eqn:Hd; simpl; [|by eauto].
  simpl in Hhd.
  case_bool_decide as Hd16; simpl; [by eauto|].
  apply hex_digit_range in Hhd.
  change (list_fmap Ascii.ascii Z byte_of l) with (byte_of <$> l).
  case_bool_decide as Hcut; rewrite cutoff_eq in Hcut.
  - destruct (hex_value (byte_of <$> l) (n * 16 + d)) as [v|] eqn:Hv; [|by eauto].
    apply hex_value_ge in Hv; [|lia]. rewrite bool_decide_eq_false_2 by lia. by eauto.
  - rewrite (Z.mod_small (n * 16)) by lia. rewrite (Z.mod_small (n * 16 + d)) by lia.
    rewrite (bool_decide_eq_false_2 (_ ∨ _)) by (unfold maxUint64; lia).
    apply IH. lia.
Qed.

Lemma ParseUint16_spec s :
  match hex_uint64 s with
  | Some v => ParseUint16 s = (v, None) ∧ 0 ≤ v < 2 ^ 64
  | None => ∃ x e, ParseUint16 s = (x, Some e)
  end.
Proof.
  unfold hex_uint64, ParseUint16, bytes. case_bool_decide; [by eauto|].
  pose proof (parse_loop_spec (String.list_ascii_of_string s) 0 ltac:(lia)) as H0.
  destruct (hex_value (byte_of <$> String.list_ascii_of_string s) 0) as [v|] eqn:Hv; simpl; [|done].
  case_bool_decide; [|done]. split; [done|]. apply hex_value_ge in Hv; lia.
Qed.

(** Claim C10.  [chainID] returns 0 and an error when the post fails, when
    there is no body, and when the body does not decode.  Otherwise it
    strips a leading "0x" from the [Result] field; when what is left is a
    base-16 number of 64 bits, it returns its value and no error, and when
    it is not, it returns 0 and an error. *)
Theorem chainID_result (decode : string → option string) :
  chainID decode PostFailed = (0, Some FailedRequest) ∧
  chainID decode PostNil = (0, Some NoResponse) ∧
  (∀ body, decode body = None → chainID decode (PostBody body) = (0, Some FailedDecode)) ∧
  (∀ body result v,
     decode body = Some result → hex_uint64 (TrimPrefix result "0x") = Some v →
     chainID decode (PostBody body) = (v, None) ∧ 0 ≤ v < 2 ^ 64) ∧
  (∀ body result,
     decode body = Some result → hex_uint64 (TrimPrefix result "0x") = None →
     ∃ e, chainID decode (PostBody body) = (0, Some (FailedParse e))) ∧
  (∀ s, TrimPrefix ("0x" +:+ s) "0x" = s) ∧
  (∀ s, cut_prefix "0x" s = None → TrimPrefix s "0x" = s).
Proof.
  split_and!; try done.
  - intros body Hb. simpl. by rewrite Hb.
  - intros body result v Hb Hv. simpl. rewrite Hb.
    pose proof (ParseUint16_spec (TrimPrefix result "0x")) as H. rewrite Hv in H.
    destruct H as [-> ?]. done.
  - intros body result Hb Hv. simpl. rewrite Hb.
    pose proof (ParseUint16_spec (TrimPrefix result "0x")) as H. rewrite Hv in H.
    destruct H as (x & e & ->). by eexists.
  - intros s H. unfold TrimPrefix. by rewrite H.
Qed.

(** The theorem of C10 for the result "0x1f". *)
Lemma chainID_result_witness :
  Some "0x1f" = Some "0x1f" ∧ hex_uint64 (TrimPrefix "0x1f" "0x") = Some 31 ∧
  chainID Some (PostBody "0x1f") = (31, None).
Proof.
  split; [reflexivity|]. split; [vm_compute; reflexivity|].
  destruct (chainID_result Some) as (_ & _ & _ & H & _).
  apply (H "0x1f" "0x1f" 31); [reflexivity|vm_compute; reflexivity].
Defined.

End ChainIDProofs.

(** * More of the service *)

(** ** The records that are in the map *)

Section Registry.

Lemma runner_step_lock b js j r js' j' r' :
  runner_step b js j r = Next (js', j', r') → stateLock j' = stateLock j.
Proof.
  destruct j, r. unfold runner_step, periodic_step, oneoff_step, select, finaliseJob, close.
  intros H. crush_step; done.
Qed.

(** The lock is held only by a caller inside its critical section. *)
Lemma lock_held_by_caller w p c i :
  reachable w → heap w !! p = Some c → stateLock (rec c) = Some i →
  ∃ k, callers c !! i = Some k ∧ holds (cpc_of k).
Proof.
  intros Hr Hc. revert i.
  apply (reachable_cell_invariant
    (λ c, ∀ i, stateLock (rec c) = Some i → ∃ k, callers c !! i = Some k ∧ holds (cpc_of k)))
    with (w := w) (p := p); [done| |done..].
  clear. intros w p c c' _ _ Hok Hm HP i.
  destruct Hm as [->|b js' Hs Hcs|i0 k0 j' q Hk0 Hs ->|f _ ->|o nm Hnm ->]; simpl; auto.
  - rewrite (runner_step_lock _ _ _ _ _ _ _ Hs), Hcs. auto.
  - pose proof (ok_lock _ Hok _ _ Hk0) as Hl0.
    destruct (decide (i = i0)) as [->|Hne].
    + intros Hl. eexists. split; [apply list_lookup_insert_eq; by eapply lookup_lt_Some|]. simpl.
      destruct (rec c) as [lk act fin per cc rc]. simpl in *.
      unfold caller_step, runJob, cancelJob, send in Hs. crush_step; done.
    + intros Hl. rewrite list_lookup_insert_ne by done. apply HP.
      destruct (rec c) as [lk act fin per cc rc]. simpl in *.
      unfold caller_step, runJob, cancelJob, send in Hs. crush_step; try done.
  - intros Hl. destruct (HP _ Hl) as (k & Hk & Hh). exists k. split; [|done].
    by apply lookup_app_l_Some.
Qed.

Lemma live_open c : cell_ok c → finalised (rec c) = false →
  cancelCh (rec c) = make_chan ∧ closed (runCh (rec c)) = false.
Proof.
  intros [_ _ Hsame _ Hcf _ Hcb _ _] Hfin. rewrite Hfin in Hcf, Hcb.
  destruct (cancelCh (rec c)) as [cb [|]]; simpl in *; [by destruct Hcf|].
  split; [|done]. destruct cb; [done|]. destruct Hcb. lia.
Qed.

Lemma live_runner_step b js j r cs js' j' r' :
  cell_ok (Cell j r cs) → live (Cell j r cs) →
  (periodic j = false → cs = [] ∧ pristine_pc (pc r) ∧ active j = false) →
  runner_step b js j r = Next (js', j', r') →
  js' = delete (name r) js ∨ live (Cell j' r' cs).
Proof.
  intros Hok [Hfin Hq Hops] Hone Hs. simpl in *.
  destruct (live_open _ Hok Hfin) as [Hcc Hrc]. simpl in *.
  pose proof (ok_oneoff _ Hok) as Hoo.
  destruct j as [lk act fin per cc [rb rcl]], r as [nm q cd tr rf rn sT sS cn el].
  simpl in *. subst.
  unfold runner_step, periodic_step, oneoff_step, select, ready, finaliseJob, close in Hs.
  destruct per.
  - simpl in Hs. clear Hoo Hone. destruct q; simpl in Hs.
    all: crush_step. all: auto. all: right; by constructor.
  - destruct (Hone eq_refl) as (-> & Hp & ->). clear Hoo Hone. simpl in *. destruct q; simpl in Hs; try done.
    all: crush_step. all: auto. all: right; by constructor.
Qed.

Lemma live_caller_step i j r cs k j' q :
  cell_ok (Cell j r cs) → live (Cell j r cs) → cs !! i = Some k →
  caller_step i j (cpc_of k) = Next (j', q) →
  live (Cell j' r (<[i := Caller (cop k) q]> cs)).
Proof.
  intros Hok [Hfin Hq Hops] Hk Hs. simpl in *.
  pose proof (ok_op _ Hok _ _ Hk) as Hop. pose proof (Hops _ _ Hk) as Hrun.
  constructor; simpl; [|done|].
  - destruct j as [lk act fin per cc rc], k as [o q0]. simpl in *.
    unfold caller_step, runJob, cancelJob, send in Hs.
    destruct o; try done; crush_step; done.
  - intros i' k' Hk'. apply list_lookup_insert_Some in Hk' as [(-> & <- & _)|[_ Hk']]; eauto.
Qed.

Lemma registry_live_step l w w' :
  inv w → registry_live w → exec l w = Some w' → registry_live w'.
Proof.
  intros Hinv HL. pose proof Hinv as [Hp Hc Hr]. unfold exec. rewrite Hp.
  destruct l as [nm f|nm rf f|o nm|p i|p b|p|p]; intros H.
  - simplify_eq. unfold ScheduleJob. crush_step; try done.
    intros nm1 p1 c1. simpl. intros Hn1 Hc1.
    apply lookup_insert_Some in Hn1 as [[<- <-]|[Hne Hn1]].
    + rewrite lookup_app_r, Nat.sub_diag in Hc1 by done. simplify_eq/=. by constructor.
    + destruct (Hr _ _ Hn1) as (c0 & Hc0 & _). rewrite (lookup_app_l_Some _ _ _ _ Hc0) in Hc1.
      simplify_eq. by eapply HL.
  - simplify_eq. unfold SchedulePeriodicJob. crush_step; try done.
    intros nm1 p1 c1. simpl. intros Hn1 Hc1.
    apply lookup_insert_Some in Hn1 as [[<- <-]|[Hne Hn1]].
    + rewrite lookup_app_r, Nat.sub_diag in Hc1 by done. simplify_eq/=. by constructor.
    + destruct (Hr _ _ Hn1) as (c0 & Hc0 & _). rewrite (lookup_app_l_Some _ _ _ _ Hc0) in Hc1.
      simplify_eq. by eapply HL.
  - unfold enter in H. destruct (jobs w !! nm) as [p|] eqn:Hnm; simplify_eq/=; [|done].
    destruct (Hr _ _ Hnm) as (c & Hcp & Hname & Hone). rewrite Hcp in H. simplify_eq/=.
    intros nm1 p1 c1. simpl. intros Hn1 Hc1.
    assert (jobs w !! nm1 = Some p1 ∧ (nm1 = name (task c) → is_run o && periodic (rec c))) as [Hold Hkeep].
    { destruct (is_run o && periodic (rec c)); [done|].
      apply lookup_delete_Some in Hn1 as [? ?]. done. }
    destruct (decide (p1 = p)) as [->|Hne].
    + destruct (HL _ _ _ Hold Hcp) as [Hf Hq Hops].
      destruct (Hr _ _ Hold) as (c0 & Hc0 & Hn0 & _). simplify_eq.
      rewrite list_lookup_insert_eq in Hc1 by (by eapply lookup_lt_Some). simplify_eq.
      constructor; simpl; [done..|].
      intros i k [Hk|[_ Hk]]%lookup_app_Some; [by eauto|].
      apply list_lookup_singleton_Some in Hk as [_ <-]. simpl.
      specialize (Hkeep eq_refl). by destruct (is_run o).
    + rewrite list_lookup_insert_ne in Hc1 by done. by eapply HL.
  - unfold exec_caller in H. destruct (heap w !! p) as [[j r cs]|] eqn:Hcp; simplify_eq/=.
    destruct (cs !! i) as [k|] eqn:Hk; simplify_eq/=.
    pose proof (Forall_lookup_1 _ _ _ _ Hc Hcp) as Hok.
    destruct (caller_step i j (cpc_of k)) as [[j' q]| |] eqn:Hs; simplify_eq/=.
    2:{ by destruct (caller_step_no_panic _ _ _ _ _ Hok Hk). }
    intros nm1 p1 c1. simpl. intros Hn1 Hc1.
    destruct (decide (p1 = p)) as [->|Hne].
    + rewrite list_lookup_insert_eq in Hc1 by (by eapply lookup_lt_Some). simplify_eq.
      eapply live_caller_step; [done| |done..]. by eapply HL.
    + rewrite list_lookup_insert_ne in Hc1 by done. by eapply HL.
  - unfold exec_runner in H. destruct (heap w !! p) as [[j r cs]|] eqn:Hcp; simplify_eq/=.
    pose proof (Forall_lookup_1 _ _ _ _ Hc Hcp) as Hok.
    destruct (runner_step b (jobs w) j r) as [[[js' j'] r']| |] eqn:Hs; simplify_eq/=.
    2:{ by destruct (runner_step_no_panic b (jobs w) _ _ _ Hok). }
    destruct (runner_step_frame _ _ _ _ _ _ _ Hs) as (Hper & Hname & Hjs).
    intros nm1 p1 c1. simpl. intros Hn1 Hc1.
    assert (jobs w !! nm1 = Some p1) as Hold.
    { destruct Hjs as [->| ->]; [done|]. by apply lookup_delete_Some in Hn1 as [_ ?]. }
    destruct (decide (p1 = p)) as [->|Hne].
    + rewrite list_lookup_insert_eq in Hc1 by (by eapply lookup_lt_Some). simplify_eq.
      destruct (Hr _ _ Hold) as (c0 & Hc0 & Hn0 & Hone). simplify_eq/=.
      destruct (live_runner_step _ _ _ _ _ _ _ _ Hok (HL _ _ _ Hold Hcp) Hone Hs) as [->|?]; [|done].
      by rewrite lookup_delete_eq in Hn1.
    + rewrite list_lookup_insert_ne in Hc1 by done. by eapply HL.
  - unfold exec_env in H. destruct (heap w !! p) as [[j r cs]|] eqn:Hcp; simplify_eq/=.
    intros nm1 p1 c1. simpl. intros Hn1 Hc1.
    destruct (decide (p1 = p)) as [->|Hne].
    + rewrite list_lookup_insert_eq in Hc1 by (by eapply lookup_lt_Some). simplify_eq.
      destruct (HL _ _ _ Hn1 Hcp) as [? ? ?]. by constructor.
    + rewrite list_lookup_insert_ne in Hc1 by done. by eapply HL.
  - unfold exec_env in H. destruct (heap w !! p) as [[j r cs]|] eqn:Hcp; simplify_eq/=.
    intros nm1 p1 c1. simpl. intros Hn1 Hc1.
    destruct (decide (p1 = p)) as [->|Hne].
    + rewrite list_lookup_insert_eq in Hc1 by (by eapply lookup_lt_Some). simplify_eq.
      destruct (HL _ _ _ Hn1 Hcp) as [? ? ?]. by constructor.
    + rewrite list_lookup_insert_ne in Hc1 by done. by eapply HL.
Qed.

Lemma reachable_live w : reachable w → registry_live w.
Proof.
  intros [ls Hrun].
  assert (∀ ls w0 w, inv w0 → registry_live w0 → run ls w0 = Some w → registry_live w) as Hgen.
  { clear. induction ls as [|l ls IH]; intros w0 w Hinv H0 Hrun; simplify_eq/=; [done|].
    destruct (exec l w0) as [w1|] eqn:Hl; simplify_eq/=.
    eapply (IH w1 w); [by eapply inv_step|by eapply registry_live_step|done]. }
  eapply (Hgen ls New w); [apply inv_New| |done]. intros nm p c H. done.
Qed.

(** A name that is in the map points to a record of that name, which is
    live. *)
Lemma registered_record w nm p :
  reachable w → jobs w !! nm = Some p →
  ∃ c, heap w !! p = Some c ∧ name (task c) = nm ∧
       (∀ nm', jobs w !! nm' = Some p → nm' = nm) ∧
       finalised (rec c) = false ∧
       cancelCh (rec c) = make_chan ∧ closed (runCh (rec c)) = false ∧
       live_pc (pc (task c)) ∧
       (∀ i k, callers c !! i = Some k → is_run (cop k)) ∧
       (periodic (rec c) = false →
        rec c = new_job false ∧ callers c = [] ∧
        startedOnTimer (task c) = 0 ∧ startedOnSignal (task c) = 0).
Proof.
  intros Hr Hnm. pose proof (reachable_inv _ Hr) as [_ Hcs Hreg].
  destruct (Hreg _ _ Hnm) as (c & Hc & Hname & Hone). exists c.
  pose proof (Forall_lookup_1 _ _ _ _ Hcs Hc) as Hok.
  destruct (reachable_live _ Hr _ _ _ Hnm Hc) as [Hfin Hq Hops].
  destruct (live_open _ Hok Hfin) as [Hcc Hrc].
  split_and!; try done.
  - intros nm' Hnm'. destruct (Hreg _ _ Hnm') as (c' & Hc' & Hname' & _). by simplify_eq.
  - intros Hper. destruct (Hone Hper) as (Hcal & Hpq & Hact).
    destruct (ok_oneoff _ Hok Hper) as [_ Hcnt _ _ Hrun _ _].
    assert (stateLock (rec c) = None) as Hl.
    { destruct (stateLock (rec c)) as [i|] eqn:E; [|done].
      destruct (lock_held_by_caller _ _ _ _ Hr Hc E) as (k & Hk & _). by rewrite Hcal in Hk. }
    assert (buffered (runCh (rec c)) = 0) as Hrb.
    { destruct (buffered (runCh (rec c))) eqn:E; [done|].
      destruct Hrun as (o & _ & Hx); [left; lia|]. by rewrite Hcal in Hx. }
    split_and!; [|done| |].
    + destruct (rec c) as [lk act fin per cc [rb rcl]]. simpl in *. by subst.
    + by destruct (pc (task c)) as [| |[]|[]| | |[]|[]|[]]; simplify_eq/=.
    + by destruct (pc (task c)) as [| |[]|[]| | |[]|[]|[]]; simplify_eq/=.
Qed.

(** X3.  In every state the service can reach, a name that is in the map
    is one that [JobExists] and [ListJobs] give, it points to a record of
    that name and to no other name's record, and the record is live:
    [finalised] is unset, both channels are open and the cancel channel is
    empty, the runner has neither reached [finaliseJob] nor returned, only
    run operations have got hold of the record, and its lock is held, if
    at all, by a run operation on a periodic job; a one-off record that is
    in the map is as [ScheduleJob] made it and its job function has not
    been called. *)
Theorem registered_live w nm p :
  reachable w → jobs w !! nm = Some p →
  JobExists nm w = true ∧ nm ∈ ListJobs w ∧
  ∃ c, heap w !! p = Some c ∧ name (task c) = nm ∧
       (∀ nm', jobs w !! nm' = Some p → nm' = nm) ∧
       finalised (rec c) = false ∧
       cancelCh (rec c) = make_chan ∧ closed (runCh (rec c)) = false ∧
       live_pc (pc (task c)) ∧
       (∀ i k, callers c !! i = Some k → is_run (cop k)) ∧
       (∀ i, stateLock (rec c) = Some i →
          periodic (rec c) = true ∧
          ∃ k, callers c !! i = Some k ∧ is_run (cop k) ∧ holds (cpc_of k)) ∧
       (periodic (rec c) = false →
        rec c = new_job false ∧ callers c = [] ∧
        startedOnTimer (task c) = 0 ∧ startedOnSignal (task c) = 0).
Proof.
  intros Hr Hnm.
  destruct (registered_record _ _ _ Hr Hnm)
    as (c & Hc & Hname & Hinj & Hfin & Hcc & Hrc & Hq & Hops & Hone).
  split_and!.
  - unfold JobExists. apply bool_decide_eq_true_2. by eexists.
  - unfold ListJobs. apply list_elem_of_fmap. exists (nm, p). split; [done|].
    by apply elem_of_map_to_list.
  - exists c. split_and!; try done.
    intros i Hl. destruct (lock_held_by_caller _ _ _ _ Hr Hc Hl) as (k & Hk & Hh).
    split; [|exists k; split_and!; [done|by eapply Hops|done]].
    destruct (periodic (rec c)) eqn:Hper; [done|].
    destruct (Hone eq_refl) as (Hrec & _). rewrite Hrec in Hl. done.
Qed.

(** The theorem of X3 for the scheduled one-off job "A". *)
Lemma registered_live_witness :
  reachable scheduled_world ∧ jobs scheduled_world !! "A" = Some 0 ∧
  ∃ c, heap scheduled_world !! 0 = Some c ∧ name (task c) = "A" ∧
       finalised (rec c) = false.
Proof.
  assert (reachable scheduled_world) as Hr
    by (exists [LScheduleJob "A" (Some ())]; vm_compute; reflexivity).
  assert (jobs scheduled_world !! "A" = Some 0) as Hnm by (vm_compute; reflexivity).
  split; [exact Hr|]. split; [exact Hnm|].
  destruct (registered_live scheduled_world "A" 0 Hr Hnm) as (_ & _ & c & Hc & Hn & _ & Hf & _).
  exists c. split; [exact Hc|]. split; [exact Hn|exact Hf].
Defined.

End Registry.

(** ** The operations executed on their own *)

Section Alone.

Lemma world_cell_id w p c :
  heap w !! p = Some c → panicked w = false →
  World (jobs w) (<[p := c]> (heap w)) (scheduled w) false = w.
Proof. intros Hc Hp. destruct w; simpl in *. subst. by rewrite list_insert_id. Qed.

Lemma complete_alone n : ∀ w p i c k j' q',
  panicked w = false → heap w !! p = Some c → callers c !! i = Some k →
  caller_alone n i (rec c) (cpc_of k) = Next (j', q') →
  complete n p i w =
    World (jobs w)
          (<[p := Cell j' (task c) (<[i := Caller (cop k) q']> (callers c))]> (heap w))
          (scheduled w) false.
Proof.
  assert (∀ w p i c k, panicked w = false → heap w !! p = Some c → callers c !! i = Some k →
    w = World (jobs w)
          (<[p := Cell (rec c) (task c) (<[i := Caller (cop k) (cpc_of k)]> (callers c))]> (heap w))
          (scheduled w) false) as Hid.
  { intros w p i c k Hp Hc Hk. symmetry.
    destruct c as [j r cs], k as [o q]. simpl in *. rewrite (list_insert_id cs) by done.
    by apply world_cell_id. }
  induction n as [|n IH]; intros w p i c k j' q' Hp Hc Hk H.
  { simpl in *. simplify_eq. by apply Hid. }
  cbn [caller_alone complete] in *.
  unfold exec at 1. rewrite Hp. unfold exec_caller. rewrite Hc. cbn [mbind option_bind]. rewrite Hk.
  cbn [mbind option_bind].
  destruct (cpc_of k) as [| | | | | | | |e] eqn:Hq.
  9:{ simplify_eq. cbn [caller_step]. rewrite <- Hq. by apply Hid. }
  all: rewrite <- Hq in *;
    destruct (caller_step i (rec c) (cpc_of k)) as [[j1 q1]| |] eqn:Hs; [|done..];
    erewrite (IH _ p i (Cell j1 (task c) (<[i:=Caller (cop k) q1]> (callers c)))
                 (Caller (cop k) q1)); cbn [jobs heap scheduled panicked rec task callers cop cpc_of];
    [by rewrite list_insert_insert_eq, list_insert_insert_eq
    |done
    |apply list_lookup_insert_eq; by eapply lookup_lt_Some
    |apply list_lookup_insert_eq; by eapply lookup_lt_Some
    |exact H].
Qed.

Lemma call_absent o nm w :
  jobs w !! nm = None →
  call o nm w = Some (w, result_of o (Some ErrNoSuchJob)).
Proof. intros Hnm. unfold call, enter. rewrite Hnm. by destruct o. Qed.

Lemma call_found o nm w p c j' e :
  panicked w = false → jobs w !! nm = Some p → heap w !! p = Some c →
  caller_alone 5 (length (callers c)) (rec c) (entry o) = Next (j', Returned e) →
  call o nm w =
    Some (World (if is_run o && periodic (rec c) then jobs w else delete nm (jobs w))
                (<[p := Cell j' (task c) (callers c ++ [Caller o (Returned e)])]> (heap w))
                (scheduled w) false,
          result_of o e).
Proof.
  intros Hp Hnm Hc Hrun. unfold call, enter. rewrite Hnm, Hc. cbn [mbind option_bind].
  cbv zeta.
  erewrite (complete_alone 5 _ p (length (callers c))
              (Cell (rec c) (task c) (callers c ++ [Caller o (entry o)]))
              (Caller o (entry o)) j' (Returned e));
    cbn [jobs heap scheduled panicked rec task callers cop cpc_of]; [|done| | |done].
  - rewrite list_insert_insert_eq.
    rewrite list_lookup_insert_eq by (by eapply lookup_lt_Some). cbn [mbind option_bind callers].
    rewrite list_lookup_insert_eq by (rewrite length_app; simpl; lia).
    cbn [mbind option_bind cpc_of].
    do 3 f_equal. rewrite insert_app_r_alt, Nat.sub_diag by done. done.
  - apply list_lookup_insert_eq. by eapply lookup_lt_Some.
  - by rewrite lookup_app_r, Nat.sub_diag.
Qed.

Lemma complete_reachable n : ∀ p i w, reachable w → reachable (complete n p i w).
Proof.
  induction n as [|n IH]; intros p i w Hr; simpl; [done|].
  destruct (exec (LCaller p i) w) as [w'|] eqn:Hl; [|done].
  apply IH. apply (reachable_run [LCaller p i] w); [done|]. simpl. by rewrite Hl.
Qed.

Lemma call_reachable o nm w w' e :
  reachable w → call o nm w = Some (w', e) → reachable w'.
Proof.
  intros Hr. unfold call. destruct (enter o nm w) as [[w1 r]|] eqn:He; cbn -[complete]; [|done].
  assert (reachable w1) as Hr1.
  { apply (reachable_run [LEnter o nm] w); [done|]. simpl. unfold exec.
    pose proof (reachable_inv _ Hr) as [-> _ _]. by rewrite He. }
  destruct r as [e0|p i]; [intros ?; by simplify_eq|].
  pose proof (complete_reachable 5 p i w1 Hr1) as Hr2.
  generalize dependent (complete 5 p i w1). intros w2 Hr2.
  destruct (heap w2 !! p) as [c|]; simpl; [|done].
  destruct (callers c !! i) as [k|]; simpl; [|done].
  destruct (cpc_of k); try done. intros ?. by simplify_eq.
Qed.

(** A cancel operation on a registered record whose lock is free. *)
Lemma call_cancel o nm w p c :
  reachable w → is_run o = false → jobs w !! nm = Some p → heap w !! p = Some c →
  stateLock (rec c) = None →
  call o nm w =
    Some (World (delete nm (jobs w)) (<[p := cancelled_cell o c]> (heap w)) (scheduled w) false,
          None).
Proof.
  intros Hr Ho Hnm Hc Hl.
  pose proof (reachable_inv _ Hr) as [Hp _ _].
  destruct (registered_record _ _ _ Hr Hnm) as (c0 & Hc0 & _ & _ & Hfin & Hcc & _).
  simplify_eq.
  rewrite (call_found o nm w p c
             (Job None (active (rec c)) true (periodic (rec c)) (Chan 1 false) (runCh (rec c)))
             None Hp Hnm Hc).
  - rewrite Ho. simpl. by destruct o.
  - unfold entry. rewrite Ho.
    destruct (rec c) as [lk act fin per cc rc]. simpl in *. subst. reflexivity.
Qed.

(** X1.  [ListJobs] gives every name of the map once, and the names it
    gives are those for which [JobExists] is true. *)
Theorem ListJobs_JobExists w :
  NoDup (ListJobs w) ∧
  length (ListJobs w) = size (jobs w) ∧
  ∀ nm, nm ∈ ListJobs w ↔ JobExists nm w = true.
Proof.
  unfold ListJobs, JobExists. split_and!.
  - apply NoDup_fst_map_to_list.
  - by rewrite length_fmap, length_map_to_list.
  - intros nm. rewrite bool_decide_eq_true. split.
    + intros [[nm' p] [-> Hin]]%list_elem_of_fmap. apply elem_of_map_to_list in Hin. by eexists.
    + intros [p Hp]. apply list_elem_of_fmap. exists (nm, p). split; [done|].
      by apply elem_of_map_to_list.
Qed.

(** X2.  A call of [ScheduleJob] or [SchedulePeriodicJob] with a name that
    is not empty and not in the map, and with its callables, returns nil
    and registers the name: [JobExists] is true of it, [ListJobs] has it
    and the names it had, every other name points where it did, the
    records that exist stay as they are, and the name points to a new
    record, with its flags unset and its channels empty, whose runner is
    at its [select], or at the head of its loop for a periodic job. *)
Theorem schedule_registers w nm f rf :
  nm ≠ EmptyString → jobs w !! nm = None →
  let w1 := (ScheduleJob nm (Some f) w).1 in
  let w2 := (SchedulePeriodicJob nm (Some rf) (Some f) w).1 in
  (ScheduleJob nm (Some f) w).2 = None ∧
  (SchedulePeriodicJob nm (Some rf) (Some f) w).2 = None ∧
  JobExists nm w1 = true ∧ JobExists nm w2 = true ∧
  ListJobs w1 ≡ₚ nm :: ListJobs w ∧ ListJobs w2 ≡ₚ nm :: ListJobs w ∧
  (∀ nm', nm' ≠ nm → jobs w1 !! nm' = jobs w !! nm' ∧ jobs w2 !! nm' = jobs w !! nm') ∧
  (∀ p c, heap w !! p = Some c → heap w1 !! p = Some c ∧ heap w2 !! p = Some c) ∧
  heap w1 !! length (heap w) = Some (new_cell false nm (λ _, RtTime)) ∧
  heap w2 !! length (heap w) = Some (new_cell true nm rf) ∧
  jobs w1 !! nm = Some (length (heap w)) ∧ jobs w2 !! nm = Some (length (heap w)).
Proof.
  intros Hnm Hfree. unfold ScheduleJob, SchedulePeriodicJob.
  rewrite bool_decide_eq_false_2 by done. rewrite Hfree. simpl.
  unfold JobExists, ListJobs. simpl. rewrite !lookup_insert_eq.
  split_and!; try done.
  all: try (by rewrite map_to_list_insert).
  all: try (by rewrite lookup_app_r, Nat.sub_diag).
  - intros nm' Hne. by rewrite !lookup_insert_ne.
  - intros p c Hc. split; by apply lookup_app_l_Some.
Qed.

(** The theorem of X2 for the name "A" in the new service. *)
Lemma schedule_registers_witness :
  "A" ≠ EmptyString ∧ jobs New !! "A" = None ∧
  (ScheduleJob "A" (Some ()) New).2 = None ∧
  JobExists "A" (ScheduleJob "A" (Some ()) New).1 = true.
Proof.
  assert ("A" ≠ EmptyString) as Hne by discriminate.
  assert (jobs New !! "A" = None) as Hfree by (vm_compute; reflexivity).
  split; [exact Hne|]. split; [exact Hfree|].
  destruct (schedule_registers New "A" () rf_twice Hne Hfree) as (H1 & _ & H3 & _).
  split; [exact H1|exact H3].
Defined.

(** X4.  [RunJob] on the name of a one-off job that is in the map,
    executed on its own in any state the service can reach, returns nil:
    it removes the name, sets [active] and leaves one signal in the run
    channel, the lock free and every other record as it was; after it
    [RunJob] and [CancelJob] of the name return [ErrNoSuchJob] and
    [RunJobIfExists] does nothing. *)
Theorem RunJob_oneoff_alone w nm p c :
  reachable w → jobs w !! nm = Some p → heap w !! p = Some c →
  periodic (rec c) = false →
  ∃ w1,
    call OpRunJob nm w = Some (w1, None) ∧
    jobs w1 = delete nm (jobs w) ∧ JobExists nm w1 = false ∧
    heap w1 !! p =
      Some (Cell (Job None true false false make_chan (Chan 1 false)) (task c)
                 [Caller OpRunJob (Returned None)]) ∧
    (∀ p' c', p' ≠ p → heap w !! p' = Some c' → heap w1 !! p' = Some c') ∧
    call OpRunJob nm w1 = Some (w1, Some ErrNoSuchJob) ∧
    call OpRunJobIfExists nm w1 = Some (w1, None) ∧
    call OpCancelJob nm w1 = Some (w1, Some ErrNoSuchJob).
Proof.
  intros Hr Hnm Hc Hper.
  destruct (registered_record _ _ _ Hr Hnm) as (c0 & Hc0 & _ & _ & _ & _ & _ & _ & _ & Hone).
  simplify_eq. destruct (Hone Hper) as (Hrec & Hcal & _).
  pose proof (reachable_inv _ Hr) as [Hp _ _].
  eexists. split.
  { erewrite (call_found OpRunJob nm w p c); [reflexivity|done..|]. rewrite Hrec, Hcal. reflexivity. }
  rewrite Hper, Hcal, andb_false_r. simpl.
  assert (delete nm (jobs w) !! nm = None) as Hgone by apply lookup_delete_eq.
  split_and!; try done.
  - unfold JobExists. simpl. apply bool_decide_eq_false_2. rewrite Hgone. by intros [? ?].
  - apply list_lookup_insert_eq. by eapply lookup_lt_Some.
  - intros p' c' Hne Hc'. by rewrite list_lookup_insert_ne.
  - by apply call_absent.
  - by apply call_absent.
  - by apply call_absent.
Qed.

(** The theorem of X4 for [RunJob("A")] on the scheduled job "A". *)
Lemma RunJob_oneoff_alone_witness :
  reachable scheduled_world ∧ jobs scheduled_world !! "A" = Some 0 ∧
  heap scheduled_world !! 0 = Some (cell_at scheduled_world 0) ∧
  periodic (rec (cell_at scheduled_world 0)) = false ∧
  ∃ w1, call OpRunJob "A" scheduled_world = Some (w1, None) ∧ JobExists "A" w1 = false.
Proof.
  assert (reachable scheduled_world) as Hr
    by (exists [LScheduleJob "A" (Some ())]; vm_compute; reflexivity).
  assert (jobs scheduled_world !! "A" = Some 0) as Hnm by (vm_compute; reflexivity).
  assert (heap scheduled_world !! 0 = Some (cell_at scheduled_world 0)) as Hc
    by (vm_compute; reflexivity).
  split; [exact Hr|]. split; [exact Hnm|]. split; [exact Hc|]. split; [vm_compute; reflexivity|].
  destruct (RunJob_oneoff_alone scheduled_world "A" 0 _ Hr Hnm Hc eq_refl)
    as (w1 & H1 & _ & H3 & _).
  exists w1. split; [exact H1|exact H3].
Defined.

(** X5.  [RunJob] on the name of a periodic job whose lock is free, whose
    [active] is unset and whose run channel is empty, executed on its own,
    returns nil: the name stays in the map, [active] is set and one signal
    is in the run channel.  A second [RunJob], before the runner has taken
    the signal, returns [ErrJobRunning] and leaves the record as it is, and
    [RunJobIfExists] does the same and returns nothing. *)
Theorem RunJob_periodic_alone w nm p c :
  reachable w → jobs w !! nm = Some p → heap w !! p = Some c →
  periodic (rec c) = true → stateLock (rec c) = None →
  active (rec c) = false → buffered (runCh (rec c)) = 0 →
  ∃ w1 c1,
    call OpRunJob nm w = Some (w1, None) ∧ jobs w1 = jobs w ∧
    heap w1 !! p = Some c1 ∧
    rec c1 = Job None true false true (cancelCh (rec c)) (Chan 1 false) ∧ task c1 = task c ∧
    ∀ o, is_run o →
      ∃ w2 c2,
        call o nm w1 = Some (w2, result_of o (Some ErrJobRunning)) ∧ jobs w2 = jobs w ∧
        heap w2 !! p = Some c2 ∧ rec c2 = rec c1 ∧ task c2 = task c.
Proof.
  intros Hr Hnm Hc Hper Hl Hact Hbuf.
  pose proof (reachable_inv _ Hr) as [Hp _ _].
  destruct (registered_record _ _ _ Hr Hnm) as (c0 & Hc0 & _ & _ & Hfin & _ & Hcl & _).
  simplify_eq.
  destruct c as [[lk act fin per cc [rb rcl]] r cs]. simpl in *. subst.
  set (j1 := Job None true false true cc (Chan 1 false)).
  set (c1 := Cell j1 r (cs ++ [Caller OpRunJob (Returned None)])).
  set (w1 := World (jobs w) (<[p := c1]> (heap w)) (scheduled w) false).
  assert (heap w1 !! p = Some c1) as Hc1.
  { apply list_lookup_insert_eq. by eapply lookup_lt_Some. }
  exists w1, c1. split.
  { rewrite (call_found OpRunJob nm w p _ j1 None Hp Hnm Hc); [done|]. reflexivity. }
  split_and!; try done.
  intros o Ho.
  exists (World (jobs w)
            (<[p := Cell j1 r (callers c1 ++ [Caller o (Returned (Some ErrJobRunning))])]> (heap w1))
            (scheduled w) false),
         (Cell j1 r (callers c1 ++ [Caller o (Returned (Some ErrJobRunning))])).
  split.
  { rewrite (call_found o nm w1 p c1 j1 (Some ErrJobRunning)); try done.
    - simpl. by destruct o.
    - by destruct o. }
  split_and!; try done. simpl.
  rewrite list_insert_insert_eq. apply list_lookup_insert_eq. by eapply lookup_lt_Some.
Qed.

(** The theorem of X5 for [RunJob("B")] on the periodic job "B". *)
Lemma RunJob_periodic_alone_witness :
  reachable periodic_world ∧ jobs periodic_world !! "B" = Some 0 ∧
  heap periodic_world !! 0 = Some (cell_at periodic_world 0) ∧
  ∃ w1 w2, call OpRunJob "B" periodic_world = Some (w1, None) ∧
           JobExists "B" w1 = true ∧
           call OpRunJob "B" w1 = Some (w2, Some ErrJobRunning).
Proof.
  assert (reachable periodic_world) as Hr
    by (exists [LSchedulePeriodicJob "B" (Some rf_twice) (Some ())]; vm_compute; reflexivity).
  assert (jobs periodic_world !! "B" = Some 0) as Hnm by (vm_compute; reflexivity).
  assert (heap periodic_world !! 0 = Some (cell_at periodic_world 0)) as Hc
    by (vm_compute; reflexivity).
  split; [exact Hr|]. split; [exact Hnm|]. split; [exact Hc|].
  destruct (RunJob_periodic_alone periodic_world "B" 0 _ Hr Hnm Hc
              eq_refl eq_refl eq_refl eq_refl) as (w1 & c1 & H1 & H2 & _ & _ & _ & H6).
  destruct (H6 OpRunJob I) as (w2 & c2 & H7 & _).
  exists w1, w2. split; [exact H1|]. split; [|exact H7].
  unfold JobExists. rewrite H2. vm_compute; reflexivity.
Defined.

(** X6.  [CancelJob] on a name that is in the map, executed on its own
    from a free lock in any state the service can reach, returns nil: it
    removes the name, sets [finalised] and leaves one signal in the cancel
    channel (it never finds the record finalised), touches no other field
    and no other record; after it [CancelJob] and [RunJob] of the name
    return [ErrNoSuchJob], [CancelJobIfExists] does nothing, and the name
    can be scheduled again. *)
Theorem CancelJob_alone w nm p c :
  reachable w → jobs w !! nm = Some p → heap w !! p = Some c →
  stateLock (rec c) = None →
  ∃ w1,
    call OpCancelJob nm w = Some (w1, None) ∧
    jobs w1 = delete nm (jobs w) ∧ JobExists nm w1 = false ∧
    heap w1 !! p =
      Some (Cell (Job None (active (rec c)) true (periodic (rec c)) (Chan 1 false) (runCh (rec c)))
                 (task c) (callers c ++ [Caller OpCancelJob (Returned None)])) ∧
    (∀ p' c', p' ≠ p → heap w !! p' = Some c' → heap w1 !! p' = Some c') ∧
    call OpCancelJob nm w1 = Some (w1, Some ErrNoSuchJob) ∧
    call OpCancelJobIfExists nm w1 = Some (w1, None) ∧
    call OpRunJob nm w1 = Some (w1, Some ErrNoSuchJob) ∧
    ∀ f, (ScheduleJob nm (Some f) w1).2 =
           if bool_decide (nm = EmptyString) then Some ErrNoJobName else None.
Proof.
  intros Hr Hnm Hc Hl.
  pose proof (reachable_inv _ Hr) as [Hp _ _].
  destruct (registered_record _ _ _ Hr Hnm) as (c0 & Hc0 & _ & _ & Hfin & Hcc & _).
  simplify_eq.
  assert (delete nm (jobs w) !! nm = None) as Hgone by apply lookup_delete_eq.
  set (j1 := Job None (active (rec c)) true (periodic (rec c)) (Chan 1 false) (runCh (rec c))).
  exists (World (delete nm (jobs w))
                (<[p := Cell j1 (task c) (callers c ++ [Caller OpCancelJob (Returned None)])]> (heap w))
                (scheduled w) false).
  split.
  { rewrite (call_found OpCancelJob nm w p c j1 None Hp Hnm Hc); [done|].
    destruct (rec c) as [lk act fin per cc rc]. simpl in *. subst. reflexivity. }
  simpl. split_and!; try done.
  - unfold JobExists. simpl. apply bool_decide_eq_false_2. rewrite Hgone. by intros [? ?].
  - apply list_lookup_insert_eq. by eapply lookup_lt_Some.
  - intros p' c' Hne Hc'. by rewrite list_lookup_insert_ne.
  - by apply call_absent.
  - by apply call_absent.
  - by apply call_absent.
  - intros f. unfold ScheduleJob. simpl. case_bool_decide; [done|]. by rewrite Hgone.
Qed.

(** The theorem of X6 for [CancelJob("A")] on the scheduled job "A". *)
Lemma CancelJob_alone_witness :
  reachable scheduled_world ∧ jobs scheduled_world !! "A" = Some 0 ∧
  heap scheduled_world !! 0 = Some (cell_at scheduled_world 0) ∧
  stateLock (rec (cell_at scheduled_world 0)) = None ∧
  ∃ w1, call OpCancelJob "A" scheduled_world = Some (w1, None) ∧ JobExists "A" w1 = false.
Proof.
  assert (reachable scheduled_world) as Hr
    by (exists [LScheduleJob "A" (Some ())]; vm_compute; reflexivity).
  assert (jobs scheduled_world !! "A" = Some 0) as Hnm by (vm_compute; reflexivity).
  assert (heap scheduled_world !! 0 = Some (cell_at scheduled_world 0)) as Hc
    by (vm_compute; reflexivity).
  split; [exact Hr|]. split; [exact Hnm|]. split; [exact Hc|]. split; [vm_compute; reflexivity|].
  destruct (CancelJob_alone scheduled_world "A" 0 _ Hr Hnm Hc eq_refl)
    as (w1 & H1 & _ & H3 & _).
  exists w1. split; [exact H1|exact H3].
Defined.

Lemma cancel_each_spec names : ∀ w,
  reachable w → NoDup names →
  (∀ nm, nm ∈ names → ∃ p c, jobs w !! nm = Some p ∧ heap w !! p = Some c ∧
                              stateLock (rec c) = None) →
  ∃ w', cancel_each names w = Some w' ∧ reachable w' ∧
        scheduled w' = scheduled w ∧ length (heap w') = length (heap w) ∧
        (∀ nm, jobs w' !! nm = if bool_decide (nm ∈ names) then None else jobs w !! nm) ∧
        (∀ nm p c, nm ∈ names → jobs w !! nm = Some p → heap w !! p = Some c →
                   heap w' !! p = Some (cancelled_cell OpCancelJobIfExists c)) ∧
        (∀ p c, heap w !! p = Some c → (∀ nm, nm ∈ names → jobs w !! nm ≠ Some p) →
                heap w' !! p = Some c).
Proof.
  induction names as [|nm names IH]; intros w Hr Hnd Hall.
  { exists w. split_and!; try done. intros nm ? ? H. by apply elem_of_nil in H. }
  inversion Hnd as [|? ? Hnin Hnd']; subst. clear Hnd. rename Hnd' into Hnd.
  destruct (Hall nm) as (p & c & Hnm & Hc & Hl); [by left|].
  pose proof (call_cancel OpCancelJobIfExists nm w p c Hr eq_refl Hnm Hc Hl) as Hcall.
  pose proof (call_reachable _ _ _ _ _ Hr Hcall) as Hr1.
  set (w1 := World (delete nm (jobs w)) (<[p := cancelled_cell OpCancelJobIfExists c]> (heap w))
                   (scheduled w) false) in *.
  pose proof (reachable_inv _ Hr) as [_ _ Hreg].
  assert (∀ nm' p', jobs w !! nm' = Some p' → nm' ≠ nm → p' ≠ p) as Hinj.
  { intros nm' p' Hnm' Hne ->.
    destruct (Hreg _ _ Hnm) as (c1 & Hc1 & Hn1 & _).
    destruct (Hreg _ _ Hnm') as (c2 & Hc2 & Hn2 & _). simplify_eq. }
  destruct (IH w1 Hr1 Hnd) as (w' & Hce & Hr' & Hsc & Hlen & Hjobs & Hcan & Hoth).
  { intros nm' Hin. destruct (Hall nm') as (p' & c' & Hnm' & Hc' & Hl'); [by right|].
    assert (nm' ≠ nm) as Hne by (intros ->; done).
    exists p', c'. simpl. rewrite lookup_delete_ne by done.
    rewrite list_lookup_insert_ne; [done|]. intros <-. by eapply Hinj. }
  exists w'. split_and!.
  - simpl. rewrite Hcall. simpl. exact Hce.
  - done.
  - by rewrite Hsc.
  - rewrite Hlen. simpl. by rewrite length_insert.
  - intros nm'. rewrite Hjobs. simpl.
    destruct (decide (nm' = nm)) as [->|Hne].
    + rewrite (bool_decide_eq_true_2 (nm ∈ nm :: names)) by by left.
      rewrite lookup_delete_eq. by destruct (bool_decide (nm ∈ names)).
    + rewrite lookup_delete_ne by done.
      destruct (bool_decide (nm' ∈ names)) eqn:E.
      * apply bool_decide_eq_true in E. by rewrite bool_decide_eq_true_2 by by right.
      * apply bool_decide_eq_false in E. rewrite bool_decide_eq_false_2; [done|].
        intros [?|?]%elem_of_cons; done.
  - intros nm' p' c' [->|Hin]%elem_of_cons Hnm' Hc'.
    + simplify_eq. apply Hoth.
      * simpl. apply list_lookup_insert_eq. by eapply lookup_lt_Some.
      * intros nm' Hin. simpl. intros Hx. apply lookup_delete_Some in Hx as [Hne Hx].
        by eapply Hinj.
    + assert (nm' ≠ nm) as Hne by (intros ->; done).
      apply (Hcan nm'); [done|by simpl; rewrite lookup_delete_ne|].
      simpl. rewrite list_lookup_insert_ne; [done|]. intros <-. by eapply Hinj.
  - intros p' c' Hc' Hno.
    assert (p' ≠ p) as Hne. { intros ->. eapply (Hno nm); [by left|done]. }
    apply Hoth.
    + simpl. by rewrite list_lookup_insert_ne.
    + intros nm' Hin. simpl. intros Hx. apply lookup_delete_Some in Hx as [_ Hx].
      eapply (Hno nm'); [by right|done].
Qed.

Lemma matching_spec prefix w nm :
  nm ∈ matching prefix w ↔ is_Some (jobs w !! nm) ∧ HasPrefix nm prefix.
Proof.
  unfold matching. rewrite list_elem_of_filter. unfold ListJobs.
  rewrite list_elem_of_fmap. split.
  - intros [Hp ([nm' p] & -> & Hin)]. apply elem_of_map_to_list in Hin. split; [by eexists|done].
  - intros [[p Hp] Hpre]. split; [done|]. exists (nm, p). split; [done|].
    by apply elem_of_map_to_list.
Qed.

(** X7.  [CancelJobs], executed on its own in a state the service can
    reach in which the locks of the records it is to cancel are free:
    whatever the order in which the map gives the names, it returns, in
    the same state; the names with the prefix are no longer in the map
    and the others are as they were; every record whose name had the
    prefix has [finalised] set and one signal in its cancel channel, and
    every other record is as it was. *)
Theorem CancelJobs_alone w prefix names :
  reachable w →
  (∀ nm p c, jobs w !! nm = Some p → HasPrefix nm prefix → heap w !! p = Some c →
             stateLock (rec c) = None) →
  names ≡ₚ matching prefix w →
  ∃ w', cancel_each names w = Some w' ∧ CancelJobs prefix w = Some w' ∧
        (∀ nm, jobs w' !! nm = if HasPrefix nm prefix then None else jobs w !! nm) ∧
        (∀ nm, JobExists nm w' = JobExists nm w && negb (HasPrefix nm prefix)) ∧
        (∀ nm p c, jobs w !! nm = Some p → heap w !! p = Some c →
           heap w' !! p =
             Some (if HasPrefix nm prefix then cancelled_cell OpCancelJobIfExists c else c)) ∧
        (∀ p c, heap w !! p = Some c → (∀ nm, jobs w !! nm ≠ Some p) → heap w' !! p = Some c) ∧
        scheduled w' = scheduled w.
Proof.
  intros Hr Hfree Hperm.
  assert (∀ names, names ≡ₚ matching prefix w →
    ∃ w', cancel_each names w = Some w' ∧ reachable w' ∧
          length (heap w') = length (heap w) ∧
          (∀ nm, jobs w' !! nm = if HasPrefix nm prefix then None else jobs w !! nm) ∧
          (∀ nm p c, jobs w !! nm = Some p → heap w !! p = Some c →
             heap w' !! p =
               Some (if HasPrefix nm prefix then cancelled_cell OpCancelJobIfExists c else c)) ∧
          (∀ p c, heap w !! p = Some c → (∀ nm, jobs w !! nm ≠ Some p) → heap w' !! p = Some c) ∧
          scheduled w' = scheduled w) as Hgen.
  { clear names Hperm. intros names Hperm.
    assert (∀ nm, nm ∈ names ↔ is_Some (jobs w !! nm) ∧ HasPrefix nm prefix) as Hin.
    { intros nm. rewrite Hperm. apply matching_spec. }
    destruct (cancel_each_spec names w Hr) as (w' & Hce & Hr' & Hsc & Hlen & Hjobs & Hcan & Hoth).
    { rewrite Hperm. unfold matching. apply list.NoDup_filter. unfold ListJobs.
      apply NoDup_fst_map_to_list. }
    { intros nm [[p Hp] Hpre]%Hin.
      pose proof (reachable_inv _ Hr) as [_ _ Hreg].
      destruct (Hreg _ _ Hp) as (c & Hc & _). exists p, c. split_and!; [done..|].
      by eapply Hfree. }
    pose proof (reachable_inv _ Hr) as [_ _ Hreg].
    exists w'. split_and!; try done.
    - intros nm. rewrite Hjobs. destruct (HasPrefix nm prefix) eqn:Hpre.
      + case_bool_decide as Hn; [done|]. destruct (jobs w !! nm) eqn:E; [|done].
        destruct Hn. apply Hin. split; [by eexists|by rewrite Hpre].
      + rewrite bool_decide_eq_false_2; [done|]. intros [_ H]%Hin. by rewrite Hpre in H.
    - intros nm p c Hnm Hc. destruct (HasPrefix nm prefix) eqn:Hpre.
      + apply (Hcan nm); [|done..]. apply Hin. split; [by eexists|by rewrite Hpre].
      + apply Hoth; [done|]. intros nm' [_ Hpre']%Hin Hnm'.
        destruct (Hreg _ _ Hnm) as (c1 & Hc1 & Hn1 & _).
        destruct (Hreg _ _ Hnm') as (c2 & Hc2 & Hn2 & _). simplify_eq.
        by rewrite Hpre in Hpre'.
    - intros p c Hc Hno. apply Hoth; [done|]. intros nm _. apply Hno. }
  destruct (Hgen names Hperm) as (w' & Hce & Hr' & Hlen & Hjobs & Hcells & Hoth & Hsc).
  destruct (Hgen (matching prefix w) ltac:(done)) as (w2 & Hce2 & Hr2 & Hlen2 & Hjobs2 & Hcells2 & Hoth2 & Hsc2).
  assert (w2 = w') as ->.
  { pose proof (reachable_inv _ Hr') as [Hp' _ _]. pose proof (reachable_inv _ Hr2) as [Hp2 _ _].
    destruct w' as [js' h' sc' pn'], w2 as [js2 h2 sc2 pn2]. simpl in *. subst. f_equal.
    - apply map_eq. intros nm. by rewrite Hjobs, Hjobs2.
    - apply list_eq. intros p. destruct (heap w !! p) as [c|] eqn:Hc.
      + destruct (decide (jobs w !! name (task c) = Some p)) as [Hnm|Hno].
        * by rewrite (Hcells _ _ _ Hnm Hc), (Hcells2 _ _ _ Hnm Hc).
        * pose proof (reachable_inv _ Hr) as [_ _ Hreg].
          rewrite (Hoth _ _ Hc), (Hoth2 _ _ Hc); [done|..]; intros nm Hnm; apply Hno;
            destruct (Hreg _ _ Hnm) as (c1 & Hc1 & Hn1 & _); by simplify_eq.
      + apply lookup_ge_None in Hc.
        rewrite (proj2 (lookup_ge_None h' p)), (proj2 (lookup_ge_None h2 p)); [done|lia..]. }
  exists w'. split_and!; try done.
  intros nm. unfold JobExists. rewrite Hjobs.
  destruct (HasPrefix nm prefix); simpl; [|by rewrite andb_true_r].
  by rewrite andb_false_r.
Qed.

(** The theorem of X7 for the prefix "a" and the jobs "ab", "ac" and "b". *)
Lemma CancelJobs_alone_witness :
  reachable three_jobs_world ∧
  matching "a" three_jobs_world ≡ₚ ["ab"; "ac"] ∧
  ∃ w', CancelJobs "a" three_jobs_world = Some w' ∧
        ListJobs w' = ["b"] ∧
        JobExists "ab" w' = false ∧ JobExists "ac" w' = false ∧ JobExists "b" w' = true.
Proof.
  assert (reachable three_jobs_world) as Hr.
  { exists [LScheduleJob "ab" (Some ());
            LSchedulePeriodicJob "ac" (Some rf_twice) (Some ());
            LScheduleJob "b" (Some ())]. vm_compute; reflexivity. }
  split; [exact Hr|].
  assert (matching "a" three_jobs_world ≡ₚ ["ab"; "ac"]) as Hm.
  { vm_compute. first [reflexivity | apply perm_swap]. }
  split; [exact Hm|].
  destruct (CancelJobs_alone three_jobs_world "a" (matching "a" three_jobs_world) Hr)
    as (w' & _ & Hcj & Hjobs & Hje & _).
  - intros nm p c _ _ Hc.
    assert (Forall (λ c, stateLock (rec c) = None) (heap three_jobs_world)) as Hall
      by (vm_compute; repeat constructor).
    exact (Forall_lookup_1 _ _ _ _ Hall Hc).
  - reflexivity.
  - exists w'. split; [exact Hcj|].
    split.
    { vm_compute in Hcj. injection Hcj as <-. vm_compute; reflexivity. }
    rewrite !Hje. split; [|split]; vm_compute; reflexivity.
Defined.

End Alone.

(** ** The goroutines together *)

Section Together.

Lemma runner_step_finalised b js j r js' j' r' :
  runner_step b js j r = Next (js', j', r') →
  finalised j' = finalised j ∨ stateLock j = None ∧ finalised j' = true.
Proof.
  destruct j, r. unfold runner_step, periodic_step, oneoff_step, select, finaliseJob, close.
  intros H. crush_step; auto.
Qed.

Lemma caller_step_finalised i j q j' q' :
  caller_step i j q = Next (j', q') →
  finalised j' = finalised j ∨ q = CancelAtFinalised ∧ finalised j' = true.
Proof.
  destruct j. unfold caller_step, runJob, cancelJob, send.
  intros H. crush_step; auto.
Qed.

(** A run operation that has passed its check of [finalised] holds the
    lock, so [finalised] stays unset until it has sent. *)
Lemma run_sends_not_finalised w p c i k :
  reachable w → heap w !! p = Some c →
  callers c !! i = Some k → is_run (cop k) → sends (cpc_of k) →
  finalised (rec c) = false.
Proof.
  intros Hr Hc. revert i k.
  apply (reachable_cell_invariant
    (λ c, ∀ i k, callers c !! i = Some k → is_run (cop k) → sends (cpc_of k) →
          finalised (rec c) = false))
    with (w := w) (p := p); [by intros ? ? ? [|?] ?| |done..].
  clear. intros w p c c' _ _ Hok Hm HP i k Hk Ho Hs.
  destruct Hm as [->|b js' Hst Hcs|i0 k0 j' q Hk0 Hst ->|f [-> | ->] ->|o nm Hnm ->]; simpl in *.
  - eauto.
  - rewrite Hcs in Hk.
    pose proof (ok_lock _ Hok _ _ Hk (sends_holds _ Hs)) as Hl.
    destruct (runner_step_finalised _ _ _ _ _ _ _ Hst) as [->|[Hn _]]; [by eauto|congruence].
  - destruct (decide (i = i0)) as [->|Hne].
    + rewrite list_lookup_insert_eq in Hk by (by eapply lookup_lt_Some). simplify_eq. simpl in *.
      pose proof (ok_op _ Hok _ _ Hk0) as Hop.
      specialize (HP _ _ Hk0 Ho).
      destruct (rec c) as [lk act fin per cc rc], k0 as [o0 q0]. simpl in *.
      unfold caller_step, runJob, cancelJob, send in Hst.
      destruct q0; simpl in *; crush_step; try done; auto.
      all: by destruct o0.
    + rewrite list_lookup_insert_ne in Hk by done.
      pose proof (ok_lock _ Hok _ _ Hk (sends_holds _ Hs)) as Hl.
      destruct (caller_step_finalised _ _ _ _ _ Hst) as [->|[Hq _]]; [by eauto|].
      pose proof (ok_lock _ Hok _ _ Hk0) as Hl0. rewrite Hq in Hl0. specialize (Hl0 I).
      congruence.
  - eauto.
  - eauto.
  - apply lookup_app_Some in Hk as [Hk|[_ Hk]]; [by eauto|].
    apply list_lookup_singleton_Some in Hk as [_ <-]. simpl in Hs.
    unfold entry in Hs. by destruct (is_run o).
Qed.

Lemma runner_step_finalised_mono b js j r js' j' r' :
  runner_step b js j r = Next (js', j', r') → finalised j = true → finalised j' = true.
Proof.
  intros Hs Hf. destruct (runner_step_finalised _ _ _ _ _ _ _ Hs) as [->|[_ ->]]; done.
Qed.

Lemma caller_step_finalised_mono i j q j' q' :
  caller_step i j q = Next (j', q') → finalised j = true → finalised j' = true.
Proof.
  intros Hs Hf. destruct (caller_step_finalised _ _ _ _ _ Hs) as [->|[_ ->]]; done.
Qed.

(** X8.  The state lock gives mutual exclusion.  In every state the
    service can reach, a caller that is inside the critical section of
    [runJob] or of [CancelJob] holds the lock of the record, the lock is
    held by such a caller only, so no two callers of a record are inside
    their critical sections, and [finaliseJob] executes only when none
    is. *)
Theorem stateLock_exclusion w p c :
  reachable w → heap w !! p = Some c →
  (∀ i k, callers c !! i = Some k → holds (cpc_of k) → stateLock (rec c) = Some i) ∧
  (∀ i, stateLock (rec c) = Some i → ∃ k, callers c !! i = Some k ∧ holds (cpc_of k)) ∧
  (∀ i i' k k', callers c !! i = Some k → callers c !! i' = Some k' →
     holds (cpc_of k) → holds (cpc_of k') → i = i') ∧
  (∀ cz b w', pc (task c) = AtFinalise cz → exec (LRunner p b) w = Some w' →
     ∀ i k, callers c !! i = Some k → holds (cpc_of k) = false).
Proof.
  intros Hr Hc. pose proof (reachable_inv _ Hr) as Hinv. pose proof Hinv as [Hp Hcs _].
  pose proof (Forall_lookup_1 _ _ _ _ Hcs Hc) as Hok. split_and!.
  - apply (ok_lock _ Hok).
  - intros i. by apply lock_held_by_caller with (w := w) (p := p).
  - intros i i' k k' Hk Hk' Hh Hh'.
    pose proof (ok_lock _ Hok _ _ Hk Hh). pose proof (ok_lock _ Hok _ _ Hk' Hh'). congruence.
  - intros cz b w' Hq Hex i k Hk. destruct (holds (cpc_of k)) eqn:Hh; [|done].
    pose proof (ok_lock _ Hok _ _ Hk) as Hl. rewrite Hh in Hl. specialize (Hl I).
    pose proof (inv_step _ _ _ Hinv Hex) as [Hp' _ _].
    unfold exec, exec_runner in Hex. rewrite Hp, Hc in Hex. simpl in Hex.
    unfold runner_step, periodic_step, oneoff_step, finaliseJob in Hex.
    rewrite Hq, Hl in Hex. by destruct (periodic (rec c)).
Qed.

(** The theorem of X8 at the state in which [CancelJob("A")] has stored
    [finalised] and is about to send. *)
Lemma stateLock_exclusion_witness :
  reachable cancelling_world ∧
  heap cancelling_world !! 0 = Some (cell_at cancelling_world 0) ∧
  callers (cell_at cancelling_world 0) !! 0 = Some (Caller OpCancelJob CancelAtSend) ∧
  stateLock (rec (cell_at cancelling_world 0)) = Some 0.
Proof.
  assert (reachable cancelling_world) as Hr.
  { exists [LScheduleJob "A" (Some ()); LEnter OpCancelJob "A"; LCaller 0 0; LCaller 0 0].
    vm_compute; reflexivity. }
  assert (heap cancelling_world !! 0 = Some (cell_at cancelling_world 0)) as Hc
    by (vm_compute; reflexivity).
  split; [exact Hr|]. split; [exact Hc|]. split; [vm_compute; reflexivity|].
  destruct (stateLock_exclusion cancelling_world 0 _ Hr Hc) as (H & _).
  apply (H 0 (Caller OpCancelJob CancelAtSend)); [vm_compute; reflexivity|exact I].
Defined.

(** X9.  In every state the service can reach, [finalised] is set only
    if the runner has executed [finaliseJob] or a cancel operation has
    stored it; it is never reset; and no run operation returns nil after
    it has been set. *)
Theorem finalised_origin w p c :
  reachable w → heap w !! p = Some c → finalised (rec c) = true →
  (finalised_pc (periodic (rec c)) (pc (task c)) ∨
   ∃ i k, callers c !! i = Some k ∧ cancel_stored k) ∧
  ∀ ls w', run ls w = Some w' →
    ∃ c', heap w' !! p = Some c' ∧ finalised (rec c') = true ∧
          ∀ i k, callers c' !! i = Some k → is_run (cop k) → cpc_of k = Returned None →
                 callers c !! i = Some k.
Proof.
  intros Hr Hc Hf. split.
  { apply (finalised_by _ _ _ Hr Hc). by rewrite Hf. }
  intros ls w' Hrun.
  destruct (run_cell_invariant
    (λ c', finalised (rec c') = true ∧
           ∀ i k, callers c' !! i = Some k → is_run (cop k) →
                  cpc_of k = Returned None ∨ sends (cpc_of k) →
                  callers c !! i = Some k ∧ cpc_of k = Returned None) p)
    with (ls := ls) (w := w) (w' := w') (c := c) as (c' & Hc' & Hf' & Hcal');
    [|by apply reachable_inv|done|done| |].
  - clear. intros w0 c0 c1 _ _ Hok Hm [Hf0 HP].
    destruct Hm as [->|b js' Hst Hcs|i0 k0 j' q Hk0 Hst ->|f [-> | ->] ->|o nm Hnm ->]; simpl in *.
    + done.
    + rewrite Hcs. split; [by eapply runner_step_finalised_mono|done].
    + split; [by eapply caller_step_finalised_mono|].
      intros i k Hk Ho Hq. destruct (decide (i = i0)) as [->|Hne].
      * rewrite list_lookup_insert_eq in Hk by (by eapply lookup_lt_Some). simplify_eq. simpl in *.
        pose proof (ok_op _ Hok _ _ Hk0) as Hop. specialize (HP _ _ Hk0 Ho).
        exfalso.
        destruct (rec c0) as [lk act fin per cc rc], k0 as [o0 q0]. simpl in *. subst fin.
        unfold caller_step, runJob, cancelJob, send in Hst.
        destruct q0; simpl in *.
        all: try (destruct HP as [_ HP]; [by right|done]).
        all: try (by destruct o0).
        all: crush_step; by destruct Hq.
      * rewrite list_lookup_insert_ne in Hk by done. eauto.
    + done.
    + done.
    + split; [done|]. intros i k Hk Ho Hq.
      apply lookup_app_Some in Hk as [Hk|[_ Hk]]; [by eauto|].
      apply list_lookup_singleton_Some in Hk as [_ <-]. simpl in Hq.
      unfold entry in Hq. by destruct (is_run o), Hq.
  - split; [done|]. intros i k Hk Ho [Hq|Hq]; [done|].
    pose proof (run_sends_not_finalised _ _ _ _ _ Hr Hc Hk Ho Hq). congruence.
  - exists c'. split; [done|]. split; [done|]. intros i k Hk Ho Hq.
    apply (Hcal' i k Hk Ho). by left.
Qed.

(** The theorem of X9 at the state in which [CancelJob("A")] has returned
    nil. *)
Lemma finalised_origin_witness :
  reachable cancelled_world ∧
  heap cancelled_world !! 0 = Some (cell_at cancelled_world 0) ∧
  finalised (rec (cell_at cancelled_world 0)) = true ∧
  ∃ i k, callers (cell_at cancelled_world 0) !! i = Some k ∧ cancel_stored k.
Proof.
  assert (reachable cancelled_world) as Hr by (exists cancel_trace; vm_compute; reflexivity).
  assert (heap cancelled_world !! 0 = Some (cell_at cancelled_world 0)) as Hc
    by (vm_compute; reflexivity).
  split; [exact Hr|]. split; [exact Hc|]. split; [vm_compute; reflexivity|].
  destruct (finalised_origin cancelled_world 0 _ Hr Hc eq_refl) as ([Hq|H] & _); [|exact H].
  vm_compute in Hq. destruct Hq.
Defined.

(** X10.  A periodic job is executed at most once for each time that
    [runtimeFunc] has given: in every state the service can reach, the
    executions started by the timer case and by the run case, and the one
    that the runner is about to start, are no more than the calls of
    [runtimeFunc]. *)
Theorem periodic_executions w p c :
  reachable w → heap w !! p = Some c → periodic (rec c) = true →
  startedOnTimer (task c) + startedOnSignal (task c) + pending (pc (task c))
    ≤ rtCalls (task c).
Proof.
  intros Hr Hc.
  apply (reachable_cell_invariant
    (λ c, periodic (rec c) = true →
          startedOnTimer (task c) + startedOnSignal (task c) + pending (pc (task c))
            ≤ rtCalls (task c)))
    with (w := w) (p := p); [by intros [] ? ?; simpl; intros; try lia| |done..].
  clear. intros w p c c' _ _ Hok Hm HP.
  destruct Hm as [->|b js' Hs Hcs|i0 k0 j' q Hk0 Hs ->|f [-> | ->] ->|o nm Hnm ->]; simpl; auto.
  - destruct c as [j r cs], c' as [j' r' cs']. simpl in *.
    destruct j as [lk act fin per [cb ccl] [rb rcl]], r as [nm q cd tr rf rn sT sS cn el].
    simpl in *.
    unfold runner_step, periodic_step, oneoff_step, select, finaliseJob, close in Hs.
    destruct per; crush_step; try done; intros; specialize (HP eq_refl); lia.
  - rewrite (caller_step_frame _ _ _ _ _ Hs). done.
Qed.

(** The theorem of X10 for the periodic job "B" after its first execution. *)
Lemma periodic_executions_witness :
  reachable iterated_world ∧
  heap iterated_world !! 0 = Some (cell_at iterated_world 0) ∧
  periodic (rec (cell_at iterated_world 0)) = true ∧
  startedOnTimer (task (cell_at iterated_world 0)) = 1 ∧
  1 ≤ rtCalls (task (cell_at iterated_world 0)).
Proof.
  assert (reachable iterated_world) as Hr.
  { exists (LSchedulePeriodicJob "B" (Some rf_twice) (Some ()) :: timer_labels 0 6).
    vm_compute; reflexivity. }
  assert (heap iterated_world !! 0 = Some (cell_at iterated_world 0)) as Hc
    by (vm_compute; reflexivity).
  assert (startedOnTimer (task (cell_at iterated_world 0)) = 1) as Hs
    by (vm_compute; reflexivity).
  split; [exact Hr|]. split; [exact Hc|]. split; [vm_compute; reflexivity|].
  split; [exact Hs|].
  pose proof (periodic_executions iterated_world 0 _ Hr Hc eq_refl) as H.
  rewrite Hs in H. lia.
Defined.

(** X11.  A deadlock of [runJob] and [finaliseJob].  When a run operation
    on a periodic job is inside its critical section, about to send on a
    run channel that still holds an earlier signal, and the runner has
    reached [finaliseJob], neither can take a step, and this stays so in
    every continuation: the record and the runner do not change, the
    channels are never closed, and every operation that gets hold of the
    record later waits for the lock for ever. *)
Theorem run_signal_deadlock w p c i :
  reachable w → heap w !! p = Some c → run_blocked i c →
  exec (LCaller p i) w = None ∧
  (∀ b, exec (LRunner p b) w = None) ∧
  ∀ ls w', run ls w = Some w' →
    ∃ c' cs, heap w' !! p = Some c' ∧ run_blocked i c' ∧
             rec c' = rec c ∧ pc (task c') = pc (task c) ∧
             callers c' = callers c ++ cs ∧
             Forall (λ k, cpc_of k = entry (cop k)) cs.
Proof.
  intros Hr Hc (Hper & Hl & (o & Hk) & Hrc & cz & Hq).
  pose proof (reachable_inv _ Hr) as Hinv. pose proof Hinv as [Hp _ _]. split_and!.
  - unfold exec, exec_caller. rewrite Hp, Hc. simpl. rewrite Hk. simpl.
    unfold send. by rewrite Hrc.
  - intros b. unfold exec, exec_runner. rewrite Hp, Hc. simpl.
    unfold runner_step, periodic_step, finaliseJob. by rewrite Hper, Hq, Hl.
  - intros ls w' Hrun.
    destruct (run_cell_invariant
      (λ c', rec c' = rec c ∧ pc (task c') = pc (task c) ∧
             ∃ cs, callers c' = callers c ++ cs ∧
                   Forall (λ k, cpc_of k = entry (cop k)) cs) p)
      with (ls := ls) (w := w) (w' := w') (c := c) as (c' & Hc' & Hrec & Hpc & cs & Hcs & Hen);
      [|done|done|done| |].
    + clear Hrun Hc Hr Hinv Hp. intros w0 c0 c1 _ _ Hok Hm (Hrec & Hpc & cs & Hcs & Hen).
      destruct Hm as [->|b js' Hst Hcs'|i0 k0 j' q Hk0 Hst ->|f [-> | ->] ->|o' nm Hnm ->];
        simpl in *.
      * eauto.
      * exfalso. unfold runner_step, periodic_step, finaliseJob in Hst.
        rewrite Hrec, Hper, Hpc, Hq, Hl in Hst. done.
      * exfalso. rewrite Hrec in Hst.
        rewrite Hcs in Hk0. apply lookup_app_Some in Hk0 as [Hk0|[Hge Hk0]].
        -- destruct (decide (i0 = i)) as [->|Hne].
           ++ rewrite Hk in Hk0. simplify_eq. simpl in Hst. unfold send in Hst.
              by rewrite Hrc in Hst.
           ++ pose proof (ok_lock _ Hok i0 k0) as Hl0. rewrite Hcs, Hrec, Hl in Hl0.
              specialize (Hl0 (lookup_app_l_Some _ _ _ _ Hk0)).
              destruct (cpc_of k0); simpl in *; try done; try (specialize (Hl0 I); congruence).
              all: by rewrite Hl in Hst.
        -- pose proof (Forall_lookup_1 _ _ _ _ Hen Hk0) as He. simpl in He. rewrite He in Hst.
           unfold entry in Hst. destruct (is_run (cop k0)); simpl in Hst; by rewrite Hl in Hst.
      * split; [done|]. split; [by destruct (task c0)|]. eauto.
      * split; [done|]. split; [by destruct (task c0)|]. eauto.
      * split; [done|]. split; [done|]. exists (cs ++ [Caller o' (entry o')]).
        rewrite Hcs, <- app_assoc. split; [done|]. apply Forall_app. split; [done|].
        by repeat constructor.
    + split; [done|]. split; [done|]. exists []. by rewrite app_nil_r.
    + exists c', cs. split; [done|]. split; [|done].
      unfold run_blocked. rewrite Hrec, Hpc, Hcs. split_and!; try done; [|by eauto].
      exists o. by apply lookup_app_l_Some.
Qed.

(** The theorem of X11 at a state that the service reaches: [RunJob("B")]
    returned nil while the timer case was about to execute the job, the
    job was executed and [active] reset, a second [RunJob("B")] reached its
    send, and [runtimeFunc] returned [ErrNoMoreInstances]. *)
Lemma run_signal_deadlock_witness :
  reachable deadlock_world ∧
  heap deadlock_world !! 0 = Some (cell_at deadlock_world 0) ∧
  run_blocked 1 (cell_at deadlock_world 0) ∧
  callers (cell_at deadlock_world 0) !! 0 = Some (Caller OpRunJob (Returned None)) ∧
  startedOnSignal (task (cell_at deadlock_world 0)) = 0 ∧
  exec (LCaller 0 1) deadlock_world = None ∧
  ∀ b, exec (LRunner 0 b) deadlock_world = None.
Proof.
  assert (reachable deadlock_world) as Hr by (exists deadlock_trace; vm_compute; reflexivity).
  assert (heap deadlock_world !! 0 = Some (cell_at deadlock_world 0)) as Hc
    by (vm_compute; reflexivity).
  assert (run_blocked 1 (cell_at deadlock_world 0)) as Hb.
  { split; [vm_compute; reflexivity|]. split; [vm_compute; reflexivity|].
    split; [exists OpRunJob; vm_compute; reflexivity|].
    split; [vm_compute; reflexivity|]. exists NoMoreInstances. vm_compute; reflexivity. }
  split; [exact Hr|]. split; [exact Hc|]. split; [exact Hb|].
  split; [vm_compute; reflexivity|]. split; [vm_compute; reflexivity|].
  destruct (run_signal_deadlock deadlock_world 0 _ 1 Hr Hc Hb) as (H1 & H2 & _).
  split; [exact H1|exact H2].
Defined.

Lemma exec_jobs_back l w w' nm p :
  exec l w = Some w' → jobs w' !! nm = Some p →
  jobs w !! nm = Some p ∨ p = length (heap w).
Proof.
  unfold exec. destruct (panicked w); [done|].
  destruct l as [nm0 f|nm0 rf f|o nm0|p0 i|p0 b|p0|p0]; intros H Hnm; simplify_eq/=.
  - unfold ScheduleJob in Hnm. repeat case_match; simpl in *; auto.
    apply lookup_insert_Some in Hnm as [[_ <-]|[_ ?]]; auto.
  - unfold SchedulePeriodicJob in Hnm. repeat case_match; simpl in *; auto.
    apply lookup_insert_Some in Hnm as [[_ <-]|[_ ?]]; auto.
  - left. unfold enter in H. destruct (jobs w !! nm0); simplify_eq/=; [|done].
    destruct (heap w !! _) as [c|]; simplify_eq/=.
    destruct (is_run o && periodic (rec c)); [done|].
    by apply lookup_delete_Some in Hnm as [_ ?].
  - left. unfold exec_caller in H. destruct (heap w !! p0) as [c|]; simplify_eq/=.
    destruct (callers c !! i) as [k|]; simplify_eq/=.
    by destruct (caller_step i (rec c) (cpc_of k)) as [[??]| |]; simplify_eq/=.
  - left. unfold exec_runner in H. destruct (heap w !! p0) as [c|]; simplify_eq/=.
    destruct (runner_step b (jobs w) (rec c) (task c)) as [[[js j] r]| |] eqn:Hs;
      simplify_eq/=; [|done].
    destruct (runner_step_frame _ _ _ _ _ _ _ Hs) as (_ & _ & [->| ->]); [done|].
    by apply lookup_delete_Some in Hnm as [_ ?].
  - left. unfold exec_env in H. by destruct (heap w !! p0); simplify_eq/=.
  - left. unfold exec_env in H. by destruct (heap w !! p0); simplify_eq/=.
Qed.

(** A record that is out of the map stays out of it. *)
Lemma unregistered_forever ls : ∀ w w' p,
  run ls w = Some w' → p < length (heap w) → (∀ nm, jobs w !! nm ≠ Some p) →
  p < length (heap w') ∧ ∀ nm, jobs w' !! nm ≠ Some p.
Proof.
  induction ls as [|l ls IH]; intros w w' p Hrun Hlt Hno; simplify_eq/=; [done|].
  destruct (exec l w) as [w1|] eqn:Hl; simplify_eq/=.
  apply (IH w1 w' p Hrun).
  - destruct (exec_heap_length _ _ _ Hl) as [->|(per & nm & rf & ->)]; [done|].
    rewrite length_app. simpl. lia.
  - intros nm Hnm. destruct (exec_jobs_back _ _ _ _ _ Hl Hnm) as [?|?]; [by eapply Hno|lia].
Qed.

(** X12.  The runner deletes the name of its job from the map, whichever
    record the name points to.  When the name has been taken out of the
    map and scheduled again, the step of the first runner that deletes the
    name takes the live record of the second job out of the map:
    [JobExists] is false of the name and [CancelJob] returns
    [ErrNoSuchJob], while the second record is untouched, its runner still
    waiting, and in no continuation is the record in the map again. *)
Theorem delete_by_name w p c cz p' :
  reachable w → heap w !! p = Some c → pc (task c) = AtDelete cz →
  jobs w !! name (task c) = Some p' → p' ≠ p →
  ∃ c', heap w !! p' = Some c' ∧ name (task c') = name (task c) ∧
        finalised (rec c') = false ∧ live_pc (pc (task c')) ∧
        ∀ b, ∃ w1,
          exec (LRunner p b) w = Some w1 ∧
          jobs w1 = delete (name (task c)) (jobs w) ∧
          JobExists (name (task c)) w1 = false ∧
          heap w1 !! p' = Some c' ∧
          call OpCancelJob (name (task c)) w1 = Some (w1, Some ErrNoSuchJob) ∧
          ∀ ls w2, run ls w1 = Some w2 → ∀ nm, jobs w2 !! nm ≠ Some p'.
Proof.
  intros Hr Hc Hq Hnm Hne.
  pose proof (reachable_inv _ Hr) as Hinv. pose proof Hinv as [Hp _ _].
  destruct (registered_record _ _ _ Hr Hnm) as (c' & Hc' & Hname & Hinj & Hfin & _ & _ & Hlive & _).
  exists c'. split_and!; try done. intros b.
  assert (exec (LRunner p b) w =
          Some (World (delete (name (task c)) (jobs w))
                  (<[p := Cell (rec c)
                            (goto (if periodic (rec c) then AtFinalise cz
                                   else match cz with
                                        | ParentDone => AtFinalise ParentDone
                                        | _ => AtActiveStore
                                        end) (task c))
                            (callers c)]> (heap w))
                  (scheduled w) false)) as Hex.
  { unfold exec, exec_runner. rewrite Hp, Hc. simpl.
    unfold runner_step, periodic_step, oneoff_step. rewrite Hq.
    by destruct (periodic (rec c)). }
  eexists. split; [exact Hex|]. simpl.
  assert (delete (name (task c)) (jobs w) !! name (task c) = None) as Hgone
    by apply lookup_delete_eq.
  split_and!; try done.
  - unfold JobExists. simpl. apply bool_decide_eq_false_2. rewrite Hgone. by intros [? ?].
  - by rewrite list_lookup_insert_ne.
  - by apply call_absent.
  - intros ls w2 Hrun.
    eapply (unregistered_forever ls _ w2 p' Hrun); simpl.
    + rewrite length_insert. by eapply lookup_lt_Some.
    + intros nm Hx. apply lookup_delete_Some in Hx as [Hn Hx]. by apply Hinj in Hx.
Qed.

(** The theorem of X12 at a state that the service reaches: the timer case
    of job "A" has loaded [active], [CancelJob("A")] has removed the name
    and [ScheduleJob] has registered a new job "A". *)
Lemma delete_by_name_witness :
  reachable stale_world ∧
  heap stale_world !! 0 = Some (cell_at stale_world 0) ∧
  pc (task (cell_at stale_world 0)) = AtDelete TimerFired ∧
  jobs stale_world !! name (task (cell_at stale_world 0)) = Some 1 ∧
  ∃ c', heap stale_world !! 1 = Some c' ∧ pc (task c') = AtSelect ∧
        ∃ w1, exec (LRunner 0 BrTimer) stale_world = Some w1 ∧
              JobExists "A" w1 = false ∧ heap w1 !! 1 = Some c'.
Proof.
  assert (reachable stale_world) as Hr by (exists stale_trace; vm_compute; reflexivity).
  assert (heap stale_world !! 0 = Some (cell_at stale_world 0)) as Hc
    by (vm_compute; reflexivity).
  assert (jobs stale_world !! name (task (cell_at stale_world 0)) = Some 1) as Hnm
    by (vm_compute; reflexivity).
  split; [exact Hr|]. split; [exact Hc|]. split; [vm_compute; reflexivity|].
  split; [exact Hnm|].
  destruct (delete_by_name stale_world 0 _ TimerFired 1 Hr Hc eq_refl Hnm ltac:(discriminate))
    as (c' & Hc' & _ & _ & _ & H).
  exists c'. split; [exact Hc'|].
  split.
  { assert (heap stale_world !! 1 = Some (cell_at stale_world 1)) as Hc1 by (vm_compute; reflexivity).
    rewrite Hc1 in Hc'. injection Hc' as <-. vm_compute; reflexivity. }
  destruct (H BrTimer) as (w1 & Hex & _ & Hje & Hc1 & _).
  exists w1. split; [exact Hex|]. split; [exact Hje|exact Hc1].
Defined.

End Together.

(** ** The parameters and [New] *)

Section ParamsProofs.

Context {Monitor : Type}.

Lemma apply_all_nil (params : list (option (@Params.Param Monitor))) p :
  None ∈ params → Params.apply_all params p = Panic.
Proof.
  revert p. induction params as [|[f|] params IH]; intros p Hin; simpl; [|auto..].
  - by apply elem_of_nil in Hin.
  - apply IH. by apply elem_of_cons in Hin as [?|?].
Qed.

Lemma apply_all_some (fs : list (@Params.Param Monitor)) : ∀ p,
  Params.apply_all (Some <$> fs) p =
    Next (Params.MkParameters
            (default (Params.logLevel p) (list.last (omap Params.level_of fs)))
            (default (Params.monitor p) (list.last (omap Params.monitor_of fs)))).
Proof.
  induction fs as [|f fs IH]; intros p; simpl.
  { by destruct p. }
  change (list_fmap _ _ Some fs) with (Some <$> fs). rewrite IH.
  destruct f as [l|m]; simpl.
  all: change (list_omap _ _ Params.level_of fs) with (omap Params.level_of fs).
  all: change (list_omap _ _ Params.monitor_of fs) with (omap Params.monitor_of fs).
  - rewrite last_cons. by destruct (list.last (omap Params.level_of fs)).
  - rewrite last_cons. by destruct (list.last (omap Params.monitor_of fs)).
Qed.

(** X13.  [New] and its parameters.  A nil parameter makes
    [parseAndCheckParameters], and so [New], panic.  Otherwise
    [parseAndCheckParameters] returns no error; the log level is that of
    the last [WithLogLevel], or the global level when there is none; the
    monitor is that of the last [WithMonitor], or the null monitor when
    there is none or when the last one gave nil; and [New] sets the level
    of the module-wide logger to that level, whatever the level of the
    logger was, and returns a service with no jobs, or no service and an
    error when [registerMetrics] fails. *)
Theorem New_result (registerMetrics : option (@Params.service Monitor) → option Params.error)
    (global log logger : Params.Level) :
  (∀ params, None ∈ params →
     Params.parseAndCheckParameters global params = Panic ∧
     Params.New registerMetrics global log logger params = Panic) ∧
  (∀ fs,
     let lvl := default global (list.last (omap Params.level_of fs)) in
     let mon := default Params.NullMetrics (mjoin (list.last (omap Params.monitor_of fs))) in
     Params.parseAndCheckParameters global (Some <$> fs)
       = Next (Params.MkParameters lvl (Some mon), None) ∧
     Params.New registerMetrics global log logger (Some <$> fs) =
       Next
         match registerMetrics (Some mon) with
         | None => (lvl, Some New, None)
         | Some _ => (lvl, None, Some "failed to register metrics")
         end).
Proof.
  split.
  - intros params Hin. unfold Params.New, Params.parseAndCheckParameters.
    by rewrite apply_all_nil.
  - intros fs lvl mon.
    assert (Params.parseAndCheckParameters global (Some <$> fs)
            = Next (Params.MkParameters lvl (Some mon), None)) as Hp.
    { unfold Params.parseAndCheckParameters. rewrite apply_all_some. simpl.
      subst lvl mon. by destruct (list.last (omap Params.monitor_of fs)) as [[m|]|]. }
    split; [done|]. unfold Params.New. rewrite Hp. simpl.
    case_bool_decide as Hl.
    + by destruct (registerMetrics (Some mon)).
    + rewrite <- Hl. by destruct (registerMetrics (Some mon)).
Qed.

End ParamsProofs.

(** The theorem of X13 for a list of parameters with a nil one. *)
Lemma New_result_witness :
  None ∈ [Some (Params.WithLogLevel (Monitor := unit) 1%Z); None] ∧
  Params.New (λ _, None) 0%Z 0%Z 0%Z [Some (Params.WithLogLevel (Monitor := unit) 1%Z); None] = Panic.
Proof.
  assert (None ∈ [Some (Params.WithLogLevel (Monitor := unit) 1%Z); None]) as Hin
    by (right; left).
  split; [exact Hin|].
  destruct (New_result (Monitor := unit) (λ _, None) 0%Z 0%Z 0%Z) as (H & _).
  exact (proj2 (H _ Hin)).
Defined.

(** ** The errors of the chain ID *)

Section ChainIDErrors.

Local Open Scope Z_scope.

Lemma bytes_app s1 s2 : bytes (s1 +:+ s2) = bytes s1 ++ bytes s2.
Proof. unfold bytes. induction s1 as [|a s1 IH]; simpl; [done|]. by f_equal. Qed.

Lemma parse_loop_range l : ∀ n,
  0 ≤ n < 2 ^ 64 →
  0 ≤ (parse_loop l n).1 < 2 ^ 64 ∧
  ((parse_loop l n).2 = Some ErrSyntax → (parse_loop l n).1 = 0) ∧
  ((parse_loop l n).2 = Some ErrRange → (parse_loop l n).1 = maxUint64).
Proof.
  induction l as [|c l IH]; intros n Hn; simpl; [done|].
  destruct (digit c) as [d|]; simpl; [|done].
  repeat case_bool_decide; simpl; try done.
  apply IH. apply Z.mod_pos_bound. lia.
Qed.

(** The loop on a string of hexadecimal digits whose value does not fit
    64 bits. *)
Lemma parse_loop_overflow l : ∀ n v,
  0 ≤ n < 2 ^ 64 →
  hex_value (byte_of <$> l) n = Some v → 2 ^ 64 ≤ v →
  parse_loop (byte_of <$> l) n = (maxUint64, Some ErrRange).
Proof.
  induction l as [|a l IH]; intros n v Hn Hv Hbig; simpl in *; [simplify_eq; lia|].
  pose proof (digit_hex_digit a) as Hhd. rewrite Hhd in Hv.
  destruct (digit (byte_of a)) as [d|] eqn:Hd; simpl in *; [|done].
  case_bool_decide as Hd16; simpl in *; [done|].
  apply hex_digit_range in Hhd.
  change (list_fmap Ascii.ascii Z byte_of l) with (byte_of <$> l) in *.
  case_bool_decide as Hcut; [done|]. rewrite cutoff_eq in Hcut.
  rewrite (Z.mod_small (n * 16)) by lia. rewrite (Z.mod_small (n * 16 + d)) by lia.
  rewrite (bool_decide_eq_false_2 (_ ∨ _)) by (unfold maxUint64; lia).
  eapply IH; [lia|done..].
Qed.

(** The loop on hexadecimal digits, whose value fits 64 bits, followed by
    a character that is not one. *)
Lemma parse_loop_syntax l c rest : ∀ n v,
  0 ≤ n < 2 ^ 64 →
  hex_value (byte_of <$> l) n = Some v → v < 2 ^ 64 →
  hex_digit (byte_of c) = None →
  parse_loop ((byte_of <$> l) ++ byte_of c :: rest) n = (0, Some ErrSyntax).
Proof.
  induction l as [|a l IH]; intros n v Hn Hv Hsmall Hc; simpl in *.
  - rewrite digit_hex_digit in Hc. destruct (digit (byte_of c)) as [d|]; simpl in *; [|done].
    by case_bool_decide.
  - pose proof (digit_hex_digit a) as Hhd. rewrite Hhd in Hv.
    destruct (digit (byte_of a)) as [d|] eqn:Hd; simpl in *; [|done].
    case_bool_decide as Hd16; simpl in *; [done|].
    apply hex_digit_range in Hhd.
    change (list_fmap Ascii.ascii Z byte_of l) with (byte_of <$> l) in *.
    assert (n * 16 + d ≤ v) as Hge by (apply (hex_value_ge l); [lia|done]).
    rewrite bool_decide_eq_false_2 by (rewrite cutoff_eq; lia).
    rewrite (Z.mod_small (n * 16)) by lia. rewrite (Z.mod_small (n * 16 + d)) by lia.
    rewrite (bool_decide_eq_false_2 (_ ∨ _)) by (unfold maxUint64; lia).
    eapply IH; [lia|done..].
Qed.

(** X14.  The errors of [chainID].  The number it returns is a 64-bit
    number, and it is 0 whenever there is an error.  A result "0x" gives
    a syntax error.  A result whose digits are all hexadecimal but whose
    value does not fit 64 bits gives a range error.  A result that has a
    character that is not a hexadecimal digit, after digits whose value
    fits, gives a syntax error.  And [ParseUint] ignores a leading zero. *)
Theorem chainID_errors (decode : string → option string) :
  (∀ resp, 0 ≤ (chainID decode resp).1 < 2 ^ 64 ∧
           ((chainID decode resp).2 ≠ None → (chainID decode resp).1 = 0)) ∧
  (∀ body, decode body = Some "0x" →
     chainID decode (PostBody body) = (0, Some (FailedParse ErrSyntax))) ∧
  (∀ body result v,
     decode body = Some result →
     hex_value (bytes (TrimPrefix result "0x")) 0 = Some v → 2 ^ 64 ≤ v →
     chainID decode (PostBody body) = (0, Some (FailedParse ErrRange))) ∧
  (∀ body result pre c rest v,
     decode body = Some result →
     TrimPrefix result "0x" = pre +:+ String c rest →
     hex_value (bytes pre) 0 = Some v → v < 2 ^ 64 → hex_digit (byte_of c) = None →
     chainID decode (PostBody body) = (0, Some (FailedParse ErrSyntax))) ∧
  (∀ s, s ≠ EmptyString → ParseUint16 ("0" +:+ s) = ParseUint16 s).
Proof.
  split_and!.
  - intros [| |body]; simpl; try done.
    destruct (decode body) as [result|]; simpl; [|done].
    unfold ParseUint16. case_bool_decide; simpl; [done|].
    pose proof (parse_loop_range (bytes (TrimPrefix result "0x")) 0 ltac:(lia)) as (Hr & _).
    destruct (parse_loop (bytes (TrimPrefix result "0x")) 0) as [n [e|]]; simpl in *; done.
  - intros body Hb. simpl. by rewrite Hb.
  - intros body result v Hb Hv Hbig. simpl. rewrite Hb.
    unfold ParseUint16. case_bool_decide as Hs.
    { rewrite Hs in Hv. simpl in Hv. simplify_eq. lia. }
    unfold bytes in *. by erewrite parse_loop_overflow.
  - intros body result pre c rest v Hb Hs Hv Hsmall Hc. simpl. rewrite Hb, Hs.
    unfold ParseUint16. rewrite bool_decide_eq_false_2 by (by destruct pre).
    rewrite bytes_app. unfold bytes in *. simpl.
    change (list_fmap Ascii.ascii Z byte_of (String.list_ascii_of_string rest))
      with (byte_of <$> String.list_ascii_of_string rest).
    by erewrite parse_loop_syntax.
  - intros s Hs. unfold ParseUint16.
    rewrite !bool_decide_eq_false_2 by done. reflexivity.
Qed.

End ChainIDErrors.

(** The theorem of X14 for the result "0x10000000000000000", which is 2^64. *)
Lemma chainID_errors_witness :
  Some "0x10000000000000000" = Some "0x10000000000000000" ∧
  hex_value (bytes (TrimPrefix "0x10000000000000000" "0x")) 0 = Some (2 ^ 64)%Z ∧
  chainID Some (PostBody "0x10000000000000000") = (0%Z, Some (FailedParse ErrRange)).
Proof.
  split; [reflexivity|]. split; [vm_compute; reflexivity|].
  destruct (chainID_errors Some) as (_ & _ & H & _).
  apply (H _ "0x10000000000000000" (2 ^ 64)%Z); [reflexivity|vm_compute; reflexivity|lia].
Defined.
